(** * ilqgames: LQ feedback solver, receding-horizon driver and GUI sliders

    A shallow embedding of
      - [LQFeedbackSolver::Solve]           (solver/lq_feedback_solver.cpp),
      - [SolveLyapunovIterations] and the test [MatchesLyapunovIterations]
                                            (test/test_solve_lq_game.cpp),
      - [RecedingHorizonSimulator]          (src/receding_horizon_simulator.cpp),
      - [ControlSliders]' accessors         (gui/control_sliders.h),
    together with the properties stated about them.

    Scalars: the C++ code computes in floating point.  The matrices of the
    solver are modelled over exact rationals ([Qc], canonical fractions, so
    that equality is Leibniz equality and every definition evaluates), and
    so are the times of [RecedingHorizon] and [Sliders]: rounding is
    outside those modules, and what is proved there is the code up to
    rounding.  Where rounding or a NaN decides the property - whether the
    driver's loop ends, what the time slider returns - times are IEEE 754
    numbers ([FloatTime], [FloatDriver], [FloatSliders]). *)

From Stdlib Require Import List Arith ZArith QArith Qcanon Qround Lia Lqa Bool.
From Stdlib Require Import SpecFloat.
From Bignums Require Import BigZ.BigZ.
Import ListNotations.

Set Implicit Arguments.

(* ===================================================================== *)
(** * Dense matrices (Eigen's [MatrixXf] / [VectorXf])                    *)
(* ===================================================================== *)

Module Mat.

Local Open Scope Qc_scope.

(** A dense matrix carries its own dimensions, as an Eigen matrix does.  A
    [VectorXf] is a matrix with one column. *)
Record Matrix : Type := mkMatrix
  { rows : nat;
    cols : nat;
    data : list (list Qc) }.

(** [M(i, j)]; reading outside the stored coefficients yields [0] here
    (undefined behaviour in C++). *)
Definition coeff (M : Matrix) (i j : nat) : Qc :=
  nth j (nth i (data M) []) 0.

(** The [r] x [c] matrix whose coefficient [(i, j)] is [f i j]. *)
Definition tabulate (r c : nat) (f : nat -> nat -> Qc) : Matrix :=
  mkMatrix r c (map (fun i => map (f i) (seq 0 c)) (seq 0 r)).

(** The stored coefficients agree with the announced dimensions. *)
Definition wf (M : Matrix) : Prop :=
  length (data M) = rows M /\
  Forall (fun row => length row = cols M) (data M).

Definition has_dims (r c : nat) (M : Matrix) : Prop :=
  wf M /\ rows M = r /\ cols M = c.

(** [sum_n n f] is [f 0 + ... + f (n-1)], accumulated left to right. *)
Definition sum_n (n : nat) (f : nat -> Qc) : Qc :=
  fold_left (fun acc k => acc + f k) (seq 0 n) 0.

(** [MatrixXf::Zero(r, c)] and [MatrixXf::Identity(r, c)]. *)
Definition Zero (r c : nat) : Matrix := tabulate r c (fun _ _ => 0).
Definition Identity (r c : nat) : Matrix :=
  tabulate r c (fun i j => if Nat.eqb i j then 1 else 0).

(** [M.transpose()]. *)
Definition transpose (M : Matrix) : Matrix :=
  tabulate (cols M) (rows M) (fun i j => coeff M j i).

(** [A * B]. *)
Definition mmul (A B : Matrix) : Matrix :=
  tabulate (rows A) (cols B)
           (fun i j => sum_n (cols A) (fun k => coeff A i k * coeff B k j)).

(** [A + B] and [A - B]. *)
Definition madd (A B : Matrix) : Matrix :=
  tabulate (rows A) (cols A) (fun i j => coeff A i j + coeff B i j).
Definition msub (A B : Matrix) : Matrix :=
  tabulate (rows A) (cols A) (fun i j => coeff A i j - coeff B i j).

(** [s * A]. *)
Definition mscale (s : Qc) (A : Matrix) : Matrix :=
  tabulate (rows A) (cols A) (fun i j => s * coeff A i j).

(** [M.block(r, c, h, w)] read as a value. *)
Definition block (M : Matrix) (r c h w : nat) : Matrix :=
  tabulate h w (fun i j => coeff M (r + i) (c + j)).

(** [M.block(r, c, h, w) = B]: the matrix [M] after the assignment. *)
Definition set_block (M : Matrix) (r c h w : nat) (B : Matrix) : Matrix :=
  tabulate (rows M) (cols M)
    (fun i j =>
       if (r <=? i) && (i <? r + h) && (c <=? j) && (j <? c + w)
       then coeff B (i - r) (j - c)
       else coeff M i j).

Definition symmetric (M : Matrix) : Prop := transpose M = M.

(** ** An exact linear solve

    [S.householderQr().solve(Y)] returns, for a nonsingular [S] and in exact
    arithmetic, the one solution of [S X = Y].  [exact_solve] computes it by
    Cramer's rule; it is the instance at which the solver is evaluated. *)

Fixpoint remove_nth {T} (j : nat) (l : list T) : list T :=
  match l, j with
  | [], _ => []
  | _ :: l', O => l'
  | x :: l', S j' => x :: remove_nth j' l'
  end.

(** Determinant of the [n] x [n] matrix with rows [M], by expansion along
    the first row. *)
Fixpoint det_rows (n : nat) (M : list (list Qc)) : Qc :=
  match n, M with
  | S n', row0 :: rest =>
      sum_n (length row0)
            (fun j => (if Nat.even j then 1 else - (1)) * nth j row0 0 *
                      det_rows n' (map (remove_nth j) rest))
  | _, _ => 1
  end.

Definition det (M : Matrix) : Qc := det_rows (rows M) (data M).

(** [M] with its column [i] replaced by column [j] of [Y]. *)
Definition replace_col (M : Matrix) (i : nat) (Y : Matrix) (j : nat) : Matrix :=
  tabulate (rows M) (cols M)
           (fun r c => if Nat.eqb c i then coeff Y r j else coeff M r c).

Definition exact_solve (M Y : Matrix) : Matrix :=
  tabulate (cols M) (cols Y) (fun i j => det (replace_col M i Y j) / det M).

(** [solve] returns the solution of every nonsingular system of order
    [n], as [householderQr().solve] does in exact arithmetic. *)
Definition solves_exactly (n : nat) (solve : Matrix -> Matrix -> Matrix)
  : Prop :=
  forall Smat Ymat c,
    has_dims n n Smat -> has_dims n c Ymat -> det Smat <> 0 ->
    has_dims n c (solve Smat Ymat) /\ mmul Smat (solve Smat Ymat) = Ymat.

(** Decidable equality of scalars and matrices, for evaluation. *)
Definition Qc_eqb (x y : Qc) : bool := Qeq_bool x y.

Fixpoint list_eqb {A} (eqb : A -> A -> bool) (l1 l2 : list A) : bool :=
  match l1, l2 with
  | [], [] => true
  | x :: l1', y :: l2' => eqb x y && list_eqb eqb l1' l2'
  | _, _ => false
  end.

Definition eqb (A B : Matrix) : bool :=
  Nat.eqb (rows A) (rows B) && Nat.eqb (cols A) (cols B) &&
  list_eqb (list_eqb Qc_eqb) (data A) (data B).

(** Decidable well-formedness and symmetry. *)
Definition wfb (M : Matrix) : bool :=
  Nat.eqb (length (data M)) (rows M) &&
  forallb (fun row => Nat.eqb (length row) (cols M)) (data M).

Definition has_dimsb (r c : nat) (M : Matrix) : bool :=
  wfb M && Nat.eqb (rows M) r && Nat.eqb (cols M) c.

Definition symmetricb (M : Matrix) : bool := eqb (transpose M) M.

(** Sum of a list of scalars. *)
Definition qsum (l : list Qc) : Qc := fold_right Qcplus 0 l.

(** Sum of a list of matrices of size [r] x [c]. *)
Definition msum (r c : nat) (l : list Matrix) : Matrix :=
  fold_right madd (Zero r c) l.

(** [a < b] on scalars. *)
Definition Qc_ltb (a b : Qc) : bool :=
  match a ?= b with Lt => true | _ => false end.

(** [M.cwiseAbs()] and [M.maxCoeff()]. *)
Definition Qc_abs (x : Qc) : Qc := if Qc_ltb x 0 then - x else x.
Definition cwiseAbs (M : Matrix) : Matrix :=
  tabulate (rows M) (cols M) (fun i j => Qc_abs (coeff M i j)).
Definition Qc_max (a b : Qc) : Qc := if Qc_ltb a b then b else a.
Definition maxCoeff (M : Matrix) : Qc :=
  match concat (data M) with
  | [] => 0
  | x :: l => fold_left Qc_max l x
  end.

End Mat.

(* ===================================================================== *)
(** * The LQ feedback solver                                              *)
(* ===================================================================== *)

Module LQ.

Import Mat.
Local Open Scope Qc_scope.

(** What [Solve] asks of [dynamics_] (a [MultiPlayerIntegrableSystem]):
    [NumPlayers()], [XDim()] and [UDim(ii)]. *)
Record Dynamics : Type := mkDynamics
  { NumPlayers : nat;
    XDim : nat;
    UDim : nat -> nat }.

(** [lin.A], [lin.Bs[ii]]. *)
Record LinearDynamicsApproximation : Type := mkLinearization
  { A : Matrix;
    Bs : list Matrix }.

(** [.hess], [.grad]. *)
Record SingleCostApproximation : Type := mkSingleCost
  { hess : Matrix;
    grad : Matrix }.

(** A map keyed by player index ([quad[ii].control]); keys are unique. *)
Definition PlayerMap (V : Type) : Type := list (nat * V).

Fixpoint find {V} (ii : nat) (m : PlayerMap V) : option V :=
  match m with
  | [] => None
  | (jj, v) :: m' => if Nat.eqb jj ii then Some v else find ii m'
  end.

Definition keys {V} (m : PlayerMap V) : list nat := map fst m.

(** [quad[ii].state], [quad[ii].control]. *)
Record QuadraticCostApproximation : Type := mkQuadraticization
  { state : SingleCostApproximation;
    control : PlayerMap SingleCostApproximation }.

(** [strategies[ii].Ps[kk]], [strategies[ii].alphas[kk]]. *)
Record Strategy : Type := mkStrategy
  { Ps : list Matrix;
    alphas : list Matrix }.

(** Modelled from the spec: the constructor [Strategy(horizon, xdim, udim)]
    of utils/strategy.h is not among the sources.  A Strategy is "a
    horizon-length sequence of affine feedback gains (P in R^{m x n},
    alpha in R^m)"; the constructor preallocates that many entries, which
    [Solve] then overwrites by index. *)
Definition Strategy_ctor (horizon xdim udim : nat) : Strategy :=
  mkStrategy (repeat (Zero udim xdim) horizon) (repeat (Zero udim 1) horizon).

(** The ways a call can end fatally: a failed glog [CHECK], or the
    exception of [std::map::at]. *)
Inductive Fatal : Type :=
| CheckLinearizationSize     (* CHECK_EQ(linearization.size(), num_time_steps_) *)
| CheckQuadraticizationSize  (* CHECK_EQ(quadraticization.size(), num_time_steps_) *)
| CheckOwnControlCost        (* CHECK(control_iter != quad[ii].control.end()) *)
| AtOutOfRange.              (* quad[ii].control.at(ii) *)

Inductive Result (T : Type) : Type :=
| Ok (x : T)
| Abort (f : Fatal).
Arguments Ok {T} x.
Arguments Abort {T} f.

Definition bind {T U} (r : Result T) (k : T -> Result U) : Result U :=
  match r with
  | Ok x => k x
  | Abort f => Abort f
  end.

Notation "x <- r ;; k" := (bind r (fun x => k))
  (at level 61, r at next level, right associativity).
Notation "' pat <- r ;; k" := (bind r (fun pat => k))
  (at level 61, pat pattern, r at next level, right associativity).

(** [for (i : l) body], threading the state and stopping at the first
    fatal error. *)
Fixpoint for_each {St} (l : list nat) (body : nat -> St -> Result St)
         (st : St) : Result St :=
  match l with
  | [] => Ok st
  | i :: l' => st' <- body i st ;; for_each l' body st'
  end.

(** [v[i] = x] on a [std::vector] (nothing happens out of range here;
    undefined behaviour in C++). *)
Fixpoint set_nth {T} (i : nat) (x : T) (l : list T) : list T :=
  match l, i with
  | [], _ => []
  | _ :: l', O => x :: l'
  | y :: l', S i' => y :: set_nth i' x l'
  end.

Definition empty_matrix : Matrix := Zero 0 0.
Definition empty_cost : SingleCostApproximation :=
  mkSingleCost empty_matrix empty_matrix.
Definition empty_quad : QuadraticCostApproximation :=
  mkQuadraticization empty_cost [].
Definition empty_strategy : Strategy := mkStrategy [] [].

(** The members of the solver object that [Solve] reads and writes. *)
Record LQFeedbackSolver : Type := mkSolver
  { dynamics_ : Dynamics;
    num_time_steps_ : nat;
    S_ : Matrix;
    X_ : Matrix;
    Y_ : Matrix;
    F_ : Matrix;
    beta_ : Matrix;
    Zs_ : list Matrix;
    zetas_ : list Matrix }.

(** Sum of the control dimensions of the players before [ii]: the value of
    [cumulative_udim_row] when the loop reaches player [ii]. *)
Definition cumulative_udim (d : Dynamics) (ii : nat) : nat :=
  fold_left (fun acc jj => acc + UDim d jj)%nat (seq 0 ii) 0%nat.

Definition TotalUDim (d : Dynamics) : nat := cumulative_udim d (NumPlayers d).

(** Modelled from the spec: the members [Ps_] and [alphas_] are declared
    and bound in lq_feedback_solver.h, which is not among the sources.
    They are the per-player pieces of the stacked solution
    [X = [P_1 ... P_N | alpha_1 ... alpha_N]]: player [ii]'s rows of [X_],
    the first [XDim] columns for [P_ii] and the last column for
    [alpha_ii]. *)
Definition Ps_ (d : Dynamics) (X : Matrix) (ii : nat) : Matrix :=
  block X (cumulative_udim d ii) 0 (UDim d ii) (XDim d).
Definition alphas_ (d : Dynamics) (X : Matrix) (ii : nat) : Matrix :=
  block X (cumulative_udim d ii) (XDim d) (UDim d ii) 1.

Section Solver.

(** [Smat.householderQr().solve(Ymat)]. *)
Variable householderQr_solve : Matrix -> Matrix -> Matrix.

Variable d : Dynamics.

Let N := NumPlayers d.

(** Lines 630-645: the body of the loop over [jj], writing block
    [(ii, jj)] of [S]. *)
Definition populate_S_block (lin : LinearDynamicsApproximation)
           (quad : list QuadraticCostApproximation) (ii : nat)
           (BiZi : Matrix) (cumulative_udim_row : nat)
           (jj : nat) (st : nat * Matrix) : Result (nat * Matrix) :=
  let '(cumulative_udim_col, Smat) := st in
  Smat' <- (if Nat.eqb ii jj then
              (* Does player ii's cost depend upon player jj's control? *)
              match find ii (control (nth ii quad empty_quad)) with
              | None => Abort CheckOwnControlCost
              | Some control_iter =>
                  Ok (set_block Smat cumulative_udim_row cumulative_udim_col
                        (UDim d ii) (UDim d jj)
                        (madd (mmul BiZi (nth ii (Bs lin) empty_matrix))
                              (hess control_iter)))
              end
            else
              Ok (set_block Smat cumulative_udim_row cumulative_udim_col
                    (UDim d ii) (UDim d jj)
                    (mmul BiZi (nth jj (Bs lin) empty_matrix)))) ;;
  Ok ((cumulative_udim_col + UDim d jj)%nat, Smat').

(** Lines 624-657: the body of the loop over [ii], writing row [ii] of the
    blocks of [S] and of [Y]. *)
Definition populate_row (lin : LinearDynamicsApproximation)
           (quad : list QuadraticCostApproximation)
           (Zs zetas : list Matrix)
           (ii : nat) (st : nat * Matrix * Matrix)
  : Result (nat * Matrix * Matrix) :=
  let '(cumulative_udim_row, Smat, Ymat) := st in
  let Bi := nth ii (Bs lin) empty_matrix in
  (* Intermediate variable to store B[ii]' * Z[ii]. *)
  let BiZi := mmul (transpose Bi) (nth ii Zs empty_matrix) in
  '(_, Smat') <- for_each (seq 0 N)
                   (populate_S_block lin quad ii BiZi cumulative_udim_row)
                   (0%nat, Smat) ;;
  (* Set appropriate blocks of Y. *)
  let Y1 := set_block Ymat cumulative_udim_row 0 (UDim d ii) (XDim d)
                      (mmul BiZi (A lin)) in
  own <- match find ii (control (nth ii quad empty_quad)) with
         | None => Abort AtOutOfRange
         | Some c => Ok c
         end ;;
  let Y2 := set_block Y1 cumulative_udim_row (XDim d) (UDim d ii) 1
              (madd (mmul (transpose Bi) (nth ii zetas empty_matrix))
                    (grad own)) in
  Ok ((cumulative_udim_row + UDim d ii)%nat, Smat', Y2).

(** Lines 623-657: populate [S_] and [Y_]. *)
Definition populate_S_Y (lin : LinearDynamicsApproximation)
           (quad : list QuadraticCostApproximation)
           (Zs zetas : list Matrix) (Smat Ymat : Matrix)
  : Result (nat * Matrix * Matrix) :=
  for_each (seq 0 N) (populate_row lin quad Zs zetas) (0%nat, Smat, Ymat).

(** Lines 664-667: store the gains of step [kk]. *)
Definition set_strategies (Xmat : Matrix) (kk : nat)
           (strategies : list Strategy) : list Strategy :=
  fold_left
    (fun strategies ii =>
       let s := nth ii strategies empty_strategy in
       set_nth ii (mkStrategy (set_nth kk (Ps_ d Xmat ii) (Ps s))
                              (set_nth kk (alphas_ d Xmat ii) (alphas s)))
               strategies)
    (seq 0 N) strategies.

(** Lines 670-675: [F_] and [beta_]. *)
Definition compute_F_beta (lin : LinearDynamicsApproximation) (Xmat : Matrix)
  : Matrix * Matrix :=
  fold_left
    (fun '(F, beta) ii =>
       let Bi := nth ii (Bs lin) empty_matrix in
       (msub F (mmul Bi (Ps_ d Xmat ii)), msub beta (mmul Bi (alphas_ d Xmat ii))))
    (seq 0 N) (A lin, Zero (XDim d) 1).

(** Lines 679-691 for one player: the new [(Zs_[ii], zetas_[ii])]. *)
Definition update_value (Xmat F beta : Matrix)
           (quad_ii : QuadraticCostApproximation) (Z zeta : Matrix)
  : Matrix * Matrix :=
  let zeta1 := madd (mmul (transpose F) (madd zeta (mmul Z beta)))
                    (grad (state quad_ii)) in
  let Z1 := madd (mmul (mmul (transpose F) Z) F) (hess (state quad_ii)) in
  fold_left
    (fun '(Zi, zetai) Rij_entry =>
       let jj := fst Rij_entry in
       let Rij := hess (snd Rij_entry) in
       let rij := grad (snd Rij_entry) in
       let zetai' :=
         madd zetai (mmul (transpose (Ps_ d Xmat jj))
                          (msub (mmul Rij (alphas_ d Xmat jj)) rij)) in
       let Zi' :=
         madd Zi (mmul (mmul (transpose (Ps_ d Xmat jj)) Rij) (Ps_ d Xmat jj)) in
       (Zi', zetai'))
    (control quad_ii) (Z1, zeta1).

(** Lines 678-692: update every player's value function. *)
Definition update_values (Xmat F beta : Matrix)
           (quad : list QuadraticCostApproximation)
           (Zs zetas : list Matrix) : list Matrix * list Matrix :=
  fold_left
    (fun '(Zs, zetas) ii =>
       let '(Zi, zetai) :=
         update_value Xmat F beta (nth ii quad empty_quad)
                      (nth ii Zs empty_matrix) (nth ii zetas empty_matrix) in
       (set_nth ii Zi Zs, set_nth ii zetai zetas))
    (seq 0 N) (Zs, zetas).

(** Lines 615-692: the body of the backward loop at time step [kk]. *)
Definition backward_step (linearization : list LinearDynamicsApproximation)
           (quadraticization : list (list QuadraticCostApproximation))
           (kk : nat) (st : LQFeedbackSolver * list Strategy)
  : Result (LQFeedbackSolver * list Strategy) :=
  let '(solver, strategies) := st in
  let lin := nth kk linearization (mkLinearization empty_matrix []) in
  let quad := nth kk quadraticization [] in
  '(_, Smat, Ymat) <- populate_S_Y lin quad (Zs_ solver) (zetas_ solver)
                             (S_ solver) (Y_ solver) ;;
  let Xmat := householderQr_solve Smat Ymat in
  let strategies' := set_strategies Xmat kk strategies in
  let '(F, beta) := compute_F_beta lin Xmat in
  let '(Zs, zetas) :=
    update_values Xmat F beta quad (Zs_ solver) (zetas_ solver) in
  Ok (mkSolver (dynamics_ solver) (num_time_steps_ solver)
               Smat Xmat Ymat F beta Zs zetas,
      strategies').

(** The time steps visited by
    [for (int kk = num_time_steps_ - 2; kk >= 0; kk--)]. *)
Definition backward_range (num_time_steps : nat) : list nat :=
  rev (seq 0 (num_time_steps - 1)).

(** Lines 600-609: the strategies and the value functions before the
    backward loop. *)
Definition initial_strategies (num_time_steps : nat) : list Strategy :=
  map (fun ii => Strategy_ctor num_time_steps (XDim d) (UDim d ii)) (seq 0 N).

Definition terminal_values
           (quadraticization : list (list QuadraticCostApproximation))
           (Zs zetas : list Matrix) : list Matrix * list Matrix :=
  fold_left
    (fun '(Zs, zetas) ii =>
       let back := last quadraticization [] in
       (set_nth ii (hess (state (nth ii back empty_quad))) Zs,
        set_nth ii (grad (state (nth ii back empty_quad))) zetas))
    (seq 0 N) (Zs, zetas).

(** The state of the solver and of [strategies] after the loop has visited
    the time steps [ks] (a prefix of [backward_range]). *)
Definition backward_pass (linearization : list LinearDynamicsApproximation)
           (quadraticization : list (list QuadraticCostApproximation))
           (ks : list nat) (st : LQFeedbackSolver * list Strategy)
  : Result (LQFeedbackSolver * list Strategy) :=
  for_each ks (backward_step linearization quadraticization) st.

Definition initial_state (solver : LQFeedbackSolver)
           (quadraticization : list (list QuadraticCostApproximation))
  : LQFeedbackSolver * list Strategy :=
  let '(Zs, zetas) :=
    terminal_values quadraticization (Zs_ solver) (zetas_ solver) in
  (mkSolver (dynamics_ solver) (num_time_steps_ solver)
            (S_ solver) (X_ solver) (Y_ solver) (F_ solver) (beta_ solver)
            Zs zetas,
   initial_strategies (num_time_steps_ solver)).

End Solver.

(** Does player [ii]'s cost carry its own control cost [R_ii]? *)
Definition own_cost_present (quad : list QuadraticCostApproximation)
           (ii : nat) : bool :=
  match find ii (control (nth ii quad empty_quad)) with
  | Some _ => true
  | None => false
  end.

(** Every player's cost carries its own [R_ii] at every time step the
    backward loop visits. *)
Definition own_costs_present (d : Dynamics) (num_time_steps : nat)
           (quadraticization : list (list QuadraticCostApproximation)) : bool :=
  forallb (fun kk => forallb (own_cost_present (nth kk quadraticization []))
                             (seq 0 (NumPlayers d)))
          (backward_range num_time_steps).

(** [LQFeedbackSolver::Solve]. *)
Definition Solve (householderQr_solve : Matrix -> Matrix -> Matrix)
           (solver : LQFeedbackSolver)
           (linearization : list LinearDynamicsApproximation)
           (quadraticization : list (list QuadraticCostApproximation))
  : Result (list Strategy) :=
  if negb (Nat.eqb (length linearization) (num_time_steps_ solver))
  then Abort CheckLinearizationSize
  else if negb (Nat.eqb (length quadraticization) (num_time_steps_ solver))
  then Abort CheckQuadraticizationSize
  else
    st <- backward_pass householderQr_solve (dynamics_ solver)
                        linearization quadraticization
                        (backward_range (num_time_steps_ solver))
                        (initial_state (dynamics_ solver) solver
                                       quadraticization) ;;
    Ok (snd st).

(** The time steps the backward loop has visited when it reaches step
    [kk]: [num_time_steps - 2], ..., [kk + 1]. *)
Definition steps_before (num_time_steps kk : nat) : list nat :=
  rev (seq (S kk) (num_time_steps - 1 - S kk)).

(** The value functions [(Zs_, zetas_)] with which [Solve] enters the
    backward step [kk], i.e. the [Z_i] from which it forms [S] there. *)
Definition values_at_step (householderQr_solve : Matrix -> Matrix -> Matrix)
           (solver : LQFeedbackSolver)
           (linearization : list LinearDynamicsApproximation)
           (quadraticization : list (list QuadraticCostApproximation))
           (kk : nat) : Result (list Matrix * list Matrix) :=
  st <- backward_pass householderQr_solve (dynamics_ solver)
                      linearization quadraticization
                      (steps_before (num_time_steps_ solver) kk)
                      (initial_state (dynamics_ solver) solver
                                     quadraticization) ;;
  Ok (Zs_ (fst st), zetas_ (fst st)).

(** There are [n] strategies, each with [horizon] gains [Ps] and [horizon]
    offsets [alphas]. *)
Definition strategies_sized (n horizon : nat) (strategies : list Strategy)
  : Prop :=
  length strategies = n /\
  Forall (fun s => length (Ps s) = horizon /\ length (alphas s) = horizon)
         strategies.

End LQ.

(* ===================================================================== *)
(** * Valid inputs of the LQ solver, and the step as the spec words it    *)
(* ===================================================================== *)

Module LQSpec.

Import Mat LQ.
Local Open Scope Qc_scope.

Section Valid.

Variable d : Dynamics.

(** [A] is [n x n] and there is one [n x m_j] matrix [B_j] per player. *)
Definition valid_linearization (lin : LinearDynamicsApproximation) : bool :=
  has_dimsb (XDim d) (XDim d) (A lin) &&
  Nat.eqb (length (Bs lin)) (NumPlayers d) &&
  forallb (fun jj => has_dimsb (XDim d) (UDim d jj)
                               (nth jj (Bs lin) empty_matrix))
          (seq 0 (NumPlayers d)).

Fixpoint distinct (l : list nat) : bool :=
  match l with
  | [] => true
  | x :: l' => negb (existsb (Nat.eqb x) l') && distinct l'
  end.

(** [Q] is [n x n], [l] is [n x 1], and the control costs are keyed by
    distinct players [j], with [R_j] of size [m_j x m_j] and [r_j] of size
    [m_j x 1]. *)
Definition valid_cost (q : QuadraticCostApproximation) : bool :=
  has_dimsb (XDim d) (XDim d) (hess (state q)) &&
  has_dimsb (XDim d) 1 (grad (state q)) &&
  forallb (fun e => Nat.ltb (fst e) (NumPlayers d) &&
                    has_dimsb (UDim d (fst e)) (UDim d (fst e)) (hess (snd e)) &&
                    has_dimsb (UDim d (fst e)) 1 (grad (snd e)))
          (control q) &&
  distinct (keys (control q)).

Definition valid_quadraticization (quad : list QuadraticCostApproximation)
  : bool :=
  Nat.eqb (length quad) (NumPlayers d) && forallb valid_cost quad.

(** One [n x n] matrix [Z_i] and one [n x 1] vector [zeta_i] per player. *)
Definition valid_values (Zs zetas : list Matrix) : bool :=
  Nat.eqb (length Zs) (NumPlayers d) &&
  Nat.eqb (length zetas) (NumPlayers d) &&
  forallb (has_dimsb (XDim d) (XDim d)) Zs &&
  forallb (has_dimsb (XDim d) 1) zetas.

(** Modelled from the spec: the constructor of [LQFeedbackSolver] is not
    among the sources.  It "pre-allocates S, Y, X at solver construction
    sized by total control dimension": [S] is square of that order, [Y] and
    [X] have [n + 1] columns, and there is one [Zs_] and one [zetas_] entry
    per player. *)
Definition valid_workspace (solver : LQFeedbackSolver) : bool :=
  Nat.eqb (rows (S_ solver)) (TotalUDim d) &&
  Nat.eqb (cols (S_ solver)) (TotalUDim d) &&
  Nat.eqb (rows (Y_ solver)) (TotalUDim d) &&
  Nat.eqb (cols (Y_ solver)) (XDim d + 1) &&
  Nat.eqb (length (Zs_ solver)) (NumPlayers d) &&
  Nat.eqb (length (zetas_ solver)) (NumPlayers d).

(** All Hessians of a time step are symmetric. *)
Definition symmetric_costs (quad : list QuadraticCostApproximation) : bool :=
  forallb (fun q => symmetricb (hess (state q)) &&
                    forallb (fun e => symmetricb (hess (snd e))) (control q))
          quad.

(** A problem over [K] time steps: [K] valid linearizations and [K]
    valid quadraticizations. *)
Definition valid_problem (K : nat)
           (linearization : list LinearDynamicsApproximation)
           (quadraticization : list (list QuadraticCostApproximation)) : bool :=
  Nat.eqb (length linearization) K &&
  Nat.eqb (length quadraticization) K &&
  forallb valid_linearization linearization &&
  forallb valid_quadraticization quadraticization.

End Valid.

(** ** One step of the recursion, in the spec's notation *)

Section Step.

Variable d : Dynamics.
Variable lin : LinearDynamicsApproximation.
Variable quad : list QuadraticCostApproximation.
(** The value functions [(Z_i, zeta_i)] entering the step. *)
Variables Zs zetas : list Matrix.

Definition B (j : nat) : Matrix := nth j (Bs lin) empty_matrix.
Definition Z (i : nat) : Matrix := nth i Zs empty_matrix.
Definition zeta (i : nat) : Matrix := nth i zetas empty_matrix.
Definition Q (i : nat) : Matrix := hess (state (nth i quad empty_quad)).
Definition l (i : nat) : Matrix := grad (state (nth i quad empty_quad)).
Definition R (i j : nat) : Matrix :=
  match find j (control (nth i quad empty_quad)) with
  | Some c => hess c
  | None => empty_matrix
  end.
Definition r (i j : nat) : Matrix :=
  match find j (control (nth i quad empty_quad)) with
  | Some c => grad c
  | None => empty_matrix
  end.
(** The players [j] for which player [i]'s cost has an [(R_ij, r_ij)]. *)
Definition players_of (i : nat) : list nat :=
  keys (control (nth i quad empty_quad)).

(** [S_ii = B_i^T Z_i B_i + R_ii] and [S_ij = B_i^T Z_i B_j] for [i <> j]. *)
Definition S_block (i j : nat) : Matrix :=
  if Nat.eqb i j
  then madd (mmul (mmul (transpose (B i)) (Z i)) (B i)) (R i i)
  else mmul (mmul (transpose (B i)) (Z i)) (B j).

(** [Y_i[:, 0:n] = B_i^T Z_i A] and [Y_i[:, n] = B_i^T zeta_i + r_ii]. *)
Definition Y_block_state (i : nat) : Matrix :=
  mmul (mmul (transpose (B i)) (Z i)) (A lin).
Definition Y_block_last (i : nat) : Matrix :=
  madd (mmul (transpose (B i)) (zeta i)) (r i i).

(** The gains [P_j], [alpha_j] extracted at this step. *)
Variables P alpha : nat -> Matrix.

(** [F = A - sum_j B_j P_j] and [beta = - sum_j B_j alpha_j]. *)
Definition F : Matrix :=
  msub (A lin)
       (msum (XDim d) (XDim d)
             (map (fun j => mmul (B j) (P j)) (seq 0 (NumPlayers d)))).
Definition beta : Matrix :=
  mscale (- (1))
         (msum (XDim d) 1
               (map (fun j => mmul (B j) (alpha j)) (seq 0 (NumPlayers d)))).

(** [zeta_i <- F^T (zeta_i + Z_i beta) + l_i
               + sum_j P_j^T (R_ij alpha_j - r_ij)]. *)
Definition zeta_update (i : nat) : Matrix :=
  madd (madd (mmul (transpose F) (madd (zeta i) (mmul (Z i) beta))) (l i))
       (msum (XDim d) 1
             (map (fun j => mmul (transpose (P j))
                                 (msub (mmul (R i j) (alpha j)) (r i j)))
                  (players_of i))).

(** [Z_i <- F^T Z_i F + Q_i + sum_j P_j^T R_ij P_j]. *)
Definition Z_update (i : nat) : Matrix :=
  madd (madd (mmul (transpose F) (mmul (Z i) F)) (Q i))
       (msum (XDim d) (XDim d)
             (map (fun j => mmul (transpose (P j)) (mmul (R i j) (P j)))
                  (players_of i))).

End Step.

End LQSpec.

(* ===================================================================== *)
(** * The Lyapunov-iteration test (test_solve_lq_game.cpp)                *)
(* ===================================================================== *)

Module LyapunovTest.

Import Mat LQ.
Local Open Scope Qc_scope.

Section Test.

Variable householderQr_solve : Matrix -> Matrix -> Matrix.

Definition kNumIterations : nat := 100.

(** One pass of the loop of [SolveLyapunovIterations] (lines 90-103), on
    the state [(P1, P2, Z1, Z2)]. *)
Definition lyapunov_iteration (A B1 B2 Q1 Q2 R11 R12 R21 R22 : Matrix)
           (st : Matrix * Matrix * Matrix * Matrix)
  : Matrix * Matrix * Matrix * Matrix :=
  let '(P1, P2, Z1, Z2) := st in
  let old_P1 := P1 in
  let old_P2 := P2 in
  let P1 := householderQr_solve
              (madd R11 (mmul (mmul (transpose B1) Z1) B1))
              (mmul (mmul (transpose B1) Z1) (msub A (mmul B2 old_P2))) in
  let P2 := householderQr_solve
              (madd R22 (mmul (mmul (transpose B2) Z2) B2))
              (mmul (mmul (transpose B2) Z2) (msub A (mmul B1 old_P1))) in
  let F := msub (msub A (mmul B1 P1)) (mmul B2 P2) in
  let Z1 := madd (madd (madd (mmul (mmul (transpose F) Z1) F)
                             (mmul (mmul (transpose P1) R11) P1))
                       (mmul (mmul (transpose P2) R12) P2)) Q1 in
  let Z2 := madd (madd (madd (mmul (mmul (transpose F) Z2) F)
                             (mmul (mmul (transpose P1) R21) P1))
                       (mmul (mmul (transpose P2) R22) P2)) Q2 in
  (P1, P2, Z1, Z2).

(** Lines 77-87: the state before the loop. *)
Definition lyapunov_init (A B1 B2 Q1 Q2 R11 R22 : Matrix)
  : Matrix * Matrix * Matrix * Matrix :=
  let Z1 := Q1 in
  let Z2 := Q2 in
  let P1 := householderQr_solve
              (madd R11 (mmul (mmul (transpose B1) Z1) B1))
              (mmul (mmul (transpose B1) Z1) A) in
  let P2 := householderQr_solve
              (madd R22 (mmul (mmul (transpose B2) Z2) B2))
              (mmul (mmul (transpose B2) Z2) A) in
  (P1, P2, Z1, Z2).

Fixpoint iterate {T} (n : nat) (f : T -> T) (x : T) : T :=
  match n with
  | O => x
  | S n' => iterate n' f (f x)
  end.

(** [SolveLyapunovIterations]: the final [(P1, P2)]. *)
Definition SolveLyapunovIterations (A B1 B2 Q1 Q2 R11 R12 R21 R22 : Matrix)
  : Matrix * Matrix :=
  let '(P1, P2, _, _) :=
    iterate kNumIterations
            (lyapunov_iteration A B1 B2 Q1 Q2 R11 R12 R21 R22)
            (lyapunov_init A B1 B2 Q1 Q2 R11 R22) in
  (P1, P2).

End Test.

(** ** The fixture [SolveLQGameTest] *)

Definition q (n : Z) (m : positive) : Qc := Q2Qc (n # m).

Definition kTimeStep : Qc := q 1 10.
Definition kNumTimeSteps : nat := 100.

(** [TwoPlayerPointMass1D]: two players, one control each, two states. *)
Definition dynamics : Dynamics := mkDynamics 2 2 (fun _ => 1%nat).

(** The continuous-time [A_], [B1_], [B2_] of the fixture. *)
Definition A_ : Matrix := mkMatrix 2 2 [[0; 1]; [0; 0]].
Definition B1_ : Matrix := mkMatrix 2 1 [[q 5 100]; [1]].
Definition B2_ : Matrix := mkMatrix 2 1 [[q 32 1000]; [q 11 100]].

(** Modelled from the spec: [TwoPlayerPointMass1D::Linearize] starts from
    a [LinearDynamicsApproximation] whose constructor is not among the
    sources; the linearization is "already discretized at dt", so it
    starts from the identity, to which the fixture adds
    [A_ * time_step_]. *)
Definition Linearize : LinearDynamicsApproximation :=
  mkLinearization (madd (Identity 2 2) (mscale kTimeStep A_))
                  [mscale kTimeStep B1_; mscale kTimeStep B2_].

Definition Q1 : Matrix := Identity 2 2.
Definition Q2 : Matrix := mscale (q 2 1) Q1.
Definition l1 : Matrix := Zero 2 1.
Definition l2 : Matrix := mscale (- (1)) l1.
Definition R11 : Matrix := Identity 1 1.
Definition R12 : Matrix := mscale (q 1 2) (Identity 1 1).
Definition R21 : Matrix := mscale (q 1 4) (Identity 1 1).
Definition R22 : Matrix := Identity 1 1.

(** [quadraticizations_]: per player, the state cost [(Q, l)] and the
    control costs [R_ij] (with zero linear terms). *)
Definition quadraticizations : list QuadraticCostApproximation :=
  [ mkQuadraticization (mkSingleCost Q1 l1)
      [(0%nat, mkSingleCost R11 (Zero 1 1)); (1%nat, mkSingleCost R12 (Zero 1 1))];
    mkQuadraticization (mkSingleCost Q2 l2)
      [(0%nat, mkSingleCost R21 (Zero 1 1)); (1%nat, mkSingleCost R22 (Zero 1 1))] ].

(** A solver object for the fixture's dynamics over [K] time steps, with
    workspaces of the sizes the solver preallocates. *)
Definition solver_for (K : nat) : LQFeedbackSolver :=
  mkSolver dynamics K (Zero 2 2) (Zero 2 3) (Zero 2 3) (Zero 2 2) (Zero 2 1)
           [Zero 2 2; Zero 2 2] [Zero 2 1; Zero 2 1].

(** Modelled from the spec: [lq_solution_] of the fixture, over [K] time
    steps.  The fixture obtains it from [SolveLQGame], which is not among
    the sources; the LQ solver of the spec is [LQFeedbackSolver::Solve],
    called here on a solver object for the fixture's dynamics. *)
Definition lq_solution (solve : Matrix -> Matrix -> Matrix) (K : nat)
  : Result (list Strategy) :=
  Solve solve (solver_for K) (repeat Linearize K) (repeat quadraticizations K).

End LyapunovTest.

(* ===================================================================== *)
(** * The receding-horizon driver (receding_horizon_simulator.cpp)        *)
(* ===================================================================== *)

Module RecedingHorizon.

Local Open Scope Qc_scope.

(** [Time]: seconds, as an exact rational. *)
Definition Time : Type := Qc.

Definition Time_ltb (a b : Time) : bool :=
  match a ?= b with Lt => true | _ => false end.
Definition Time_leb (a b : Time) : bool :=
  match a ?= b with Gt => false | _ => true end.

(** [constexpr Time kExtraTime = 0.1]. *)
Definition kExtraTime : Time := Q2Qc (1 # 10).

Section Driver.

(** The collaborators of the driver are known here only by their
    interfaces: the state vector, the plan held by the splicer, the log
    returned by a solve, the problem object and the splicer object. *)
Variables State OperatingPoint Strategies SolverLog Problem SolutionSplicer
  : Type.

Record Collaborators : Type := mkCollaborators
  { (** [problem->Solve()] ([None]) and [problem->Solve(planner_runtime)]. *)
    Problem_Solve : option Time -> Problem -> SolverLog * Problem;
    SetUpNextRecedingHorizon : State -> Time -> Time -> Problem -> Problem;
    OverwriteSolution : OperatingPoint -> Strategies -> Problem -> Problem;
    InitialState : Problem -> State;
    (** [dynamics.Integrate(t0, t1, x, operating_point, strategies)]. *)
    Integrate : Time -> Time -> State -> OperatingPoint -> Strategies -> State;
    SolutionSplicer_ctor : SolverLog -> SolutionSplicer;
    Splice : SolverLog -> Time -> SolutionSplicer -> SolutionSplicer;
    CurrentOperatingPoint : SolutionSplicer -> OperatingPoint;
    CurrentStrategies : SolutionSplicer -> Strategies;
    (** [operating_point.t0]. *)
    t0 : OperatingPoint -> Time;
    (** The wall clock: [clock_now n] is what the [n]-th call of
        [clock::now()] returns, in seconds. *)
    clock_now : nat -> Time }.

Variable env : Collaborators.

(** The calls the driver makes on its collaborators, in the order made. *)
Inductive Event : Type :=
| EvSetUpNextRecedingHorizon (x : State) (t planner_runtime : Time)
| EvSolve (deadline : option Time)
| EvIntegrate (t_from t_to : Time) (x : State)
              (op : OperatingPoint) (strategies : Strategies)
| EvSplice (log : SolverLog) (t : Time)
| EvOverwriteSolution (op : OperatingPoint) (strategies : Strategies).

(** The local variables of [RecedingHorizonSimulator], the problem object,
    the number of clock readings taken so far and the calls made so far. *)
Record Locals : Type := mkLocals
  { logs : list SolverLog;
    problem : Problem;
    splicer : SolutionSplicer;
    x : State;
    t : Time;
    elapsed_time : Time;
    clock_reads : nat;
    trace : list Event }.

(** How one pass of the loop body ends. *)
Inductive Step : Type :=
| Continue (st : Locals)
| CheckLeFailed (st : Locals).   (* CHECK_LE(elapsed_time, planner_runtime) *)

(** Lines 93-122: the body of the while loop. *)
Definition loop_body (planner_runtime : Time) (st : Locals) : Step :=
  (* Set up next receding horizon problem and solve. *)
  let problem1 :=
    SetUpNextRecedingHorizon env (x st) (t st) planner_runtime (problem st) in
  let solver_call_time := clock_now env (clock_reads st) in
  let '(log, problem2) := Problem_Solve env (Some planner_runtime) problem1 in
  let logs' := logs st ++ [log] in
  let elapsed_time' := clock_now env (S (clock_reads st)) - solver_call_time in
  let trace1 := trace st ++
                [EvSetUpNextRecedingHorizon (x st) (t st) planner_runtime;
                 EvSolve (Some planner_runtime)] in
  if negb (Time_leb elapsed_time' planner_runtime) then
    CheckLeFailed (mkLocals logs' problem2 (splicer st) (x st) (t st)
                            elapsed_time' (S (S (clock_reads st))) trace1)
  else
    (* Integrate dynamics forward to account for solve time. *)
    let op0 := CurrentOperatingPoint env (splicer st) in
    let strategies0 := CurrentStrategies env (splicer st) in
    let x1 :=
      Integrate env (t st) (t st + elapsed_time') (x st) op0 strategies0 in
    let t1 := t st + elapsed_time' in
    (* Add new solution to splicer. *)
    let splicer' := Splice env (last logs' log) t1 (splicer st) in
    (* Overwrite problem with spliced solution. *)
    let op1 := CurrentOperatingPoint env splicer' in
    let strategies1 := CurrentStrategies env splicer' in
    let problem3 := OverwriteSolution env op1 strategies1 problem2 in
    (* Integrate a little more. *)
    let x2 := Integrate env t1 (t1 + kExtraTime) x1 op1 strategies1 in
    let t2 := t1 + kExtraTime in
    Continue (mkLocals logs' problem3 splicer' x2 t2 elapsed_time'
                       (S (S (clock_reads st)))
                       (trace1 ++
                        [EvIntegrate (t st) (t st + elapsed_time') (x st)
                                     op0 strategies0;
                         EvSplice (last logs' log) t1;
                         EvOverwriteSolution op1 strategies1;
                         EvIntegrate t1 (t1 + kExtraTime) x1 op1 strategies1])).

(** How a run of the driver ends: it returns [logs], it dies on the
    deadline check, or the model runs out of fuel. *)
Inductive Outcome : Type :=
| Returned (st : Locals)
| Died (st : Locals)
| OutOfFuel.

(** Lines 92-123: [while (t < final_time) { ... }], at most [fuel] passes. *)
Fixpoint while_loop (fuel : nat) (final_time planner_runtime : Time)
         (st : Locals) : Outcome :=
  if Time_ltb (t st) final_time then
    match fuel with
    | O => OutOfFuel
    | S fuel' =>
        match loop_body planner_runtime st with
        | Continue st' => while_loop fuel' final_time planner_runtime st'
        | CheckLeFailed st' => Died st'
        end
    end
  else Returned st.

(** Lines 70-91: everything before the loop. *)
Definition before_loop (problem0 : Problem) : Locals :=
  let solver_call_time := clock_now env 0 in
  let '(log, problem1) := Problem_Solve env None problem0 in
  let elapsed_time0 := clock_now env 1 - solver_call_time in
  let splicer0 := SolutionSplicer_ctor env log in
  mkLocals [log] problem1 splicer0 (InitialState env problem1)
           (t0 env (CurrentOperatingPoint env splicer0)) elapsed_time0 2
           [EvSolve None].

(** [RecedingHorizonSimulator(final_time, planner_runtime, problem)]. *)
Definition RecedingHorizonSimulator (fuel : nat)
           (final_time planner_runtime : Time) (problem0 : Problem)
  : Outcome :=
  while_loop fuel final_time planner_runtime (before_loop problem0).

(** The wall time measured around the solve of a pass entered in state
    [st]. *)
Definition measured (st : Locals) : Time :=
  clock_now env (S (clock_reads st)) - clock_now env (clock_reads st).

(** The deadline was met by every solve made inside the loop so far: the
    [n]-th solve ([n >= 1]; the solve before the loop is number 0) is
    timed by the clock readings [2n] and [2n + 1]. *)
Definition deadlines_met (planner_runtime : Time) (st : Locals) : Prop :=
  clock_reads st = (2 * length (logs st))%nat /\
  (1 <= length (logs st))%nat /\
  forall n, (1 <= n < length (logs st))%nat ->
            clock_now env (2 * n + 1) - clock_now env (2 * n)
            <= planner_runtime.

End Driver.

Arguments OutOfFuel {State OperatingPoint Strategies SolverLog Problem
                     SolutionSplicer}.
Arguments EvSetUpNextRecedingHorizon {State OperatingPoint Strategies
                                      SolverLog} x t planner_runtime.
Arguments EvSolve {State OperatingPoint Strategies SolverLog} deadline.
Arguments EvIntegrate {State OperatingPoint Strategies SolverLog}
  t_from t_to x op strategies.
Arguments EvSplice {State OperatingPoint Strategies SolverLog} log t.
Arguments EvOverwriteSolution {State OperatingPoint Strategies SolverLog}
  op strategies.

(** An instance for evaluation: the state is a position on a line, which
    the integrator moves at unit speed; a plan is the time it was made
    for; successive readings of the clock are 50 ms apart. *)
Definition toy_clock (n : nat) : Time := Q2Qc (Z.of_nat n # 20).

Definition toy : Collaborators Qc Time unit Time nat Time :=
  mkCollaborators
    (fun _ problem => (Q2Qc (Z.of_nat problem # 1), S problem))
    (fun _ _ _ problem => problem)
    (fun _ _ problem => problem)
    (fun _ => 0)
    (fun t_from t_to x _ _ => x + (t_to - t_from))
    (fun log => log)
    (fun _ t _ => t)
    (fun splicer => splicer)
    (fun _ => tt)
    (fun op => op)
    toy_clock.

End RecedingHorizon.

(* ===================================================================== *)
(** * The GUI sliders (gui/control_sliders.h)                             *)
(* ===================================================================== *)

Module Sliders.

Local Open Scope Z_scope.

(** What the accessors ask of a [SolverLog]. *)
Record SolverLog : Type := mkSolverLog
  { InitialTime : Qc;
    FinalTime : Qc;
    NumIterates : nat }.

Record ControlSliders : Type := mkControlSliders
  { interpolation_time_ : Qc;
    solver_iterate_ : Z;
    log_index_ : Z;
    logs_ : list SolverLog }.

(** The constructor: all sliders at zero. *)
Definition ControlSliders_ctor (logs : list SolverLog) : ControlSliders :=
  mkControlSliders (Q2Qc 0) 0 0 logs.

(** [n - 1] computed in [size_t] (64 bits, wrapping). *)
Definition size_t_pred (n : nat) : Z := (Z.of_nat n - 1) mod 2 ^ 64.

(** [static_cast<int>(z)] of an unsigned value: reduction modulo 2^32 into
    the range of a 32-bit [int]. *)
Definition static_cast_int (z : Z) : Z :=
  let r := z mod 2 ^ 32 in
  if r <? 2 ^ 31 then r else r - 2 ^ 32.

(** [std::min(a, b)] is [(b < a) ? b : a]; [std::max(a, b)] is
    [(a < b) ? b : a]. *)
Definition min_int (a b : Z) : Z := if b <? a then b else a.
Definition min_Time (a b : Qc) : Qc :=
  if RecedingHorizon.Time_ltb b a then b else a.
Definition max_Time (a b : Qc) : Qc :=
  if RecedingHorizon.Time_ltb a b then b else a.

Definition LogIndex (s : ControlSliders) : Z :=
  min_int (log_index_ s) (static_cast_int (size_t_pred (length (logs_ s)))).

(** [logs_[i]] for an [int] index: [None] where the index is outside the
    vector (undefined behaviour in C++). *)
Definition logs_at (s : ControlSliders) (i : Z) : option SolverLog :=
  if i <? 0 then None else nth_error (logs_ s) (Z.to_nat i).

Definition SolverIterate (s : ControlSliders) : option Z :=
  match logs_at s (LogIndex s) with
  | Some log =>
      Some (min_int (solver_iterate_ s)
                    (static_cast_int (size_t_pred (NumIterates log))))
  | None => None
  end.

Definition InterpolationTime (s : ControlSliders) : option Qc :=
  match logs_at s (LogIndex s) with
  | Some log =>
      Some (max_Time (min_Time (interpolation_time_ s) (FinalTime log))
                     (InitialTime log))
  | None => None
  end.

End Sliders.

(* ===================================================================== *)
(** * Concrete inputs used to evaluate the solver                         *)
(* ===================================================================== *)

Module Examples.

Import Mat LQ.
Local Open Scope Qc_scope.

(** The fixture's costs with player 0's own control cost [R_00] removed. *)
Definition quadraticizations_without_R00 : list QuadraticCostApproximation :=
  [ mkQuadraticization (mkSingleCost LyapunovTest.Q1 LyapunovTest.l1)
      [(1%nat, mkSingleCost LyapunovTest.R12 (Zero 1 1))];
    mkQuadraticization (mkSingleCost LyapunovTest.Q2 LyapunovTest.l2)
      [(0%nat, mkSingleCost LyapunovTest.R21 (Zero 1 1));
       (1%nat, mkSingleCost LyapunovTest.R22 (Zero 1 1))] ].

(** A two-player problem whose Hessians are symmetric except for the
    cross term [R_01] of player 0 on player 1's two controls. *)
Definition cross_dynamics : Dynamics :=
  mkDynamics 2 2 (fun ii => if Nat.eqb ii 0 then 1%nat else 2%nat).

Definition cross_linearization : LinearDynamicsApproximation :=
  mkLinearization (Identity 2 2)
                  [mkMatrix 2 1 [[1]; [0]]; Identity 2 2].

Definition cross_quadraticization : list QuadraticCostApproximation :=
  [ mkQuadraticization (mkSingleCost (Identity 2 2) (Zero 2 1))
      [(0%nat, mkSingleCost (Identity 1 1) (Zero 1 1));
       (1%nat, mkSingleCost (mkMatrix 2 2 [[0; 1]; [0; 0]]) (Zero 2 1))];
    mkQuadraticization (mkSingleCost (Identity 2 2) (Zero 2 1))
      [(1%nat, mkSingleCost (Identity 2 2) (Zero 2 1))] ].

Definition cross_solver (K : nat) : LQFeedbackSolver :=
  mkSolver cross_dynamics K (Zero 3 3) (Zero 3 3) (Zero 3 3) (Zero 2 2)
           (Zero 2 1) [Zero 2 2; Zero 2 2] [Zero 2 1; Zero 2 1].

(** The fixture over three time steps, as the backward loop finds it. *)
Definition fixture_linearization : list LinearDynamicsApproximation :=
  repeat LyapunovTest.Linearize 3.
Definition fixture_quadraticization : list (list QuadraticCostApproximation) :=
  repeat LyapunovTest.quadraticizations 3.
Definition fixture_state : LQFeedbackSolver * list Strategy :=
  initial_state LyapunovTest.dynamics (LyapunovTest.solver_for 3)
                fixture_quadraticization.

End Examples.

(* ===================================================================== *)
(** * Two players, two states, one control each: the recursions in
      coordinates, over any scalars

    On a game with two players, two states and one control each, a
    backward step of the solver and a Lyapunov iteration are rational
    functions of a few scalars.  They are written here over an arbitrary
    set of scalar operations: over [Qc] they are what the solver and the
    test compute (shown among the facts below), over intervals they
    enclose it.                                                           *)
(* ===================================================================== *)

Module Coordinates.

(** The scalar operations the recursions use. *)
Record Ops (T : Type) : Type := mkOps
  { add : T -> T -> T;
    sub : T -> T -> T;
    mul : T -> T -> T;
    div : T -> T -> T }.

(** A 2 x 2 matrix and a vector of length 2, by their coefficients. *)
Record M2 (T : Type) : Type := mkM2 { e00 : T; e01 : T; e10 : T; e11 : T }.
Record V2 (T : Type) : Type := mkV2 { v0 : T; v1 : T }.

(** A time-invariant two-player LQ game: [A], [B_1], [B_2], [Q_1], [Q_2],
    and the scalars [R_11], [R_12], [R_21], [R_22]. *)
Record Game (T : Type) : Type := mkGame
  { gA : M2 T;
    gB1 : V2 T;
    gB2 : V2 T;
    gQ1 : M2 T;
    gQ2 : M2 T;
    gR11 : T;
    gR12 : T;
    gR21 : T;
    gR22 : T }.

Section Formulas.

Variable T : Type.
Variable O : Ops T.
Variable g : Game T.

Infix "+" := (add O).
Infix "-" := (sub O).
Infix "*" := (mul O).
Infix "/" := (div O).

(** [u . v], [B^T Z] and [u^T A]. *)
Definition dot (u v : V2 T) : T := v0 u * v0 v + v1 u * v1 v.
Definition BtZ (B : V2 T) (Z : M2 T) : V2 T :=
  mkV2 (v0 B * e00 Z + v1 B * e10 Z) (v0 B * e01 Z + v1 B * e11 Z).
Definition rowA (u : V2 T) (M : M2 T) : V2 T :=
  mkV2 (v0 u * e00 M + v1 u * e10 M) (v0 u * e01 M + v1 u * e11 M).

(** The coupled system of one backward step: the coefficients of [S] and
    of the first two columns of [Y]. *)
Record System : Type := mkSystem
  { s00 : T; s01 : T; s10 : T; s11 : T; y0 : V2 T; y1 : V2 T }.

Definition system (Z1 Z2 : M2 T) : System :=
  mkSystem (dot (BtZ (gB1 g) Z1) (gB1 g) + gR11 g)
           (dot (BtZ (gB1 g) Z1) (gB2 g))
           (dot (BtZ (gB2 g) Z2) (gB1 g))
           (dot (BtZ (gB2 g) Z2) (gB2 g) + gR22 g)
           (rowA (BtZ (gB1 g) Z1) (gA g))
           (rowA (BtZ (gB2 g) Z2) (gA g)).

Definition determinant (s : System) : T := s00 s * s11 s - s01 s * s10 s.

(** The gains solving [S [P_1; P_2] = Y], by Cramer's rule. *)
Definition gains (s : System) : V2 T * V2 T :=
  let dt := determinant s in
  (mkV2 ((s11 s * v0 (y0 s) - s01 s * v0 (y1 s)) / dt)
        ((s11 s * v1 (y0 s) - s01 s * v1 (y1 s)) / dt),
   mkV2 ((s00 s * v0 (y1 s) - s10 s * v0 (y0 s)) / dt)
        ((s00 s * v1 (y1 s) - s10 s * v1 (y0 s)) / dt)).

(** [F = A - B_1 P_1 - B_2 P_2]. *)
Definition closed_loop (P1 P2 : V2 T) : M2 T :=
  mkM2 (e00 (gA g) - v0 (gB1 g) * v0 P1 - v0 (gB2 g) * v0 P2)
       (e01 (gA g) - v0 (gB1 g) * v1 P1 - v0 (gB2 g) * v1 P2)
       (e10 (gA g) - v1 (gB1 g) * v0 P1 - v1 (gB2 g) * v0 P2)
       (e11 (gA g) - v1 (gB1 g) * v1 P1 - v1 (gB2 g) * v1 P2).

(** [F^T Z F]. *)
Definition congruence (F Z : M2 T) : M2 T :=
  let zf := mkM2 (e00 Z * e00 F + e01 Z * e10 F) (e00 Z * e01 F + e01 Z * e11 F)
                 (e10 Z * e00 F + e11 Z * e10 F) (e10 Z * e01 F + e11 Z * e11 F) in
  mkM2 (e00 F * e00 zf + e10 F * e10 zf) (e00 F * e01 zf + e10 F * e11 zf)
       (e01 F * e00 zf + e11 F * e10 zf) (e01 F * e01 zf + e11 F * e11 zf).

(** [F^T Z F + Q + r1 P_1^T P_1 + r2 P_2^T P_2]. *)
Definition value (F Z Q : M2 T) (r1 r2 : T) (P1 P2 : V2 T) : M2 T :=
  let c := congruence F Z in
  mkM2 (e00 c + e00 Q + r1 * (v0 P1 * v0 P1) + r2 * (v0 P2 * v0 P2))
       (e01 c + e01 Q + r1 * (v0 P1 * v1 P1) + r2 * (v0 P2 * v1 P2))
       (e10 c + e10 Q + r1 * (v1 P1 * v0 P1) + r2 * (v1 P2 * v0 P2))
       (e11 c + e11 Q + r1 * (v1 P1 * v1 P1) + r2 * (v1 P2 * v1 P2)).

Definition values (Z1 Z2 : M2 T) (P1 P2 : V2 T) : M2 T * M2 T :=
  let F := closed_loop P1 P2 in
  (value F Z1 (gQ1 g) (gR11 g) (gR12 g) P1 P2,
   value F Z2 (gQ2 g) (gR21 g) (gR22 g) P1 P2).

(** One backward step of the LQ solver on [(Z_1, Z_2)]. *)
Definition backward (Z : M2 T * M2 T) : M2 T * M2 T :=
  let '(P1, P2) := gains (system (fst Z) (snd Z)) in
  values (fst Z) (snd Z) P1 P2.

(** The gains of one Lyapunov iteration: each player solves its own scalar
    equation against the other player's previous gain. *)
Definition own_pivot (B : V2 T) (Z : M2 T) (r : T) : T := dot (BtZ B Z) B + r.

Definition against (Bother Pother : V2 T) : M2 T :=
  mkM2 (e00 (gA g) - v0 Bother * v0 Pother) (e01 (gA g) - v0 Bother * v1 Pother)
       (e10 (gA g) - v1 Bother * v0 Pother) (e11 (gA g) - v1 Bother * v1 Pother).

Definition own_gain (B : V2 T) (Z : M2 T) (r : T) (M : M2 T) : V2 T :=
  let u := rowA (BtZ B Z) M in
  let s := own_pivot B Z r in
  mkV2 (v0 u / s) (v1 u / s).

(** One Lyapunov iteration on [(P_1, P_2, Z_1, Z_2)]. *)
Definition lyapunov (st : V2 T * V2 T * M2 T * M2 T)
  : V2 T * V2 T * M2 T * M2 T :=
  let '(old_P1, old_P2, Z1, Z2) := st in
  let P1 := own_gain (gB1 g) Z1 (gR11 g) (against (gB2 g) old_P2) in
  let P2 := own_gain (gB2 g) Z2 (gR22 g) (against (gB1 g) old_P1) in
  let '(Z1', Z2') := values Z1 Z2 P1 P2 in
  (P1, P2, Z1', Z2').

Definition lyapunov_start : V2 T * V2 T * M2 T * M2 T :=
  (own_gain (gB1 g) (gQ1 g) (gR11 g) (gA g),
   own_gain (gB2 g) (gQ2 g) (gR22 g) (gA g),
   gQ1 g, gQ2 g).

End Formulas.

End Coordinates.


(* ===================================================================== *)
(** * Interval arithmetic on rationals, rounded outwards                  *)
(* ===================================================================== *)

Module Interval.

Import Coordinates.
Local Open Scope Z_scope.

(** Bounds are integers counting multiples of [2^-96]; they are held as
    [BigZ] numbers, which evaluate on machine integers. *)
Definition scale : positive := (2 ^ 96)%positive.
Definition scaleB : BigZ.t := BigZ.of_Z (Zpos scale).
Definition scale2B : BigZ.t := BigZ.of_Z (Zpos (scale * scale)).

(** The rational an integer bound stands for. *)
Definition val (z : Z) : Q := z # scale.

Record Itv : Type := mkItv { lo : BigZ.t; hi : BigZ.t }.

(** [x] lies in [I]. *)
Definition contains (I : Itv) (x : Qc) : Prop :=
  (val (BigZ.to_Z (lo I)) <= x)%Q /\ (x <= val (BigZ.to_Z (hi I)))%Q.

(** The quotient by [2^96], rounded down and rounded up. *)
Definition floor_scale (z : BigZ.t) : BigZ.t := BigZ.div z scaleB.
Definition ceil_scale (z : BigZ.t) : BigZ.t :=
  BigZ.opp (BigZ.div (BigZ.opp z) scaleB).

Definition iadd (I J : Itv) : Itv :=
  mkItv (BigZ.add (lo I) (lo J)) (BigZ.add (hi I) (hi J)).
Definition isub (I J : Itv) : Itv :=
  mkItv (BigZ.sub (lo I) (hi J)) (BigZ.sub (hi I) (lo J)).
Definition imul (I J : Itv) : Itv :=
  let p1 := BigZ.mul (lo I) (lo J) in
  let p2 := BigZ.mul (lo I) (hi J) in
  let p3 := BigZ.mul (hi I) (lo J) in
  let p4 := BigZ.mul (hi I) (hi J) in
  mkItv (floor_scale (BigZ.min (BigZ.min p1 p2) (BigZ.min p3 p4)))
        (ceil_scale (BigZ.max (BigZ.max p1 p2) (BigZ.max p3 p4))).
(** The reciprocal and the quotient are meant for a positive divisor. *)
Definition iinv (J : Itv) : Itv :=
  mkItv (BigZ.div scale2B (hi J))
        (BigZ.opp (BigZ.div (BigZ.opp scale2B) (lo J))).
Definition idiv (I J : Itv) : Itv := imul I (iinv J).

Definition positive_itv (I : Itv) : bool := BigZ.ltb BigZ.zero (lo I).

Definition ops : Ops Itv := mkOps iadd isub imul idiv.

(** The narrowest interval around a rational. *)
Definition enclose (q : Q) : Itv :=
  mkItv (BigZ.of_Z (Qfloor (q * inject_Z (Zpos scale))))
        (BigZ.of_Z (Qceiling (q * inject_Z (Zpos scale)))).

(** All points of [I] and of [J] are less than [tol] apart. *)
Definition within (tol : Q) (I J : Itv) : bool :=
  let bound := BigZ.of_Z (Qfloor (tol * inject_Z (Zpos scale))) in
  BigZ.ltb (BigZ.sub (hi I) (lo J)) bound &&
  BigZ.ltb (BigZ.sub (hi J) (lo I)) bound.

End Interval.

(* ===================================================================== *)
(** * The test fixture in coordinates                                     *)
(* ===================================================================== *)

Module Fixture.

Import Mat LQ Coordinates.
Local Open Scope Qc_scope.

Definition ops : Ops Qc := mkOps Qcplus Qcminus Qcmult Qcdiv.

Definition M22 (m : M2 Qc) : Matrix :=
  mkMatrix 2 2 [[e00 m; e01 m]; [e10 m; e11 m]].
Definition col2 (v : V2 Qc) : Matrix := mkMatrix 2 1 [[v0 v]; [v1 v]].
Definition row2 (v : V2 Qc) : Matrix := mkMatrix 1 2 [[v0 v; v1 v]].
Definition M11 (r : Qc) : Matrix := mkMatrix 1 1 [[r]].

Definition m2_of (M : Matrix) : M2 Qc :=
  mkM2 (coeff M 0 0) (coeff M 0 1) (coeff M 1 0) (coeff M 1 1).
Definition col_of (M : Matrix) : V2 Qc := mkV2 (coeff M 0 0) (coeff M 1 0).
Definition row_of (M : Matrix) : V2 Qc := mkV2 (coeff M 0 0) (coeff M 0 1).

(** The LQ approximation of a game, as the solver takes it. *)
Definition game_linearization (g : Game Qc) : LinearDynamicsApproximation :=
  mkLinearization (M22 (gA g)) [col2 (gB1 g); col2 (gB2 g)].

Definition game_quadraticization (g : Game Qc) (l1 l2 : Matrix)
  : list QuadraticCostApproximation :=
  [ mkQuadraticization (mkSingleCost (M22 (gQ1 g)) l1)
      [(0%nat, mkSingleCost (M11 (gR11 g)) (Zero 1 1));
       (1%nat, mkSingleCost (M11 (gR12 g)) (Zero 1 1))];
    mkQuadraticization (mkSingleCost (M22 (gQ2 g)) l2)
      [(0%nat, mkSingleCost (M11 (gR21 g)) (Zero 1 1));
       (1%nat, mkSingleCost (M11 (gR22 g)) (Zero 1 1))] ].

(** The game of [SolveLQGameTest]: the matrices the test hands to
    [SolveLyapunovIterations]. *)
Definition game : Game Qc :=
  mkGame (m2_of (A LyapunovTest.Linearize))
         (col_of (nth 0 (Bs LyapunovTest.Linearize) empty_matrix))
         (col_of (nth 1 (Bs LyapunovTest.Linearize) empty_matrix))
         (m2_of LyapunovTest.Q1) (m2_of LyapunovTest.Q2)
         (coeff LyapunovTest.R11 0 0) (coeff LyapunovTest.R12 0 0)
         (coeff LyapunovTest.R21 0 0) (coeff LyapunovTest.R22 0 0).

(** The same game with interval coefficients. *)
Definition itv_of (x : Qc) : Interval.Itv := Interval.enclose (this x).
Definition itv_m2 (m : M2 Qc) : M2 Interval.Itv :=
  mkM2 (itv_of (e00 m)) (itv_of (e01 m)) (itv_of (e10 m)) (itv_of (e11 m)).
Definition itv_v2 (v : V2 Qc) : V2 Interval.Itv :=
  mkV2 (itv_of (v0 v)) (itv_of (v1 v)).
Definition itv_game (g : Game Qc) : Game Interval.Itv :=
  mkGame (itv_m2 (gA g)) (itv_v2 (gB1 g)) (itv_v2 (gB2 g))
         (itv_m2 (gQ1 g)) (itv_m2 (gQ2 g))
         (itv_of (gR11 g)) (itv_of (gR12 g)) (itv_of (gR21 g))
         (itv_of (gR22 g)).

Section Enclosures.

Variable g : Game Interval.Itv.

(** One backward step on enclosures of [(Z_1, Z_2)]; [None] when the
    enclosure of the determinant is not positive. *)
Definition backward_itv (Z : M2 Interval.Itv * M2 Interval.Itv)
  : option (M2 Interval.Itv * M2 Interval.Itv) :=
  let s := system Interval.ops g (fst Z) (snd Z) in
  if Interval.positive_itv (determinant Interval.ops s)
  then Some (backward Interval.ops g Z)
  else None.

Definition gains_itv (Z : M2 Interval.Itv * M2 Interval.Itv)
  : option (V2 Interval.Itv * V2 Interval.Itv) :=
  let s := system Interval.ops g (fst Z) (snd Z) in
  if Interval.positive_itv (determinant Interval.ops s)
  then Some (gains Interval.ops s)
  else None.

Fixpoint iterate_opt {T} (n : nat) (f : T -> option T) (x : T) : option T :=
  match n with
  | O => Some x
  | S n' => match f x with Some y => iterate_opt n' f y | None => None end
  end.

(** One Lyapunov iteration on enclosures; [None] when the enclosure of a
    pivot is not positive. *)
Definition lyapunov_itv
           (st : V2 Interval.Itv * V2 Interval.Itv *
                 M2 Interval.Itv * M2 Interval.Itv)
  : option (V2 Interval.Itv * V2 Interval.Itv *
            M2 Interval.Itv * M2 Interval.Itv) :=
  let Z1 := snd (fst st) in
  let Z2 := snd st in
  if Interval.positive_itv (own_pivot Interval.ops (gB1 g) Z1 (gR11 g)) &&
     Interval.positive_itv (own_pivot Interval.ops (gB2 g) Z2 (gR22 g))
  then Some (lyapunov Interval.ops g st)
  else None.

Definition lyapunov_start_itv
  : option (V2 Interval.Itv * V2 Interval.Itv *
            M2 Interval.Itv * M2 Interval.Itv) :=
  if Interval.positive_itv (own_pivot Interval.ops (gB1 g) (gQ1 g) (gR11 g)) &&
     Interval.positive_itv (own_pivot Interval.ops (gB2 g) (gQ2 g) (gR22 g))
  then Some (lyapunov_start Interval.ops g)
  else None.

End Enclosures.

(** Modelled from the spec: [constants::kSmallNumber], whose header is not
    among the sources; the tolerance of the comparison is [1e-4]. *)
Definition kSmallNumber : Qc := Q2Qc (1 # 10000).

(** Enclosures of the first-step gains of the LQ solver over [K] time
    steps, and of the gains after [n] Lyapunov iterations. *)
Definition lq_gains_itv (g : Game Interval.Itv) (K : nat)
  : option (V2 Interval.Itv * V2 Interval.Itv) :=
  match iterate_opt (K - 2) (backward_itv g) (gQ1 g, gQ2 g) with
  | Some Z => gains_itv g Z
  | None => None
  end.

Definition lyapunov_gains_itv (g : Game Interval.Itv) (n : nat)
  : option (V2 Interval.Itv * V2 Interval.Itv) :=
  match lyapunov_start_itv g with
  | Some st =>
      match iterate_opt n (lyapunov_itv g) st with
      | Some st' => Some (fst (fst (fst st')), snd (fst (fst st')))
      | None => None
      end
  | None => None
  end.

Definition within_v2 (tol : Q) (u v : V2 Interval.Itv) : bool :=
  Interval.within tol (v0 u) (v0 v) && Interval.within tol (v1 u) (v1 v).

(** The enclosures separate the two computations by less than [tol]. *)
Definition gains_agree (tol : Q)
           (lq ly : option (V2 Interval.Itv * V2 Interval.Itv)) : bool :=
  match lq, ly with
  | Some P, Some L =>
      within_v2 tol (fst L) (fst P) && within_v2 tol (snd L) (snd P)
  | _, _ => false
  end.

End Fixture.

(* ===================================================================== *)
(** * Enclosures of the coordinates, and the test itself                  *)
(* ===================================================================== *)

Module Enclosure.

Import Mat LQ Coordinates Fixture.
Local Open Scope Qc_scope.

Definition contains_v2 (I : V2 Interval.Itv) (v : V2 Qc) : Prop :=
  Interval.contains (v0 I) (v0 v) /\ Interval.contains (v1 I) (v1 v).

Definition contains_m2 (I : M2 Interval.Itv) (m : M2 Qc) : Prop :=
  Interval.contains (e00 I) (e00 m) /\ Interval.contains (e01 I) (e01 m) /\
  Interval.contains (e10 I) (e10 m) /\ Interval.contains (e11 I) (e11 m).

Definition contains_game (I : Game Interval.Itv) (g : Game Qc) : Prop :=
  contains_m2 (gA I) (gA g) /\
  contains_v2 (gB1 I) (gB1 g) /\ contains_v2 (gB2 I) (gB2 g) /\
  contains_m2 (gQ1 I) (gQ1 g) /\ contains_m2 (gQ2 I) (gQ2 g) /\
  Interval.contains (gR11 I) (gR11 g) /\ Interval.contains (gR12 I) (gR12 g) /\
  Interval.contains (gR21 I) (gR21 g) /\ Interval.contains (gR22 I) (gR22 g).

Definition contains_system (I : System Interval.Itv) (s : System Qc) : Prop :=
  Interval.contains (s00 I) (s00 s) /\ Interval.contains (s01 I) (s01 s) /\
  Interval.contains (s10 I) (s10 s) /\ Interval.contains (s11 I) (s11 s) /\
  contains_v2 (y0 I) (y0 s) /\ contains_v2 (y1 I) (y1 s).

Definition contains_values (I : M2 Interval.Itv * M2 Interval.Itv)
           (Z : M2 Qc * M2 Qc) : Prop :=
  contains_m2 (fst I) (fst Z) /\ contains_m2 (snd I) (snd Z).

Definition contains_gains (I : V2 Interval.Itv * V2 Interval.Itv)
           (P : V2 Qc * V2 Qc) : Prop :=
  contains_v2 (fst I) (fst P) /\ contains_v2 (snd I) (snd P).

Definition contains_state
           (I : V2 Interval.Itv * V2 Interval.Itv *
                M2 Interval.Itv * M2 Interval.Itv)
           (st : V2 Qc * V2 Qc * M2 Qc * M2 Qc) : Prop :=
  contains_v2 (fst (fst (fst I))) (fst (fst (fst st))) /\
  contains_v2 (snd (fst (fst I))) (snd (fst (fst st))) /\
  contains_m2 (snd (fst I)) (snd (fst st)) /\
  contains_m2 (snd I) (snd st).

(** The solver of the fixture holds the value matrices [Z]. *)
Definition solver_at (Z : M2 Qc * M2 Qc) (solver : LQFeedbackSolver) : Prop :=
  rows (S_ solver) = 2%nat /\ cols (S_ solver) = 2%nat /\
  rows (Y_ solver) = 2%nat /\ cols (Y_ solver) = 3%nat /\
  Zs_ solver = [M22 (fst Z); M22 (snd Z)] /\
  length (zetas_ solver) = 2%nat.

(** The state of the Lyapunov iterations, as matrices. *)
Definition lyapunov_state (st : V2 Qc * V2 Qc * M2 Qc * M2 Qc)
  : Matrix * Matrix * Matrix * Matrix :=
  (row2 (fst (fst (fst st))), row2 (snd (fst (fst st))),
   M22 (snd (fst st)), M22 (snd st)).

End Enclosure.

(* ===================================================================== *)
(** * [TEST_F(SolveLQGameTest, MatchesLyapunovIterations)]                *)
(* ===================================================================== *)

Module SolveLQGameTest.

Import Mat LQ LyapunovTest Fixture.
Local Open Scope Qc_scope.

(** [EXPECT_LT((P - lq_P).cwiseAbs().maxCoeff(), constants::kSmallNumber)]. *)
Definition close (P lq_P : Matrix) : bool :=
  Qc_ltb (maxCoeff (cwiseAbs (msub P lq_P))) kSmallNumber.

(** The test: solve the LQ game, run the Lyapunov iterations on the same
    matrices, and compare the first-step gains of both players.  [Abort]
    when the solver dies; otherwise whether both expectations hold. *)
Definition MatchesLyapunovIterations (solve : Matrix -> Matrix -> Matrix)
  : Result bool :=
  lq_solution_ <- lq_solution solve kNumTimeSteps ;;
  let P := SolveLyapunovIterations solve (A Linearize)
             (nth 0 (Bs Linearize) empty_matrix)
             (nth 1 (Bs Linearize) empty_matrix)
             Q1 Q2 R11 R12 R21 R22 in
  Ok (close (fst P)
            (nth 0 (Ps (nth 0 lq_solution_ empty_strategy)) empty_matrix) &&
      close (snd P)
            (nth 0 (Ps (nth 1 lq_solution_ empty_strategy)) empty_matrix)).

End SolveLQGameTest.

(* ===================================================================== *)
(** * Measures of a run of the receding-horizon driver                    *)
(* ===================================================================== *)

Module RecedingHorizonRun.

Import RecedingHorizon.
Local Open Scope Qc_scope.

Section Run.

Variables State OperatingPoint Strategies SolverLog Problem SolutionSplicer
  : Type.

Variable env : Collaborators State OperatingPoint Strategies SolverLog
                             Problem SolutionSplicer.

Let Event := Event State OperatingPoint Strategies SolverLog.

(** The deadlines of the calls of [Solve] in a trace, in order. *)
Definition solve_deadlines (trace : list Event) : list (option Time) :=
  flat_map (fun e => match e with
                     | EvSolve deadline => [deadline]
                     | _ => []
                     end) trace.

Definition is_integrate (e : Event) : bool :=
  match e with EvIntegrate _ _ _ _ _ => true | _ => false end.
Definition is_splice (e : Event) : bool :=
  match e with EvSplice _ _ => true | _ => false end.
Definition is_overwrite (e : Event) : bool :=
  match e with EvOverwriteSolution _ _ => true | _ => false end.
Definition is_set_up (e : Event) : bool :=
  match e with EvSetUpNextRecedingHorizon _ _ _ => true | _ => false end.

Definition count (p : Event -> bool) (trace : list Event) : nat :=
  length (filter p trace).

(** By how much [n] passes of the loop advance [t]: each by the time
    measured around its solve (the [k]-th solve of the loop is timed by
    the clock readings [2k] and [2k + 1]) and by [kExtraTime]. *)
Fixpoint advance (n : nat) : Time :=
  match n with
  | O => 0
  | S n' => advance n'
            + (clock_now env (2 * n + 1) - clock_now env (2 * n))
            + kExtraTime
  end.

(** [t] before the loop: [splicer.CurrentOperatingPoint().t0]. *)
Definition initial_time (problem0 : Problem) : Time :=
  t (before_loop env problem0).

(** The calls made by a run that has completed [n] passes of the loop:
    one log per solve, the first solve without a deadline and the others
    with [planner_runtime], and per pass one set-up, two integrations, one
    splice and one overwrite. *)
Definition calls_after (planner_runtime : Time) (n : nat)
           (st : Locals State OperatingPoint Strategies SolverLog Problem
                        SolutionSplicer) : Prop :=
  length (logs st) = S n /\
  clock_reads st = (2 * S n)%nat /\
  solve_deadlines (trace st) = None :: repeat (Some planner_runtime) n /\
  count is_set_up (trace st) = n /\
  count is_integrate (trace st) = (2 * n)%nat /\
  count is_splice (trace st) = n /\
  count is_overwrite (trace st) = n.

(** The calls made by a run that died on the deadline check in the pass
    after [n] completed ones: that pass has set up and solved, and has
    neither integrated nor spliced. *)
Definition calls_until_death (planner_runtime : Time) (n : nat)
           (st : Locals State OperatingPoint Strategies SolverLog Problem
                        SolutionSplicer) : Prop :=
  length (logs st) = S (S n) /\
  solve_deadlines (trace st) = None :: repeat (Some planner_runtime) (S n) /\
  count is_set_up (trace st) = S n /\
  count is_integrate (trace st) = (2 * n)%nat /\
  count is_splice (trace st) = n /\
  count is_overwrite (trace st) = n.

End Run.

End RecedingHorizonRun.

(* ===================================================================== *)
(** * Positive semidefinite costs                                         *)
(* ===================================================================== *)

Module Convexity.

Import Mat LQ.
Local Open Scope Qc_scope.

(** The quadratic form [x^T M x] of a column vector [x]. *)
Definition qform (M x : Matrix) : Qc :=
  coeff (mmul (transpose x) (mmul M x)) 0 0.

(** [M] is square and [x^T M x >= 0] for every column vector [x] of its
    size.  No symmetry is asked for. *)
Definition psd (M : Matrix) : Prop :=
  rows M = cols M /\
  forall x, has_dims (cols M) 1 x -> 0 <= qform M x.

(** All Hessians of a time step are positive semidefinite. *)
Definition psd_costs (quad : list QuadraticCostApproximation) : Prop :=
  forall q, In q quad ->
    psd (hess (state q)) /\
    forall e, In e (control q) -> psd (hess (snd e)).

End Convexity.

(* ===================================================================== *)
(** * Times in floating point                                             *)
(* ===================================================================== *)

Module FloatTime.

Local Open Scope Z_scope.

(** Modelled from the spec: [Time] is declared in utils/types.h, which is
    not among the sources.  The code holds times in binary floating point
    (the sliders keep [interpolation_time_] in a [float]); a time is
    modelled as an IEEE 754 number, its format - [prec] bits of mantissa
    and the exponent bound [emax] - being a parameter of the operations
    that round.  The format of [float] is [prec = 24], [emax = 128]. *)
Definition Time : Type := spec_float.

Definition float_prec : Z := 24.
Definition float_emax : Z := 128.
(** The format of [double]. *)
Definition double_prec : Z := 53.
Definition double_emax : Z := 1024.

Definition is_nan (a : Time) : bool :=
  match a with S754_nan => true | _ => false end.

(** [a < b] and [a <= b]: both are false when [a] or [b] is NaN. *)
Definition Time_ltb (a b : Time) : bool := SFltb a b.
Definition Time_leb (a b : Time) : bool := SFleb a b.

Section Format.

Variables prec emax : Z.

(** [a + b], rounded to nearest, ties to even. *)
Definition Time_plus (a b : Time) : Time := SFadd prec emax a b.

(** The number of the format nearest to an integer and to a ratio of
    integers. *)
Definition of_Z (z : Z) : Time := binary_normalize prec emax z 0 false.
Definition of_ratio (n d : Z) : Time := SFdiv prec emax (of_Z n) (of_Z d).

(** [constexpr Time kExtraTime = 0.1]: the literal, rounded to the format. *)
Definition kExtraTime : Time := of_ratio 1 10.

(** [a] is a number of the format (every value of the C++ type is). *)
Definition is_Time (a : Time) : bool := valid_binary prec emax a.

(** The place of a number of the format among all of them, counted from
    zero in increasing order; the infinities come last on either side. *)
Definition magnitude (m : positive) (e : Z) : Z :=
  (e - emin prec emax) * 2 ^ prec + Zpos m.
Definition top : Z := (emax - emin prec emax + 2) * 2 ^ prec.
Definition rank (a : Time) : Z :=
  match a with
  | S754_zero _ => 0
  | S754_nan => 0
  | S754_infinity s => if s then - top else top
  | S754_finite s m e => if s then - magnitude m e else magnitude m e
  end.

End Format.

End FloatTime.

(* ===================================================================== *)
(** * The GUI sliders, with the time slider in floating point             *)
(* ===================================================================== *)

Module FloatSliders.

Import FloatTime.
Local Open Scope Z_scope.

(** What the accessors ask of a [SolverLog]. *)
Record SolverLog : Type := mkSolverLog
  { InitialTime : Time;
    FinalTime : Time;
    NumIterates : nat }.

(** [interpolation_time_] is a [float]; the accessor reads it through
    [static_cast<Time>], which is exact and keeps a NaN a NaN, so the
    field holds the value of that cast. *)
Record ControlSliders : Type := mkControlSliders
  { interpolation_time_ : Time;
    solver_iterate_ : Z;
    log_index_ : Z;
    logs_ : list SolverLog }.

(** [std::min(a, b)] is [(b < a) ? b : a]; [std::max(a, b)] is
    [(a < b) ? b : a]. *)
Definition min_Time (a b : Time) : Time := if Time_ltb b a then b else a.
Definition max_Time (a b : Time) : Time := if Time_ltb a b then b else a.

Definition LogIndex (s : ControlSliders) : Z :=
  Sliders.min_int (log_index_ s)
    (Sliders.static_cast_int (Sliders.size_t_pred (length (logs_ s)))).

(** [logs_[i]] for an [int] index: [None] where the index is outside the
    vector (undefined behaviour in C++). *)
Definition logs_at (s : ControlSliders) (i : Z) : option SolverLog :=
  if i <? 0 then None else nth_error (logs_ s) (Z.to_nat i).

Definition SolverIterate (s : ControlSliders) : option Z :=
  match logs_at s (LogIndex s) with
  | Some log =>
      Some (Sliders.min_int (solver_iterate_ s)
              (Sliders.static_cast_int (Sliders.size_t_pred (NumIterates log))))
  | None => None
  end.

Definition InterpolationTime (s : ControlSliders) : option Time :=
  match logs_at s (LogIndex s) with
  | Some log =>
      Some (max_Time (min_Time (interpolation_time_ s) (FinalTime log))
                     (InitialTime log))
  | None => None
  end.

End FloatSliders.

(* ===================================================================== *)
(** * The receding-horizon driver, with times in floating point           *)
(* ===================================================================== *)

Module FloatDriver.

Import FloatTime.
Local Open Scope Z_scope.

Section Driver.

(** The format of [Time]. *)
Variables prec emax : Z.

Variables State OperatingPoint Strategies SolverLog Problem SolutionSplicer
  : Type.

(** The collaborators of the driver, as in [RecedingHorizon.Collaborators];
    the wall clock is read in its own ticks, and a difference of two
    readings is turned into seconds by [std::chrono::duration<Time>]. *)
Record Collaborators : Type := mkCollaborators
  { (** [problem->Solve()] ([None]) and [problem->Solve(planner_runtime)]. *)
    Problem_Solve : option Time -> Problem -> SolverLog * Problem;
    SetUpNextRecedingHorizon : State -> Time -> Time -> Problem -> Problem;
    OverwriteSolution : OperatingPoint -> Strategies -> Problem -> Problem;
    InitialState : Problem -> State;
    (** [dynamics.Integrate(t0, t1, x, operating_point, strategies)]. *)
    Integrate : Time -> Time -> State -> OperatingPoint -> Strategies -> State;
    SolutionSplicer_ctor : SolverLog -> SolutionSplicer;
    Splice : SolverLog -> Time -> SolutionSplicer -> SolutionSplicer;
    CurrentOperatingPoint : SolutionSplicer -> OperatingPoint;
    CurrentStrategies : SolutionSplicer -> Strategies;
    (** [operating_point.t0]. *)
    t0 : OperatingPoint -> Time;
    (** [clock_now n] is what the [n]-th call of [clock::now()] returns,
        in ticks of the clock. *)
    clock_now : nat -> Z;
    (** [std::chrono::duration<Time>(d).count()] for a difference [d] of
        two readings of the clock. *)
    duration_count : Z -> Time }.

Variable env : Collaborators.

(** The local variables of [RecedingHorizonSimulator], the problem object
    and the number of clock readings taken so far. *)
Record Locals : Type := mkLocals
  { logs : list SolverLog;
    problem : Problem;
    splicer : SolutionSplicer;
    x : State;
    t : Time;
    elapsed_time : Time;
    clock_reads : nat }.

(** How one pass of the loop body ends. *)
Inductive Step : Type :=
| Continue (st : Locals)
| CheckLeFailed (st : Locals).   (* CHECK_LE(elapsed_time, planner_runtime) *)

(** The wall time measured around the solve of a pass entered in state
    [st]. *)
Definition measured (st : Locals) : Time :=
  duration_count env (clock_now env (S (clock_reads st))
                      - clock_now env (clock_reads st)).

(** Lines 93-122: the body of the while loop. *)
Definition loop_body (planner_runtime : Time) (st : Locals) : Step :=
  (* Set up next receding horizon problem and solve. *)
  let problem1 :=
    SetUpNextRecedingHorizon env (x st) (t st) planner_runtime (problem st) in
  let '(log, problem2) := Problem_Solve env (Some planner_runtime) problem1 in
  let logs' := logs st ++ [log] in
  let elapsed_time' := measured st in
  if negb (Time_leb elapsed_time' planner_runtime) then
    CheckLeFailed (mkLocals logs' problem2 (splicer st) (x st) (t st)
                            elapsed_time' (S (S (clock_reads st))))
  else
    (* Integrate dynamics forward to account for solve time. *)
    let op0 := CurrentOperatingPoint env (splicer st) in
    let strategies0 := CurrentStrategies env (splicer st) in
    let x1 := Integrate env (t st) (Time_plus prec emax (t st) elapsed_time')
                        (x st) op0 strategies0 in
    let t1 := Time_plus prec emax (t st) elapsed_time' in
    (* Add new solution to splicer. *)
    let splicer' := Splice env (last logs' log) t1 (splicer st) in
    (* Overwrite problem with spliced solution. *)
    let op1 := CurrentOperatingPoint env splicer' in
    let strategies1 := CurrentStrategies env splicer' in
    let problem3 := OverwriteSolution env op1 strategies1 problem2 in
    (* Integrate a little more. *)
    let x2 := Integrate env t1 (Time_plus prec emax t1 (kExtraTime prec emax))
                        x1 op1 strategies1 in
    let t2 := Time_plus prec emax t1 (kExtraTime prec emax) in
    Continue (mkLocals logs' problem3 splicer' x2 t2 elapsed_time'
                       (S (S (clock_reads st)))).

(** How a run of the driver ends: it returns [logs], it dies on the
    deadline check, or the model runs out of fuel. *)
Inductive Outcome : Type :=
| Returned (st : Locals)
| Died (st : Locals)
| OutOfFuel.

(** Lines 92-123: [while (t < final_time) { ... }], at most [fuel] passes. *)
Fixpoint while_loop (fuel : nat) (final_time planner_runtime : Time)
         (st : Locals) : Outcome :=
  if Time_ltb (t st) final_time then
    match fuel with
    | O => OutOfFuel
    | S fuel' =>
        match loop_body planner_runtime st with
        | Continue st' => while_loop fuel' final_time planner_runtime st'
        | CheckLeFailed st' => Died st'
        end
    end
  else Returned st.

(** Lines 70-91: everything before the loop. *)
Definition before_loop (problem0 : Problem) : Locals :=
  let '(log, problem1) := Problem_Solve env None problem0 in
  let elapsed_time0 := duration_count env (clock_now env 1 - clock_now env 0) in
  let splicer0 := SolutionSplicer_ctor env log in
  mkLocals [log] problem1 splicer0 (InitialState env problem1)
           (t0 env (CurrentOperatingPoint env splicer0)) elapsed_time0 2.

(** [RecedingHorizonSimulator(final_time, planner_runtime, problem)]. *)
Definition RecedingHorizonSimulator (fuel : nat)
           (final_time planner_runtime : Time) (problem0 : Problem)
  : Outcome :=
  while_loop fuel final_time planner_runtime (before_loop problem0).

(** The locals at the head of the loop once [n] passes have been
    completed; [None] when the loop has ended before. *)
Fixpoint after_passes (n : nat) (final_time planner_runtime : Time)
         (problem0 : Problem) : option Locals :=
  match n with
  | O => Some (before_loop problem0)
  | S n' =>
      match after_passes n' final_time planner_runtime problem0 with
      | Some st =>
          if Time_ltb (t st) final_time then
            match loop_body planner_runtime st with
            | Continue st' => Some st'
            | CheckLeFailed _ => None
            end
          else None
      | None => None
      end
  end.

(** What [n] passes make of a time [start]: each adds the time measured
    around its solve (the [k]-th solve of the loop is timed by the clock
    readings [2k] and [2k + 1]) and then [kExtraTime], rounding after
    each addition. *)
Fixpoint accumulate (n : nat) (start : Time) : Time :=
  match n with
  | O => start
  | S n' =>
      Time_plus prec emax
        (Time_plus prec emax (accumulate n' start)
           (duration_count env (clock_now env (2 * n + 1)
                                - clock_now env (2 * n))))
        (kExtraTime prec emax)
  end.

End Driver.

Arguments OutOfFuel {State SolverLog Problem SolutionSplicer}.

(** An instance for evaluation, in a given format: a problem is the start
    time of its plan, which is all that a log, a plan and the splicer
    hold; the clock ticks in milliseconds and every solve takes 50 of
    them. *)
Definition toy (prec emax : Z) : Collaborators unit Time unit Time Time Time :=
  mkCollaborators
    (fun _ problem => (problem, problem))
    (fun _ _ _ problem => problem)
    (fun _ _ problem => problem)
    (fun _ => tt)
    (fun _ _ x _ _ => x)
    (fun log => log)
    (fun _ _ splicer => splicer)
    (fun splicer => splicer)
    (fun _ => tt)
    (fun op => op)
    (fun n => 50 * Z.of_nat n)
    (fun d => of_ratio prec emax d 1000).

End FloatDriver.

(* ===================================================================== *)
(** * The test on the fixture set up with another time step              *)
(* ===================================================================== *)

Module OtherTimeStep.

Import Mat LQ LyapunovTest Coordinates Fixture.
Local Open Scope Qc_scope.

(** Modelled from the spec: [TwoPlayerPointMass1D(time_step).Linearize],
    as [LyapunovTest.Linearize] but for the [time_step] the system is
    constructed with; the constructor of [LinearDynamicsApproximation] is
    not among the sources, and the linearization starts from the
    identity. *)
Definition Linearize_at (time_step : Qc) : LinearDynamicsApproximation :=
  mkLinearization (madd (Identity 2 2) (mscale time_step A_))
                  [mscale time_step B1_; mscale time_step B2_].

(** [MatchesLyapunovIterations] on the fixture set up with [time_step]
    and [K] time steps, costs unchanged. *)
Definition MatchesLyapunovIterations_at (time_step : Qc) (K : nat)
           (solve : Matrix -> Matrix -> Matrix) : Result bool :=
  lq_solution_ <- Solve solve (solver_for K)
                    (repeat (Linearize_at time_step) K)
                    (repeat quadraticizations K) ;;
  let P := SolveLyapunovIterations solve (A (Linearize_at time_step))
             (nth 0 (Bs (Linearize_at time_step)) empty_matrix)
             (nth 1 (Bs (Linearize_at time_step)) empty_matrix)
             Q1 Q2 R11 R12 R21 R22 in
  Ok (SolveLQGameTest.close
        (fst P) (nth 0 (Ps (nth 0 lq_solution_ empty_strategy)) empty_matrix) &&
      SolveLQGameTest.close
        (snd P) (nth 0 (Ps (nth 1 lq_solution_ empty_strategy)) empty_matrix)).

(** The game of the test at [time_step], in coordinates. *)
Definition game_at (time_step : Qc) : Game Qc :=
  mkGame (m2_of (A (Linearize_at time_step)))
         (col_of (nth 0 (Bs (Linearize_at time_step)) empty_matrix))
         (col_of (nth 1 (Bs (Linearize_at time_step)) empty_matrix))
         (m2_of Q1) (m2_of Q2)
         (coeff R11 0 0) (coeff R12 0 0) (coeff R21 0 0) (coeff R22 0 0).

(** A smaller time step, 0.02. *)
Definition dt : Qc := q 2 100.

(** Every point of [I] exceeds every point of [J] by more than [tol]. *)
Definition above (tol : Q) (I J : Interval.Itv) : bool :=
  let bound :=
    BigZ.of_Z (Qceiling (tol * inject_Z (Zpos Interval.scale))) in
  BigZ.ltb bound (BigZ.sub (Interval.lo I) (Interval.hi J)).

(** The enclosures put the first coefficient of player 1's Lyapunov gain
    more than [tol] above that of the solver's gain. *)
Definition gains_apart (tol : Q)
           (lq ly : option (V2 Interval.Itv * V2 Interval.Itv)) : bool :=
  match lq, ly with
  | Some P, Some L => above tol (v0 (fst L)) (v0 (fst P))
  | _, _ => false
  end.

End OtherTimeStep.

(* ===================================================================== *)
(** * Facts about matrices                                                *)
(* ===================================================================== *)

Module MatFacts.

Import Mat.
Local Open Scope Qc_scope.

Lemma rows_tabulate r c f : rows (tabulate r c f) = r.
Proof. reflexivity. Qed.

Lemma cols_tabulate r c f : cols (tabulate r c f) = c.
Proof. reflexivity. Qed.

Lemma wf_tabulate r c f : wf (tabulate r c f).
Proof.
  split; cbn.
  - now rewrite length_map, length_seq.
  - apply Forall_forall. intros row Hin.
    apply in_map_iff in Hin. destruct Hin as [i [<- _]].
    now rewrite length_map, length_seq.
Qed.

Lemma coeff_tabulate r c f i j :
  (i < r)%nat -> (j < c)%nat -> coeff (tabulate r c f) i j = f i j.
Proof.
  intros Hi Hj. unfold coeff, tabulate; cbn.
  rewrite (nth_indep _ [] (map (f 0%nat) (seq 0 c)))
    by now rewrite length_map, length_seq.
  rewrite (map_nth (fun i => map (f i) (seq 0 c)) (seq 0 r) 0%nat i).
  rewrite seq_nth by assumption. cbn.
  rewrite (nth_indep _ 0 (f i 0%nat)) by now rewrite length_map, length_seq.
  rewrite (map_nth (f i) (seq 0 c) 0%nat j).
  now rewrite seq_nth.
Qed.

Lemma coeff_tabulate_outside r c f i j :
  (r <= i)%nat \/ (c <= j)%nat -> coeff (tabulate r c f) i j = 0.
Proof.
  intros H. unfold coeff, tabulate; cbn.
  destruct (Nat.lt_ge_cases i r) as [Hi | Hi].
  - destruct H as [H | H]; [lia |].
    rewrite (nth_indep _ [] (map (f 0%nat) (seq 0 c)))
      by now rewrite length_map, length_seq.
    rewrite (map_nth (fun i => map (f i) (seq 0 c)) (seq 0 r) 0%nat i).
    apply nth_overflow. now rewrite length_map, length_seq.
  - rewrite (nth_overflow _ [] ) by now rewrite length_map, length_seq.
    now destruct j.
Qed.

Lemma tabulate_ext r c f g :
  (forall i j, (i < r)%nat -> (j < c)%nat -> f i j = g i j) ->
  tabulate r c f = tabulate r c g.
Proof.
  intros H. unfold tabulate. f_equal.
  apply map_ext_in. intros i Hi. apply in_seq in Hi.
  apply map_ext_in. intros j Hj. apply in_seq in Hj.
  apply H; lia.
Qed.

Lemma list_eq_nth {T} (dflt : T) (l1 l2 : list T) :
  length l1 = length l2 ->
  (forall i, (i < length l1)%nat -> nth i l1 dflt = nth i l2 dflt) ->
  l1 = l2.
Proof.
  revert l2. induction l1 as [| x l1 IH]; intros [| y l2] Hlen H;
    cbn in *; try discriminate; [reflexivity |].
  f_equal.
  - apply (H 0%nat). lia.
  - apply IH; [lia |]. intros i Hi. apply (H (S i)). lia.
Qed.

(** A well-formed matrix is the table of its own coefficients. *)
Lemma wf_tabulate_coeff M :
  wf M -> M = tabulate (rows M) (cols M) (coeff M).
Proof.
  destruct M as [r c rowsM]. unfold wf; cbn. intros [Hlen Hrows].
  unfold tabulate. f_equal.
  apply (list_eq_nth []).
  - now rewrite length_map, length_seq.
  - intros i Hi.
    rewrite (nth_indep (map _ _) [] (map (coeff (mkMatrix r c rowsM) 0%nat) (seq 0 c)))
      by (rewrite length_map, length_seq; lia).
    rewrite (map_nth (fun i => map (coeff (mkMatrix r c rowsM) i) (seq 0 c))
                     (seq 0 r) 0%nat i).
    rewrite seq_nth by lia. cbn.
    assert (Hrow : length (nth i rowsM []) = c).
    { rewrite Forall_forall in Hrows. apply Hrows. now apply nth_In. }
    apply (list_eq_nth 0).
    + now rewrite length_map, length_seq.
    + intros j Hj.
      rewrite (nth_indep (map _ _) 0 (coeff (mkMatrix r c rowsM) i 0%nat))
        by (rewrite length_map, length_seq; lia).
      rewrite (map_nth (coeff (mkMatrix r c rowsM) i) (seq 0 c) 0%nat j).
      rewrite seq_nth by lia. reflexivity.
Qed.

(** Extensionality: well-formed matrices with the same dimensions and the
    same coefficients are equal. *)
Lemma matrix_ext M1 M2 :
  wf M1 -> wf M2 -> rows M1 = rows M2 -> cols M1 = cols M2 ->
  (forall i j, (i < rows M1)%nat -> (j < cols M1)%nat ->
               coeff M1 i j = coeff M2 i j) ->
  M1 = M2.
Proof.
  intros W1 W2 Hr Hc H.
  rewrite (wf_tabulate_coeff W1), (wf_tabulate_coeff W2), <- Hr, <- Hc.
  now apply tabulate_ext.
Qed.

(** ** Finite sums *)

Lemma sum_n_S n f : sum_n (S n) f = sum_n n f + f n.
Proof.
  unfold sum_n. rewrite seq_S, fold_left_app. reflexivity.
Qed.

Lemma sum_n_0 f : sum_n 0 f = 0.
Proof. reflexivity. Qed.

Lemma sum_n_ext n f g :
  (forall k, (k < n)%nat -> f k = g k) -> sum_n n f = sum_n n g.
Proof.
  induction n as [| n IH]; intros H; [reflexivity |].
  rewrite !sum_n_S, IH, (H n) by auto with arith. reflexivity.
Qed.

Lemma sum_n_zero n : sum_n n (fun _ => 0) = 0.
Proof.
  induction n as [| n IH]; [reflexivity |].
  rewrite sum_n_S, IH. ring.
Qed.

Lemma sum_n_plus n f g :
  sum_n n (fun k => f k + g k) = sum_n n f + sum_n n g.
Proof.
  induction n as [| n IH]; [cbn; ring |].
  rewrite !sum_n_S, IH. ring.
Qed.

Lemma sum_n_mult_l n a f :
  sum_n n (fun k => a * f k) = a * sum_n n f.
Proof.
  induction n as [| n IH]; [cbn; ring |].
  rewrite !sum_n_S, IH. ring.
Qed.

Lemma sum_n_mult_r n a f :
  sum_n n (fun k => f k * a) = sum_n n f * a.
Proof.
  induction n as [| n IH]; [cbn; ring |].
  rewrite !sum_n_S, IH. ring.
Qed.

Lemma sum_n_swap n m f :
  sum_n n (fun i => sum_n m (fun j => f i j)) =
  sum_n m (fun j => sum_n n (fun i => f i j)).
Proof.
  induction n as [| n IH].
  - cbn. now rewrite sum_n_zero.
  - rewrite sum_n_S, IH, <- sum_n_plus.
    apply sum_n_ext. intros j _. now rewrite sum_n_S.
Qed.

(** ** Coefficients and dimensions of the operations *)

Lemma coeff_transpose M i j :
  (i < cols M)%nat -> (j < rows M)%nat -> coeff (transpose M) i j = coeff M j i.
Proof. intros; unfold transpose; now rewrite coeff_tabulate. Qed.

Lemma coeff_mmul M1 M2 i j :
  (i < rows M1)%nat -> (j < cols M2)%nat ->
  coeff (mmul M1 M2) i j =
  sum_n (cols M1) (fun k => coeff M1 i k * coeff M2 k j).
Proof. intros; unfold mmul; now rewrite coeff_tabulate. Qed.

Lemma coeff_madd M1 M2 i j :
  (i < rows M1)%nat -> (j < cols M1)%nat ->
  coeff (madd M1 M2) i j = coeff M1 i j + coeff M2 i j.
Proof. intros; unfold madd; now rewrite coeff_tabulate. Qed.

Lemma coeff_msub M1 M2 i j :
  (i < rows M1)%nat -> (j < cols M1)%nat ->
  coeff (msub M1 M2) i j = coeff M1 i j - coeff M2 i j.
Proof. intros; unfold msub; now rewrite coeff_tabulate. Qed.

Lemma coeff_block M r c h w i j :
  (i < h)%nat -> (j < w)%nat ->
  coeff (block M r c h w) i j = coeff M (r + i) (c + j).
Proof. intros; unfold block; now rewrite coeff_tabulate. Qed.

Lemma coeff_set_block_inside M r c h w B i j :
  (r + h <= rows M)%nat -> (c + w <= cols M)%nat ->
  (i < h)%nat -> (j < w)%nat ->
  coeff (set_block M r c h w B) (r + i) (c + j) = coeff B i j.
Proof.
  intros Hr Hc Hi Hj. unfold set_block.
  rewrite coeff_tabulate by lia.
  replace ((r <=? r + i) && (r + i <? r + h) && (c <=? c + j) && (c + j <? c + w))
    with true.
  - f_equal; lia.
  - symmetry. rewrite !andb_true_iff.
    repeat split; first [apply Nat.leb_le | apply Nat.ltb_lt]; lia.
Qed.

Lemma coeff_set_block_outside M r c h w B i j :
  (i < r \/ r + h <= i \/ j < c \/ c + w <= j)%nat ->
  coeff (set_block M r c h w B) i j =
  coeff (tabulate (rows M) (cols M) (coeff M)) i j.
Proof.
  intros Hout. unfold set_block.
  destruct (Nat.lt_ge_cases i (rows M)) as [Hi | Hi];
    [destruct (Nat.lt_ge_cases j (cols M)) as [Hj | Hj] |].
  - rewrite !coeff_tabulate by assumption.
    replace ((r <=? i) && (i <? r + h) && (c <=? j) && (j <? c + w))
      with false; [reflexivity |].
    symmetry. rewrite !andb_false_iff.
    rewrite !Nat.leb_gt, !Nat.ltb_ge. lia.
  - rewrite !coeff_tabulate_outside by auto. reflexivity.
  - rewrite !coeff_tabulate_outside by auto. reflexivity.
Qed.

Lemma rows_set_block M r c h w B : rows (set_block M r c h w B) = rows M.
Proof. reflexivity. Qed.

Lemma cols_set_block M r c h w B : cols (set_block M r c h w B) = cols M.
Proof. reflexivity. Qed.

Lemma wf_transpose M : wf (transpose M).
Proof. apply wf_tabulate. Qed.
Lemma wf_mmul M1 M2 : wf (mmul M1 M2).
Proof. apply wf_tabulate. Qed.
Lemma wf_madd M1 M2 : wf (madd M1 M2).
Proof. apply wf_tabulate. Qed.
Lemma wf_msub M1 M2 : wf (msub M1 M2).
Proof. apply wf_tabulate. Qed.
Lemma wf_block M r c h w : wf (block M r c h w).
Proof. apply wf_tabulate. Qed.
Lemma wf_set_block M r c h w B : wf (set_block M r c h w B).
Proof. apply wf_tabulate. Qed.
Lemma wf_Zero r c : wf (Zero r c).
Proof. apply wf_tabulate. Qed.

Lemma rows_transpose M : rows (transpose M) = cols M.
Proof. reflexivity. Qed.
Lemma cols_transpose M : cols (transpose M) = rows M.
Proof. reflexivity. Qed.
Lemma rows_mmul M1 M2 : rows (mmul M1 M2) = rows M1.
Proof. reflexivity. Qed.
Lemma cols_mmul M1 M2 : cols (mmul M1 M2) = cols M2.
Proof. reflexivity. Qed.
Lemma rows_madd M1 M2 : rows (madd M1 M2) = rows M1.
Proof. reflexivity. Qed.
Lemma cols_madd M1 M2 : cols (madd M1 M2) = cols M1.
Proof. reflexivity. Qed.
Lemma rows_msub M1 M2 : rows (msub M1 M2) = rows M1.
Proof. reflexivity. Qed.
Lemma cols_msub M1 M2 : cols (msub M1 M2) = cols M1.
Proof. reflexivity. Qed.
Lemma rows_block M r c h w : rows (block M r c h w) = h.
Proof. reflexivity. Qed.
Lemma cols_block M r c h w : cols (block M r c h w) = w.
Proof. reflexivity. Qed.
Lemma rows_mscale a M : rows (mscale a M) = rows M.
Proof. reflexivity. Qed.
Lemma cols_mscale a M : cols (mscale a M) = cols M.
Proof. reflexivity. Qed.
Lemma wf_mscale a M : wf (mscale a M).
Proof. apply wf_tabulate. Qed.
Lemma coeff_mscale a M i j :
  (i < rows M)%nat -> (j < cols M)%nat ->
  coeff (mscale a M) i j = a * coeff M i j.
Proof. intros; unfold mscale; now rewrite coeff_tabulate. Qed.
Lemma rows_Zero r c : rows (Zero r c) = r.
Proof. reflexivity. Qed.
Lemma cols_Zero r c : cols (Zero r c) = c.
Proof. reflexivity. Qed.

Create HintDb mwf.
Create Rewrite HintDb mdims.

#[export] Hint Rewrite rows_tabulate cols_tabulate rows_transpose
  cols_transpose rows_mmul cols_mmul rows_madd cols_madd rows_msub cols_msub
  rows_block cols_block rows_set_block cols_set_block rows_Zero cols_Zero
  rows_mscale cols_mscale : mdims.

#[export] Hint Resolve wf_tabulate wf_transpose wf_mmul wf_madd wf_msub
  wf_block wf_set_block wf_Zero wf_mscale : mwf.

(** Reduce an equation between matrices built by the operations to an
    equation between coefficients. *)
Ltac mat_ext i j Hi Hj :=
  apply matrix_ext; auto with mwf;
  [ autorewrite with mdims; try congruence; try lia ..
  | intros i j Hi Hj; autorewrite with mdims in Hi, Hj ].

(** ** Algebra of transposes and products *)

Lemma transpose_involutive M : wf M -> transpose (transpose M) = M.
Proof.
  intros W. mat_ext i j Hi Hj.
  rewrite !coeff_transpose by (autorewrite with mdims; lia).
  reflexivity.
Qed.

Lemma transpose_madd M1 M2 :
  rows M2 = rows M1 -> cols M2 = cols M1 ->
  transpose (madd M1 M2) = madd (transpose M1) (transpose M2).
Proof.
  intros Hr Hc. mat_ext i j Hi Hj.
  rewrite coeff_transpose by (autorewrite with mdims; lia).
  rewrite !coeff_madd by (autorewrite with mdims; lia).
  rewrite !coeff_transpose by lia.
  reflexivity.
Qed.

Lemma transpose_mmul M1 M2 :
  cols M1 = rows M2 ->
  transpose (mmul M1 M2) = mmul (transpose M2) (transpose M1).
Proof.
  intros Hd. mat_ext i j Hi Hj.
  rewrite coeff_transpose by (autorewrite with mdims; lia).
  rewrite !coeff_mmul by (autorewrite with mdims; lia).
  autorewrite with mdims. rewrite Hd.
  apply sum_n_ext. intros k Hk.
  rewrite !coeff_transpose by lia. ring.
Qed.

Lemma mmul_assoc M1 M2 M3 :
  cols M1 = rows M2 -> cols M2 = rows M3 ->
  mmul (mmul M1 M2) M3 = mmul M1 (mmul M2 M3).
Proof.
  intros H12 H23. mat_ext i j Hi Hj.
  rewrite !coeff_mmul by (autorewrite with mdims; lia).
  autorewrite with mdims.
  transitivity
    (sum_n (cols M2)
           (fun k => sum_n (cols M1)
                        (fun l => coeff M1 i l * coeff M2 l k * coeff M3 k j))).
  - apply sum_n_ext. intros k Hk.
    rewrite coeff_mmul by lia.
    now rewrite sum_n_mult_r.
  - rewrite sum_n_swap. apply sum_n_ext. intros l Hl.
    rewrite coeff_mmul by lia.
    rewrite <- sum_n_mult_l. apply sum_n_ext. intros k Hk. ring.
Qed.

(** ** The decidable predicates *)

Lemma wfb_wf M : wfb M = true -> wf M.
Proof.
  unfold wfb, wf. rewrite andb_true_iff, forallb_forall.
  intros [H1 H2]. split.
  - now apply Nat.eqb_eq.
  - apply Forall_forall. intros row Hin. apply Nat.eqb_eq. now apply H2.
Qed.

Lemma has_dimsb_spec r c M :
  has_dimsb r c M = true -> wf M /\ rows M = r /\ cols M = c.
Proof.
  unfold has_dimsb. rewrite !andb_true_iff, !Nat.eqb_eq.
  intros [[H1 H2] H3]. auto using wfb_wf.
Qed.

Lemma Qc_eqb_eq x y : Qc_eqb x y = true -> x = y.
Proof.
  unfold Qc_eqb. intros H. apply Qc_is_canon. now apply Qeq_bool_eq.
Qed.

Lemma list_eqb_eq {T} (eqb : T -> T -> bool) :
  (forall x y, eqb x y = true -> x = y) ->
  forall l1 l2, list_eqb eqb l1 l2 = true -> l1 = l2.
Proof.
  intros Heq. induction l1 as [| x l1 IH]; intros [| y l2]; cbn;
    try discriminate; [reflexivity |].
  rewrite andb_true_iff. intros [H1 H2]. f_equal; auto.
Qed.

Lemma eqb_eq M1 M2 : eqb M1 M2 = true -> M1 = M2.
Proof.
  destruct M1 as [r1 c1 d1], M2 as [r2 c2 d2]. unfold eqb; cbn.
  rewrite !andb_true_iff, !Nat.eqb_eq. intros [[-> ->] H]. f_equal.
  revert H. apply list_eqb_eq. apply list_eqb_eq. apply Qc_eqb_eq.
Qed.

Lemma symmetricb_spec M : symmetricb M = true -> symmetric M.
Proof. apply eqb_eq. Qed.

(** ** Symmetric matrices *)

Lemma symmetric_wf M : symmetric M -> wf M.
Proof. unfold symmetric. intros H. rewrite <- H. apply wf_transpose. Qed.

Lemma symmetric_square M : symmetric M -> rows M = cols M.
Proof. unfold symmetric. intros H. rewrite <- H at 1. reflexivity. Qed.

Lemma symmetric_madd M1 M2 :
  symmetric M1 -> symmetric M2 -> rows M2 = rows M1 ->
  symmetric (madd M1 M2).
Proof.
  intros H1 H2 Hr. unfold symmetric in *.
  pose proof (symmetric_square H1) as Hs1.
  pose proof (symmetric_square H2) as Hs2.
  rewrite transpose_madd.
  - now rewrite H1, H2.
  - exact Hr.
  - congruence.
Qed.

(** [X^T M X] is symmetric when [M] is. *)
Lemma symmetric_congruence X M :
  wf X -> symmetric M -> rows X = rows M ->
  symmetric (mmul (mmul (transpose X) M) X).
Proof.
  intros WX HM Hr.
  pose proof (symmetric_square HM) as Hsq. unfold symmetric in *.
  rewrite transpose_mmul by (autorewrite with mdims; congruence).
  rewrite transpose_mmul by (autorewrite with mdims; congruence).
  rewrite transpose_involutive by assumption.
  rewrite HM.
  rewrite mmul_assoc by (autorewrite with mdims; congruence).
  reflexivity.
Qed.

(** ** Sums of matrices *)

Lemma rows_msum r c l :
  Forall (fun M => rows M = r) l -> rows (msum r c l) = r.
Proof. intros H. destruct H; reflexivity || assumption. Qed.

Lemma cols_msum r c l :
  Forall (fun M => cols M = c) l -> cols (msum r c l) = c.
Proof. intros H. destruct H; reflexivity || assumption. Qed.

Lemma wf_msum r c l : wf (msum r c l).
Proof. destruct l; [apply wf_Zero | apply wf_madd]. Qed.

Lemma coeff_Zero r c i j : coeff (Zero r c) i j = 0.
Proof.
  unfold Zero.
  destruct (Nat.lt_ge_cases i r) as [Hi | Hi];
    [destruct (Nat.lt_ge_cases j c) as [Hj | Hj] |].
  - now rewrite coeff_tabulate.
  - now rewrite coeff_tabulate_outside by auto.
  - now rewrite coeff_tabulate_outside by auto.
Qed.

Lemma coeff_msum r c l i j :
  Forall (fun M => rows M = r /\ cols M = c) l ->
  (i < r)%nat -> (j < c)%nat ->
  coeff (msum r c l) i j = qsum (map (fun M => coeff M i j) l).
Proof.
  intros H Hi Hj. induction H as [| M l [Hr Hc] Hl IH].
  - apply coeff_Zero.
  - change (msum r c (M :: l)) with (madd M (msum r c l)).
    rewrite coeff_madd by congruence. rewrite IH. reflexivity.
Qed.

End MatFacts.

(* ===================================================================== *)
(** * Facts about scalars                                                 *)
(* ===================================================================== *)

Module QcFacts.

Import Mat.
Local Open Scope Qc_scope.

Lemma this_plus (a b : Qc) : (this (a + b) == this a + this b)%Q.
Proof. apply Qred_correct. Qed.

Lemma this_opp (a : Qc) : (this (- a) == - this a)%Q.
Proof. unfold Qcopp, Q2Qc. cbn [this]. apply Qred_correct. Qed.

Lemma this_minus (a b : Qc) : (this (a - b) == this a - this b)%Q.
Proof.
  unfold Qcminus, Qcplus, Qcopp, Q2Qc. cbn [this].
  rewrite !Qred_correct. reflexivity.
Qed.

Lemma this_mult (a b : Qc) : (this (a * b) == this a * this b)%Q.
Proof. apply Qred_correct. Qed.

Lemma this_inv (y : Qc) : (this (/ y) == / this y)%Q.
Proof. unfold Qcinv, Q2Qc. cbn [this]. apply Qred_correct. Qed.

Lemma this_div (x y : Qc) : (this (x / y) == this x / this y)%Q.
Proof. unfold Qcdiv. rewrite this_mult, this_inv. reflexivity. Qed.

Lemma this_Q2Qc (q : Q) : (this (Q2Qc q) == q)%Q.
Proof. apply Qred_correct. Qed.

Lemma Qc_ltb_lt a b : Qc_ltb a b = true <-> a < b.
Proof.
  unfold Qc_ltb. rewrite Qclt_alt.
  destruct (a ?= b); split; congruence.
Qed.

Lemma positive_nonzero (x : Qc) : 0 < x -> x <> 0.
Proof. intros H E. symmetry in E. exact (Qclt_not_eq _ _ H E). Qed.

End QcFacts.

(* ===================================================================== *)
(** * Facts about the LQ feedback solver                                  *)
(* ===================================================================== *)

Module LQFacts.

Import Mat LQ MatFacts.
Local Open Scope Qc_scope.

(** ** Loops *)

Lemma for_each_app {St} (l1 l2 : list nat) (body : nat -> St -> Result St) st :
  for_each (l1 ++ l2) body st =
  bind (for_each l1 body st) (for_each l2 body).
Proof.
  revert st. induction l1 as [| i l1 IH]; intros st; cbn; [reflexivity |].
  destruct (body i st); cbn; auto.
Qed.

(** A loop whose body preserves [P] and cannot abort, does not abort and
    preserves [P]. *)
Lemma for_each_total {St} (P : St -> Prop) l (body : nat -> St -> Result St) :
  (forall i s, In i l -> P s -> exists s', body i s = Ok s' /\ P s') ->
  forall st, P st -> exists st', for_each l body st = Ok st' /\ P st'.
Proof.
  induction l as [| i l IH]; intros Hbody st Hst; cbn.
  - eauto.
  - destruct (Hbody i st (or_introl eq_refl) Hst) as [s' [-> Hs']]. cbn.
    apply IH; auto. intros; apply Hbody; auto. now right.
Qed.

Lemma for_each_invariant {St} (P : St -> Prop) l
      (body : nat -> St -> Result St) :
  (forall i s s', In i l -> P s -> body i s = Ok s' -> P s') ->
  forall st st', P st -> for_each l body st = Ok st' -> P st'.
Proof.
  induction l as [| i l IH]; intros Hbody st st' Hst; cbn.
  - now intros [= <-].
  - destruct (body i st) as [s |] eqn:E; cbn; [| discriminate].
    apply IH.
    + intros; eapply Hbody; eauto. now right.
    + eapply Hbody; eauto. now left.
Qed.

(** ** [set_nth] *)

Lemma length_set_nth {T} i (x : T) l : length (set_nth i x l) = length l.
Proof.
  revert i. induction l as [| y l IH]; intros [| i]; cbn; auto.
Qed.

Lemma set_nth_overflow {T} i (x : T) l :
  (length l <= i)%nat -> set_nth i x l = l.
Proof.
  revert i. induction l as [| y l IH]; intros [| i] H; cbn in *;
    try lia; auto. f_equal. apply IH. lia.
Qed.

Lemma nth_set_nth_same {T} i (x dflt : T) l :
  (i < length l)%nat -> nth i (set_nth i x l) dflt = x.
Proof.
  revert i. induction l as [| y l IH]; intros [| i] H; cbn in *;
    try lia; auto. apply IH. lia.
Qed.

Lemma nth_set_nth_other {T} i j (x dflt : T) l :
  i <> j -> nth j (set_nth i x l) dflt = nth j l dflt.
Proof.
  revert i j. induction l as [| y l IH]; intros [| i] [| j] H; cbn;
    auto; try congruence.
Qed.

(** ** When does [Solve] abort? *)

Section Aborts.

Variable householderQr_solve : Matrix -> Matrix -> Matrix.
Variable d : Dynamics.

Lemma populate_S_blocks_result lin quad ii BiZi row l st :
  if negb (existsb (Nat.eqb ii) l) || own_cost_present quad ii
  then exists st', for_each l (populate_S_block d lin quad ii BiZi row) st
                   = Ok st'
  else for_each l (populate_S_block d lin quad ii BiZi row) st
       = Abort CheckOwnControlCost.
Proof.
  revert st. induction l as [| jj l IH]; intros [col Smat]; cbn.
  - eauto.
  - unfold own_cost_present in *.
    destruct (Nat.eqb ii jj) eqn:E; cbn.
    + destruct (find ii (control (nth ii quad empty_quad))) eqn:F; cbn.
      * specialize (IH ((col + UDim d jj)%nat,
                        set_block Smat row col (UDim d ii) (UDim d jj)
                          (madd (mmul BiZi (nth ii (Bs lin) empty_matrix))
                                (hess s)))).
        rewrite orb_true_r in IH. exact IH.
      * reflexivity.
    + apply IH.
Qed.

Lemma existsb_eqb_seq ii n :
  (ii < n)%nat -> existsb (Nat.eqb ii) (seq 0 n) = true.
Proof.
  intros H. apply existsb_exists. exists ii. split.
  - apply in_seq. lia.
  - apply Nat.eqb_refl.
Qed.

Lemma populate_row_result lin quad Zs zetas ii st :
  (ii < NumPlayers d)%nat ->
  if own_cost_present quad ii
  then exists st', populate_row d lin quad Zs zetas ii st = Ok st'
  else populate_row d lin quad Zs zetas ii st = Abort CheckOwnControlCost.
Proof.
  intros Hii. destruct st as [[row Smat] Ymat]. unfold populate_row.
  match goal with
  | |- context [for_each ?l (populate_S_block d lin quad ii ?B ?r) ?s] =>
      pose proof (populate_S_blocks_result lin quad ii B r l s) as H
  end.
  rewrite existsb_eqb_seq in H by assumption. cbn [negb orb] in H.
  destruct (own_cost_present quad ii) eqn:E.
  - destruct H as [[col Smat'] ->]. cbn.
    unfold own_cost_present in E.
    destruct (find ii (control (nth ii quad empty_quad))); [| discriminate].
    cbn. eauto.
  - rewrite H. reflexivity.
Qed.

Lemma populate_S_Y_loop_result lin quad Zs zetas l st :
  (forall ii, In ii l -> (ii < NumPlayers d)%nat) ->
  if forallb (own_cost_present quad) l
  then exists st', for_each l (populate_row d lin quad Zs zetas) st = Ok st'
  else for_each l (populate_row d lin quad Zs zetas) st
       = Abort CheckOwnControlCost.
Proof.
  revert st. induction l as [| ii l IH]; intros st Hl; cbn.
  - eauto.
  - pose proof (populate_row_result lin quad Zs zetas st (Hl ii (or_introl eq_refl)))
      as H.
    destruct (own_cost_present quad ii); cbn.
    + destruct H as [st' ->]. cbn. apply IH. intros; apply Hl; now right.
    + now rewrite H.
Qed.

Lemma populate_S_Y_result lin quad Zs zetas Smat Ymat :
  if forallb (own_cost_present quad) (seq 0 (NumPlayers d))
  then exists st', populate_S_Y d lin quad Zs zetas Smat Ymat = Ok st'
  else populate_S_Y d lin quad Zs zetas Smat Ymat = Abort CheckOwnControlCost.
Proof.
  apply populate_S_Y_loop_result. intros ii Hin. apply in_seq in Hin. lia.
Qed.

Lemma backward_step_result linearization quadraticization kk st :
  if forallb (own_cost_present (nth kk quadraticization []))
             (seq 0 (NumPlayers d))
  then exists st', backward_step householderQr_solve d linearization
                                 quadraticization kk st = Ok st'
  else backward_step householderQr_solve d linearization quadraticization kk st
       = Abort CheckOwnControlCost.
Proof.
  destruct st as [solver strategies]. unfold backward_step.
  match goal with
  | |- context [populate_S_Y d ?lin ?quad ?Zs ?zetas ?S0 ?Y0] =>
      pose proof (populate_S_Y_result lin quad Zs zetas S0 Y0) as H
  end.
  destruct (forallb _ _).
  - destruct H as [[[row Smat] Ymat] ->]. cbn.
    destruct (compute_F_beta _ _ _) as [F beta].
    destruct (update_values _ _ _ _ _ _ _) as [Zs zetas]. eauto.
  - now rewrite H.
Qed.

Lemma backward_pass_result linearization quadraticization ks st :
  if forallb (fun kk => forallb (own_cost_present (nth kk quadraticization []))
                                (seq 0 (NumPlayers d))) ks
  then exists st', backward_pass householderQr_solve d linearization
                                 quadraticization ks st = Ok st'
  else backward_pass householderQr_solve d linearization quadraticization ks st
       = Abort CheckOwnControlCost.
Proof.
  unfold backward_pass. revert st.
  induction ks as [| kk ks IH]; intros st; cbn.
  - eauto.
  - pose proof (backward_step_result linearization quadraticization kk st) as H.
    destruct (forallb _ (seq 0 (NumPlayers d))); cbn.
    + destruct H as [st' ->]. cbn. apply IH.
    + now rewrite H.
Qed.

End Aborts.

(** ** The strategies returned *)

Lemma Forall_set_nth {T} (P : T -> Prop) i x l :
  P x -> Forall P l -> Forall P (set_nth i x l).
Proof.
  intros Hx Hl. revert i. induction Hl as [| y l Hy Hl IH]; intros [| i]; cbn;
    auto.
Qed.

Lemma Forall_nth_default {T} (P : T -> Prop) i l dflt :
  P dflt -> Forall P l -> P (nth i l dflt).
Proof.
  intros Hd Hl. revert i. induction Hl as [| y l Hy Hl IH]; intros [| i]; cbn;
    auto.
Qed.

Lemma set_strategies_sized d X kk n horizon strategies :
  strategies_sized n horizon strategies ->
  strategies_sized n horizon (set_strategies d X kk strategies).
Proof.
  unfold set_strategies.
  generalize (seq 0 (NumPlayers d)) as l. intros l. revert strategies.
  induction l as [| ii l IH]; intros strategies H; cbn; [exact H |].
  apply IH. destruct H as [Hlen Hall]. split.
  - now rewrite length_set_nth.
  - destruct (Nat.lt_ge_cases ii (length strategies)) as [Hii | Hii].
    + apply Forall_set_nth; [| exact Hall]. cbn.
      rewrite !length_set_nth.
      rewrite Forall_forall in Hall. apply Hall. now apply nth_In.
    + now rewrite set_nth_overflow.
Qed.

Lemma backward_step_strategies solve d linearization quadraticization kk
      solver strategies solver' strategies' :
  backward_step solve d linearization quadraticization kk (solver, strategies)
  = Ok (solver', strategies') ->
  strategies' = set_strategies d (X_ solver') kk strategies.
Proof.
  unfold backward_step.
  destruct (populate_S_Y _ _ _ _ _ _ _) as [[[row Smat] Ymat] |]; cbn;
    [| discriminate].
  destruct (compute_F_beta _ _ _) as [F beta].
  destruct (update_values _ _ _ _ _ _ _) as [Zs zetas].
  intros [= <- <-]. reflexivity.
Qed.

Lemma initial_strategies_sized d horizon :
  strategies_sized (NumPlayers d) horizon (initial_strategies d horizon).
Proof.
  unfold initial_strategies. split.
  - now rewrite length_map, length_seq.
  - apply Forall_forall. intros s Hin.
    apply in_map_iff in Hin. destruct Hin as [ii [<- _]]. cbn.
    now rewrite !repeat_length.
Qed.

Lemma backward_pass_sized solve d linearization quadraticization ks n horizon
      st st' :
  strategies_sized n horizon (snd st) ->
  backward_pass solve d linearization quadraticization ks st = Ok st' ->
  strategies_sized n horizon (snd st').
Proof.
  unfold backward_pass.
  apply (for_each_invariant (fun st => strategies_sized n horizon (snd st))).
  intros kk [solver strategies] [solver' strategies'] _ H E. cbn in *.
  rewrite (backward_step_strategies _ _ _ _ _ _ _ E).
  now apply set_strategies_sized.
Qed.

Lemma snd_initial_state d solver quadraticization :
  snd (initial_state d solver quadraticization)
  = initial_strategies d (num_time_steps_ solver).
Proof.
  unfold initial_state. now destruct (terminal_values _ _ _ _).
Qed.

Lemma Solve_outcome solve solver linearization quadraticization :
  match Solve solve solver linearization quadraticization with
  | Ok _ =>
      length linearization = num_time_steps_ solver /\
      length quadraticization = num_time_steps_ solver /\
      own_costs_present (dynamics_ solver) (num_time_steps_ solver)
                        quadraticization = true
  | Abort CheckLinearizationSize =>
      length linearization <> num_time_steps_ solver
  | Abort CheckQuadraticizationSize =>
      length linearization = num_time_steps_ solver /\
      length quadraticization <> num_time_steps_ solver
  | Abort CheckOwnControlCost =>
      length linearization = num_time_steps_ solver /\
      length quadraticization = num_time_steps_ solver /\
      own_costs_present (dynamics_ solver) (num_time_steps_ solver)
                        quadraticization = false
  | Abort AtOutOfRange => False
  end.
Proof.
  unfold Solve.
  destruct (Nat.eqb_spec (length linearization) (num_time_steps_ solver))
    as [E1 | E1]; cbn; [| exact E1].
  destruct (Nat.eqb_spec (length quadraticization) (num_time_steps_ solver))
    as [E2 | E2]; cbn; [| now split].
  pose proof (backward_pass_result solve (dynamics_ solver) linearization
                quadraticization (backward_range (num_time_steps_ solver))
                (initial_state (dynamics_ solver) solver quadraticization))
    as H.
  unfold own_costs_present.
  destruct (forallb _ (backward_range _)).
  - destruct H as [st' ->]. cbn. auto.
  - rewrite H. cbn. auto.
Qed.

(** With consistent lengths and every [R_ii] present, [Solve] returns. *)
Lemma Solve_returns solve solver linearization quadraticization :
  length linearization = num_time_steps_ solver ->
  length quadraticization = num_time_steps_ solver ->
  own_costs_present (dynamics_ solver) (num_time_steps_ solver)
                    quadraticization = true ->
  exists st',
    backward_pass solve (dynamics_ solver) linearization quadraticization
                  (backward_range (num_time_steps_ solver))
                  (initial_state (dynamics_ solver) solver quadraticization)
    = Ok st' /\
    Solve solve solver linearization quadraticization = Ok (snd st').
Proof.
  intros E1 E2 Hown.
  pose proof (Solve_outcome solve solver linearization quadraticization)
    as Hcases.
  unfold Solve in *. rewrite E1, E2, !Nat.eqb_refl in *. cbn in *.
  destruct (backward_pass _ _ _ _ _ _) as [st' |]; cbn in *.
  - eauto.
  - destruct f; try tauto. destruct Hcases as [_ [_ Hc]]. congruence.
Qed.

(** A valid problem has [K] linearizations and [K] quadraticizations. *)
Lemma valid_problem_lengths d K linearization quadraticization :
  LQSpec.valid_problem d K linearization quadraticization = true ->
  length linearization = K /\ length quadraticization = K.
Proof.
  unfold LQSpec.valid_problem. rewrite !andb_true_iff, !Nat.eqb_eq. tauto.
Qed.

(** C5 (as amended).  [Solve] itself detects two configuration errors, at
    solve time and fatally.  A linearization or a quadraticization whose
    length differs from [num_time_steps_] fails the [CHECK_EQ]s at its
    entry, before anything else is read.  On a problem of [K >= 1] steps
    whose matrices have the dimensions of the dynamics, a player cost
    without its own [R_ii] at a time step the backward loop visits fails
    the [CHECK] inside the loop, and in every other case [Solve] returns;
    the exception of [control.at(ii)] is never raised.  Nothing is said
    of matrices of other dimensions, which [Solve] does not check. *)
Theorem Solve_fatal_cases solve solver linearization quadraticization :
  let K := num_time_steps_ solver in
  let d := dynamics_ solver in
  let result := Solve solve solver linearization quadraticization in
  (length linearization <> K -> result = Abort CheckLinearizationSize) /\
  (length linearization = K -> length quadraticization <> K ->
   result = Abort CheckQuadraticizationSize) /\
  (LQSpec.valid_workspace d solver = true ->
   LQSpec.valid_problem d K linearization quadraticization = true ->
   (0 < K)%nat ->
   (own_costs_present d K quadraticization = false ->
    result = Abort CheckOwnControlCost) /\
   (own_costs_present d K quadraticization = true ->
    exists strategies, result = Ok strategies) /\
   result <> Abort AtOutOfRange).
Proof.
  intros K d result.
  pose proof (Solve_outcome solve solver linearization quadraticization) as H.
  fold K d result in H.
  split; [| split].
  - intros Hlen. destruct result as [strategies | f]; [| destruct f];
      try reflexivity; tauto.
  - intros Hlin Hquad. destruct result as [strategies | f]; [| destruct f];
      try reflexivity; tauto.
  - intros _ Hp _.
    destruct (valid_problem_lengths _ _ _ _ Hp) as [Hlin Hquad].
    split; [| split].
    + intros Hown. destruct result as [strategies | f]; [| destruct f];
        try reflexivity; try tauto.
      destruct H as (_ & _ & H). congruence.
    + intros Hown. destruct result as [strategies | f]; [| destruct f];
        try tauto; eauto.
      destruct H as (_ & _ & H). congruence.
    + intros E. rewrite E in H. exact H.
Qed.

(** The theorem on the fixture over three time steps: a valid problem with
    every [R_ii] present, on which [Solve] returns. *)
Lemma Solve_fatal_cases_witness :
  LQSpec.valid_workspace LyapunovTest.dynamics (LyapunovTest.solver_for 3)
  = true /\
  LQSpec.valid_problem LyapunovTest.dynamics 3
                       (repeat LyapunovTest.Linearize 3)
                       (repeat LyapunovTest.quadraticizations 3) = true /\
  (0 < 3)%nat /\
  own_costs_present LyapunovTest.dynamics 3
                    (repeat LyapunovTest.quadraticizations 3) = true /\
  exists strategies,
    Solve exact_solve (LyapunovTest.solver_for 3)
          (repeat LyapunovTest.Linearize 3)
          (repeat LyapunovTest.quadraticizations 3) = Ok strategies.
Proof.
  split; [vm_compute; reflexivity |]. split; [vm_compute; reflexivity |].
  split; [lia |]. split; [vm_compute; reflexivity |].
  destruct (@Solve_fatal_cases exact_solve (LyapunovTest.solver_for 3)
              (repeat LyapunovTest.Linearize 3)
              (repeat LyapunovTest.quadraticizations 3)) as (_ & _ & H).
  destruct H as (_ & H & _);
    [vm_compute; reflexivity | vm_compute; reflexivity | cbn; lia |].
  apply H. vm_compute. reflexivity.
Defined.

(** C5 (as stated) fails: a linearization of the wrong length, and a cost
    without its own [R_00], each make [Solve] itself end fatally. *)
Lemma Solve_aborts_on_configuration_errors :
  Solve exact_solve (LyapunovTest.solver_for 3)
        (repeat LyapunovTest.Linearize 2)
        (repeat LyapunovTest.quadraticizations 3)
  = Abort CheckLinearizationSize /\
  Solve exact_solve (LyapunovTest.solver_for 3)
        (repeat LyapunovTest.Linearize 3)
        (repeat Examples.quadraticizations_without_R00 3)
  = Abort CheckOwnControlCost.
Proof. split; vm_compute; reflexivity. Qed.

(** C1 (as amended).  For every valid input - [K = num_time_steps_ >= 1]
    linearizations and quadraticizations whose matrices have the
    dimensions of the dynamics, every player cost carrying its own
    [R_ii], on a solver with the preallocated workspace - [Solve] returns
    one Strategy per player, and the [Ps] and [alphas] of each are as
    long as the constructor [Strategy(num_time_steps_, xdim, udim)] made
    them: [Solve] writes entries by index and never resizes.  For the
    horizon-length Strategy of the data model that is [K] entries, not
    [K - 1]. *)
Theorem Solve_strategy_lengths solve solver linearization quadraticization :
  let K := num_time_steps_ solver in
  let d := dynamics_ solver in
  LQSpec.valid_workspace d solver = true ->
  LQSpec.valid_problem d K linearization quadraticization = true ->
  (0 < K)%nat ->
  own_costs_present d K quadraticization = true ->
  exists strategies,
    Solve solve solver linearization quadraticization = Ok strategies /\
    length strategies = NumPlayers d /\
    forall i, (i < NumPlayers d)%nat ->
      let constructed := Strategy_ctor K (XDim d) (UDim d i) in
      length (Ps (nth i strategies empty_strategy))
      = length (Ps constructed) /\
      length (alphas (nth i strategies empty_strategy))
      = length (alphas constructed).
Proof.
  intros K d _ Hp _ Hown.
  destruct (valid_problem_lengths _ _ _ _ Hp) as [E1 E2].
  destruct (Solve_returns solve solver linearization quadraticization
                          E1 E2 Hown) as [st' [Epass ->]].
  exists (snd st'). split; [reflexivity |].
  eapply backward_pass_sized in Epass;
    [| rewrite snd_initial_state; apply initial_strategies_sized].
  destruct Epass as [Hlen Hall]. split; [exact Hlen |].
  intros i Hi constructed. subst constructed. cbn [Strategy_ctor Ps alphas].
  rewrite !repeat_length.
  rewrite Forall_forall in Hall. apply Hall. apply nth_In.
  rewrite Hlen. exact Hi.
Qed.

Lemma Solve_strategy_lengths_witness :
  LQSpec.valid_workspace LyapunovTest.dynamics (LyapunovTest.solver_for 3)
  = true /\
  LQSpec.valid_problem LyapunovTest.dynamics 3
                       (repeat LyapunovTest.Linearize 3)
                       (repeat LyapunovTest.quadraticizations 3) = true /\
  (0 < 3)%nat /\
  own_costs_present LyapunovTest.dynamics 3
                    (repeat LyapunovTest.quadraticizations 3) = true /\
  exists strategies,
    Solve exact_solve (LyapunovTest.solver_for 3)
          (repeat LyapunovTest.Linearize 3)
          (repeat LyapunovTest.quadraticizations 3) = Ok strategies /\
    length strategies = 2%nat /\
    length (Ps (nth 1 strategies empty_strategy)) = 3%nat.
Proof.
  split; [vm_compute; reflexivity |]. split; [vm_compute; reflexivity |].
  split; [lia |]. split; [vm_compute; reflexivity |].
  destruct (@Solve_strategy_lengths exact_solve (LyapunovTest.solver_for 3)
              (repeat LyapunovTest.Linearize 3)
              (repeat LyapunovTest.quadraticizations 3))
    as (strategies & E & Hlen & H);
    [vm_compute; reflexivity | vm_compute; reflexivity | cbn; lia
    | vm_compute; reflexivity |].
  exists strategies. split; [exact E |]. split; [exact Hlen |].
  exact (proj1 (H 1%nat ltac:(cbn; lia))).
Defined.

(** C1 (as stated) fails: on a terminal-cost-only problem ([K = 1]), a
    valid input, the returned strategies are not empty: each holds the one
    entry it was constructed with. *)
Lemma Solve_terminal_only_not_empty :
  LQSpec.valid_workspace LyapunovTest.dynamics (LyapunovTest.solver_for 1)
  = true /\
  LQSpec.valid_problem LyapunovTest.dynamics 1 [LyapunovTest.Linearize]
                       [LyapunovTest.quadraticizations] = true /\
  exists s1 s2,
    Solve exact_solve (LyapunovTest.solver_for 1)
          [LyapunovTest.Linearize] [LyapunovTest.quadraticizations]
    = Ok [s1; s2] /\
    length (Ps s1) = 1%nat /\ length (alphas s1) = 1%nat /\
    length (Ps s2) = 1%nat /\ length (alphas s2) = 1%nat /\
    length (Ps s1) <> (1 - 1)%nat.
Proof.
  split; [vm_compute; reflexivity |]. split; [vm_compute; reflexivity |].
  vm_compute. do 2 eexists.
  repeat match goal with |- _ /\ _ => split end; try reflexivity.
  discriminate.
Qed.

End LQFacts.

(* ===================================================================== *)
(** * One step of the backward pass                                       *)
(* ===================================================================== *)

Module LQStepFacts.

Import Mat LQ MatFacts LQFacts.
Local Open Scope Qc_scope.

Section Step.

Variable d : Dynamics.

Lemma wf_Ps_ X j : wf (Ps_ d X j).
Proof. apply wf_block. Qed.
Lemma rows_Ps_ X j : rows (Ps_ d X j) = UDim d j.
Proof. reflexivity. Qed.
Lemma cols_Ps_ X j : cols (Ps_ d X j) = XDim d.
Proof. reflexivity. Qed.
Lemma wf_alphas_ X j : wf (alphas_ d X j).
Proof. apply wf_block. Qed.
Lemma rows_alphas_ X j : rows (alphas_ d X j) = UDim d j.
Proof. reflexivity. Qed.
Lemma cols_alphas_ X j : cols (alphas_ d X j) = 1%nat.
Proof. reflexivity. Qed.

(** *** What validity says *)

Lemma forallb_seq_nth (f : nat -> bool) n i :
  forallb f (seq 0 n) = true -> (i < n)%nat -> f i = true.
Proof.
  rewrite forallb_forall. intros H Hi. apply H. apply in_seq. lia.
Qed.

Lemma forallb_nth {T} (f : T -> bool) l i dflt :
  forallb f l = true -> (i < length l)%nat -> f (nth i l dflt) = true.
Proof.
  rewrite forallb_forall. intros H Hi. apply H. now apply nth_In.
Qed.

Lemma valid_linearization_A lin :
  LQSpec.valid_linearization d lin = true ->
  wf (A lin) /\ rows (A lin) = XDim d /\ cols (A lin) = XDim d.
Proof.
  unfold LQSpec.valid_linearization. rewrite !andb_true_iff.
  intros [[H _] _]. now apply has_dimsb_spec.
Qed.

Lemma valid_linearization_B lin j :
  LQSpec.valid_linearization d lin = true -> (j < NumPlayers d)%nat ->
  wf (LQSpec.B lin j) /\ rows (LQSpec.B lin j) = XDim d /\
  cols (LQSpec.B lin j) = UDim d j.
Proof.
  unfold LQSpec.valid_linearization. rewrite !andb_true_iff.
  intros [_ H] Hj. apply has_dimsb_spec.
  eapply forallb_seq_nth in H; [exact H | exact Hj].
Qed.

Lemma valid_quadraticization_cost quad i :
  LQSpec.valid_quadraticization d quad = true -> (i < NumPlayers d)%nat ->
  LQSpec.valid_cost d (nth i quad empty_quad) = true.
Proof.
  unfold LQSpec.valid_quadraticization. rewrite andb_true_iff, Nat.eqb_eq.
  intros [Hlen H] Hi. apply forallb_nth; [exact H | lia].
Qed.

Lemma valid_cost_state q :
  LQSpec.valid_cost d q = true ->
  (wf (hess (state q)) /\ rows (hess (state q)) = XDim d /\
   cols (hess (state q)) = XDim d) /\
  (wf (grad (state q)) /\ rows (grad (state q)) = XDim d /\
   cols (grad (state q)) = 1%nat).
Proof.
  unfold LQSpec.valid_cost. rewrite !andb_true_iff.
  intros [[[H1 H2] _] _]. split; now apply has_dimsb_spec.
Qed.

Lemma valid_cost_entry q e :
  LQSpec.valid_cost d q = true -> In e (control q) ->
  (fst e < NumPlayers d)%nat /\
  (wf (hess (snd e)) /\ rows (hess (snd e)) = UDim d (fst e) /\
   cols (hess (snd e)) = UDim d (fst e)) /\
  (wf (grad (snd e)) /\ rows (grad (snd e)) = UDim d (fst e) /\
   cols (grad (snd e)) = 1%nat).
Proof.
  unfold LQSpec.valid_cost. rewrite !andb_true_iff.
  intros [[_ H] _] Hin. rewrite forallb_forall in H.
  specialize (H e Hin). rewrite !andb_true_iff in H.
  destruct H as [[H1 H2] H3]. apply Nat.ltb_lt in H1.
  split; [exact H1 |]. split; now apply has_dimsb_spec.
Qed.

Lemma find_distinct {V} (m : PlayerMap V) e :
  LQSpec.distinct (keys m) = true -> In e m -> find (fst e) m = Some (snd e).
Proof.
  induction m as [| [jj v] m IH]; cbn; [tauto |].
  rewrite andb_true_iff, negb_true_iff. intros [Hnot Hd] [<- | Hin]; cbn.
  - now rewrite Nat.eqb_refl.
  - destruct (Nat.eqb_spec jj (fst e)) as [-> | Hne]; [| auto].
    exfalso. unfold keys in *.
    assert (existsb (Nat.eqb (fst e)) (map fst m) = true); [| congruence].
    apply existsb_exists. exists (fst e). split.
    + now apply in_map.
    + apply Nat.eqb_refl.
Qed.

Lemma valid_cost_distinct q :
  LQSpec.valid_cost d q = true -> LQSpec.distinct (keys (control q)) = true.
Proof.
  unfold LQSpec.valid_cost. rewrite !andb_true_iff. tauto.
Qed.

Lemma valid_values_spec Zs zetas i :
  LQSpec.valid_values d Zs zetas = true -> (i < NumPlayers d)%nat ->
  (wf (LQSpec.Z Zs i) /\ rows (LQSpec.Z Zs i) = XDim d /\
   cols (LQSpec.Z Zs i) = XDim d) /\
  (wf (LQSpec.zeta zetas i) /\ rows (LQSpec.zeta zetas i) = XDim d /\
   cols (LQSpec.zeta zetas i) = 1%nat).
Proof.
  unfold LQSpec.valid_values. rewrite !andb_true_iff, !Nat.eqb_eq.
  intros [[[L1 L2] H1] H2] Hi.
  split; apply has_dimsb_spec; apply forallb_nth; auto; lia.
Qed.

Lemma valid_values_lengths Zs zetas :
  LQSpec.valid_values d Zs zetas = true ->
  length Zs = NumPlayers d /\ length zetas = NumPlayers d.
Proof.
  unfold LQSpec.valid_values. rewrite !andb_true_iff, !Nat.eqb_eq. tauto.
Qed.

(** *** Accumulating loops as sums *)

Lemma fold_left_pair {T U V} (f : T -> V -> T) (g : U -> V -> U) l a b :
  fold_left (fun '(x, y) v => (f x v, g y v)) l (a, b)
  = (fold_left f l a, fold_left g l b).
Proof.
  revert a b. induction l as [| v l IH]; intros a b; cbn; auto.
Qed.

Lemma qsum_nil : qsum [] = 0.
Proof. reflexivity. Qed.

Lemma qsum_cons a l : qsum (a :: l) = a + qsum l.
Proof. reflexivity. Qed.

Section Accumulate.

Variable T : Type.
Variable term : T -> Matrix.

Lemma rows_fold_msub l M0 :
  rows (fold_left (fun M x => msub M (term x)) l M0) = rows M0.
Proof. revert M0. induction l; intros M0; cbn; [| rewrite IHl]; auto. Qed.

Lemma cols_fold_msub l M0 :
  cols (fold_left (fun M x => msub M (term x)) l M0) = cols M0.
Proof. revert M0. induction l; intros M0; cbn; [| rewrite IHl]; auto. Qed.

Lemma wf_fold_msub l M0 :
  wf M0 -> wf (fold_left (fun M x => msub M (term x)) l M0).
Proof. revert M0. induction l; intros M0 W; cbn; auto with mwf. Qed.

Lemma coeff_fold_msub l M0 i j :
  (i < rows M0)%nat -> (j < cols M0)%nat ->
  coeff (fold_left (fun M x => msub M (term x)) l M0) i j
  = coeff M0 i j - qsum (map (fun x => coeff (term x) i j) l).
Proof.
  revert M0. induction l as [| x l IH]; intros M0 Hi Hj;
    cbn [fold_left map]; rewrite ?qsum_cons, ?qsum_nil.
  - ring.
  - rewrite IH by (autorewrite with mdims; assumption).
    rewrite coeff_msub by assumption. ring.
Qed.

Lemma rows_fold_madd l M0 :
  rows (fold_left (fun M x => madd M (term x)) l M0) = rows M0.
Proof. revert M0. induction l; intros M0; cbn; [| rewrite IHl]; auto. Qed.

Lemma cols_fold_madd l M0 :
  cols (fold_left (fun M x => madd M (term x)) l M0) = cols M0.
Proof. revert M0. induction l; intros M0; cbn; [| rewrite IHl]; auto. Qed.

Lemma wf_fold_madd l M0 :
  wf M0 -> wf (fold_left (fun M x => madd M (term x)) l M0).
Proof. revert M0. induction l; intros M0 W; cbn; auto with mwf. Qed.

Lemma coeff_fold_madd l M0 i j :
  (i < rows M0)%nat -> (j < cols M0)%nat ->
  coeff (fold_left (fun M x => madd M (term x)) l M0) i j
  = coeff M0 i j + qsum (map (fun x => coeff (term x) i j) l).
Proof.
  revert M0. induction l as [| x l IH]; intros M0 Hi Hj;
    cbn [fold_left map]; rewrite ?qsum_cons, ?qsum_nil.
  - ring.
  - rewrite IH by (autorewrite with mdims; assumption).
    rewrite coeff_madd by assumption. ring.
Qed.

(** Accumulating the terms onto [M0] one at a time adds their sum. *)
Lemma fold_madd_msum l M0 r c :
  wf M0 -> rows M0 = r -> cols M0 = c ->
  Forall (fun x => rows (term x) = r /\ cols (term x) = c) l ->
  fold_left (fun M x => madd M (term x)) l M0
  = madd M0 (msum r c (map term l)).
Proof.
  intros W Hr Hc Hl.
  apply matrix_ext; auto using wf_fold_madd with mwf.
  - now rewrite rows_fold_madd.
  - now rewrite cols_fold_madd.
  - intros i j Hi Hj. rewrite rows_fold_madd in Hi. rewrite cols_fold_madd in Hj.
    rewrite coeff_fold_madd, coeff_madd by assumption.
    rewrite coeff_msum, map_map; try lia.
    + reflexivity.
    + apply Forall_map. exact Hl.
Qed.

Lemma fold_msub_msum l M0 r c :
  wf M0 -> rows M0 = r -> cols M0 = c ->
  Forall (fun x => rows (term x) = r /\ cols (term x) = c) l ->
  fold_left (fun M x => msub M (term x)) l M0
  = msub M0 (msum r c (map term l)).
Proof.
  intros W Hr Hc Hl.
  apply matrix_ext; auto using wf_fold_msub with mwf.
  - now rewrite rows_fold_msub.
  - now rewrite cols_fold_msub.
  - intros i j Hi Hj. rewrite rows_fold_msub in Hi. rewrite cols_fold_msub in Hj.
    rewrite coeff_fold_msub, coeff_msub by assumption.
    rewrite coeff_msum, map_map; try lia.
    + reflexivity.
    + apply Forall_map. exact Hl.
Qed.

End Accumulate.

Lemma Forall_seq (P : nat -> Prop) n :
  (forall i, (i < n)%nat -> P i) -> Forall P (seq 0 n).
Proof.
  intros H. apply Forall_forall. intros i Hi. apply in_seq in Hi. apply H. lia.
Qed.

(** *** [F] and [beta] *)

Lemma compute_F_beta_spec lin X :
  LQSpec.valid_linearization d lin = true ->
  compute_F_beta d lin X
  = (LQSpec.F d lin (Ps_ d X), LQSpec.beta d lin (alphas_ d X)).
Proof.
  intros Hlin. unfold compute_F_beta.
  destruct (valid_linearization_A lin Hlin) as [WA [RA CA]].
  rewrite (fold_left_pair
             (fun F ii => msub F (mmul (nth ii (Bs lin) empty_matrix) (Ps_ d X ii)))
             (fun beta ii => msub beta (mmul (nth ii (Bs lin) empty_matrix)
                                             (alphas_ d X ii)))).
  f_equal.
  - unfold LQSpec.F, LQSpec.B.
    apply (fold_msub_msum
             (fun ii => mmul (nth ii (Bs lin) empty_matrix) (Ps_ d X ii)));
      auto.
    apply Forall_seq. intros j Hj.
    destruct (valid_linearization_B lin Hlin Hj) as [_ [RB _]].
    autorewrite with mdims. split; [exact RB | reflexivity].
  - unfold LQSpec.beta, LQSpec.B.
    rewrite (fold_msub_msum
               (fun ii => mmul (nth ii (Bs lin) empty_matrix) (alphas_ d X ii))
               (r := XDim d) (c := 1%nat)); auto with mwf.
    + assert (Hdims : Forall (fun M => rows M = XDim d /\ cols M = 1%nat)
                        (map (fun ii => mmul (nth ii (Bs lin) empty_matrix)
                                             (alphas_ d X ii))
                             (seq 0 (NumPlayers d)))).
      { apply Forall_map. apply Forall_seq. intros j Hj.
        destruct (valid_linearization_B lin Hlin Hj) as [_ [RB _]].
        autorewrite with mdims. split; [exact RB | reflexivity]. }
      assert (Hr : rows (msum (XDim d) 1
                     (map (fun ii => mmul (nth ii (Bs lin) empty_matrix)
                                          (alphas_ d X ii))
                          (seq 0 (NumPlayers d)))) = XDim d).
      { apply rows_msum. eapply Forall_impl; [| exact Hdims]. cbn; tauto. }
      assert (Hc : cols (msum (XDim d) 1
                     (map (fun ii => mmul (nth ii (Bs lin) empty_matrix)
                                          (alphas_ d X ii))
                          (seq 0 (NumPlayers d)))) = 1%nat).
      { apply cols_msum. eapply Forall_impl; [| exact Hdims]. cbn; tauto. }
      mat_ext i j Hi Hj.
      rewrite coeff_msub, coeff_mscale, coeff_Zero
        by (autorewrite with mdims; rewrite ?Hr, ?Hc; lia).
      ring.
    + apply Forall_seq. intros j Hj.
      destruct (valid_linearization_B lin Hlin Hj) as [_ [RB _]].
      autorewrite with mdims. split; [exact RB | reflexivity].
Qed.


Lemma F_dims lin P :
  LQSpec.valid_linearization d lin = true ->
  wf (LQSpec.F d lin P) /\ rows (LQSpec.F d lin P) = XDim d /\
  cols (LQSpec.F d lin P) = XDim d.
Proof.
  intros Hlin. destruct (valid_linearization_A lin Hlin) as [WA [RA CA]].
  unfold LQSpec.F. autorewrite with mdims. auto with mwf.
Qed.

(** *** The value update of one player *)

Lemma update_value_spec lin quad Zs zetas X i :
  LQSpec.valid_linearization d lin = true ->
  LQSpec.valid_quadraticization d quad = true ->
  LQSpec.valid_values d Zs zetas = true ->
  (i < NumPlayers d)%nat ->
  update_value d X (LQSpec.F d lin (Ps_ d X)) (LQSpec.beta d lin (alphas_ d X))
               (nth i quad empty_quad)
               (nth i Zs empty_matrix) (nth i zetas empty_matrix)
  = (LQSpec.Z_update d lin quad Zs (Ps_ d X) i,
     LQSpec.zeta_update d lin quad Zs zetas (Ps_ d X) (alphas_ d X) i).
Proof.
  intros Hlin Hquad Hval Hi.
  destruct (F_dims lin (Ps_ d X) Hlin) as [WF [RF CF]].
  pose proof (valid_quadraticization_cost quad Hquad Hi) as Hcost.
  destruct (valid_cost_state _ Hcost) as [[WQ [RQ CQ]] [Wl [Rl Cl]]].
  destruct (valid_values_spec Zs zetas Hval Hi)
    as [[WZ [RZ CZ]] [Wz [Rz Cz]]].
  unfold LQSpec.Z, LQSpec.zeta in *.
  pose proof (valid_cost_distinct _ Hcost) as Hdist.
  unfold update_value.
  set (q := nth i quad empty_quad) in *.
  set (Fm := LQSpec.F d lin (Ps_ d X)) in *.
  set (bm := LQSpec.beta d lin (alphas_ d X)) in *.
  change (fold_left _ (control q) ?init)
    with (fold_left
            (fun '(Zi, zetai) e =>
               ((fun Zi e => madd Zi (mmul (mmul (transpose (Ps_ d X (fst e)))
                                                 (hess (snd e)))
                                           (Ps_ d X (fst e)))) Zi e,
                (fun zetai e =>
                   madd zetai
                        (mmul (transpose (Ps_ d X (fst e)))
                              (msub (mmul (hess (snd e)) (alphas_ d X (fst e)))
                                    (grad (snd e))))) zetai e))
            (control q) init).
  rewrite fold_left_pair.
  f_equal.
  - (* Z *)
    unfold LQSpec.Z_update, LQSpec.Z, LQSpec.Q, LQSpec.players_of, keys.
    fold q. fold Fm.
    rewrite (@fold_madd_msum _ _ _ _ (XDim d) (XDim d));
      [ | auto with mwf | autorewrite with mdims; congruence
        | autorewrite with mdims; congruence | ].
    + rewrite mmul_assoc by (autorewrite with mdims; congruence).
      f_equal. f_equal. rewrite map_map. apply map_ext_in. intros e He.
      destruct (valid_cost_entry _ _ Hcost He) as [Hlt [[WR [RR CR]] _]].
      unfold LQSpec.R. fold q. rewrite (find_distinct _ _ Hdist He).
      apply mmul_assoc; unfold Ps_; autorewrite with mdims; congruence.
    + apply Forall_forall. intros e He. unfold Ps_.
      autorewrite with mdims. auto.
  - (* zeta *)
    unfold LQSpec.zeta_update, LQSpec.Z, LQSpec.zeta, LQSpec.l,
      LQSpec.players_of, keys.
    fold q. fold Fm. fold bm.
    rewrite (@fold_madd_msum _ _ _ _ (XDim d) 1%nat);
      [ | auto with mwf | autorewrite with mdims; congruence
        | autorewrite with mdims; congruence | ].
    + f_equal. f_equal. rewrite map_map. apply map_ext_in. intros e He.
      unfold LQSpec.R, LQSpec.r. fold q.
      rewrite (find_distinct _ _ Hdist He). reflexivity.
    + apply Forall_forall. intros e He. unfold Ps_, alphas_.
      autorewrite with mdims. auto.
Qed.

(** *** The loop over the players' value functions *)

Lemma update_values_loop X F beta quad l :
  NoDup l ->
  forall Zs zetas,
    (forall i, In i l -> (i < length Zs)%nat /\ (i < length zetas)%nat) ->
    let res :=
      fold_left
        (fun '(Zs, zetas) ii =>
           let '(Zi, zetai) :=
             update_value d X F beta (nth ii quad empty_quad)
                          (nth ii Zs empty_matrix) (nth ii zetas empty_matrix) in
           (set_nth ii Zi Zs, set_nth ii zetai zetas))
        l (Zs, zetas) in
    length (fst res) = length Zs /\ length (snd res) = length zetas /\
    forall i,
      (In i l ->
       (nth i (fst res) empty_matrix, nth i (snd res) empty_matrix)
       = update_value d X F beta (nth i quad empty_quad)
                      (nth i Zs empty_matrix) (nth i zetas empty_matrix)) /\
      (~ In i l ->
       nth i (fst res) empty_matrix = nth i Zs empty_matrix /\
       nth i (snd res) empty_matrix = nth i zetas empty_matrix).
Proof.
  induction 1 as [| ii l Hnotin Hnodup IH]; intros Zs zetas Hlen; cbn zeta.
  - cbn. repeat split; tauto.
  - cbn [fold_left].
    destruct (update_value d X F beta (nth ii quad empty_quad)
                           (nth ii Zs empty_matrix) (nth ii zetas empty_matrix))
      as [Zi zetai] eqn:E.
    destruct (Hlen ii (or_introl eq_refl)) as [HZ Hz].
    specialize (IH (set_nth ii Zi Zs) (set_nth ii zetai zetas)).
    cbn zeta in IH. rewrite !length_set_nth in IH.
    destruct IH as [L1 [L2 IH]].
    { intros i Hi. apply Hlen. now right. }
    split; [exact L1 |]. split; [exact L2 |].
    intros i. destruct (IH i) as [Hin Hout]. split.
    + intros [<- | Hi].
      * destruct (Hout Hnotin) as [-> ->].
        now rewrite !nth_set_nth_same by assumption.
      * rewrite (Hin Hi).
        assert (ii <> i) by (intros ->; contradiction).
        now rewrite !nth_set_nth_other by assumption.
    + intros Hni. destruct Hout as [-> ->].
      * intros Hi. apply Hni. now right.
      * assert (ii <> i) by (intros ->; apply Hni; now left).
        now rewrite !nth_set_nth_other by assumption.
Qed.

Lemma update_values_spec lin quad Zs zetas X Zs' zetas' :
  LQSpec.valid_linearization d lin = true ->
  LQSpec.valid_quadraticization d quad = true ->
  LQSpec.valid_values d Zs zetas = true ->
  update_values d X (LQSpec.F d lin (Ps_ d X)) (LQSpec.beta d lin (alphas_ d X))
                quad Zs zetas = (Zs', zetas') ->
  length Zs' = NumPlayers d /\ length zetas' = NumPlayers d /\
  forall i, (i < NumPlayers d)%nat ->
    nth i Zs' empty_matrix = LQSpec.Z_update d lin quad Zs (Ps_ d X) i /\
    nth i zetas' empty_matrix
    = LQSpec.zeta_update d lin quad Zs zetas (Ps_ d X) (alphas_ d X) i.
Proof.
  intros Hlin Hquad Hval E.
  destruct (valid_values_lengths Zs zetas Hval) as [LZ Lz].
  pose proof (@update_values_loop X (LQSpec.F d lin (Ps_ d X))
                (LQSpec.beta d lin (alphas_ d X)) quad
                (seq 0 (NumPlayers d)) (seq_NoDup _ _) Zs zetas) as H.
  cbn zeta in H. unfold update_values in E. rewrite E in H. cbn [fst snd] in H.
  destruct H as [L1 [L2 H]].
  { intros i Hi. apply in_seq in Hi. lia. }
  split; [congruence |]. split; [congruence |].
  intros i Hi. destruct (H i) as [Hin _].
  assert (Hmem : In i (seq 0 (NumPlayers d))) by (apply in_seq; lia).
  specialize (Hin Hmem).
  rewrite (update_value_spec lin quad Zs zetas X Hlin Hquad Hval Hi) in Hin.
  now injection Hin.
Qed.

(** *** The pieces of one backward step *)

Lemma backward_step_inv solve linearization quadraticization kk
      solver strategies solver' strategies' :
  backward_step solve d linearization quadraticization kk (solver, strategies)
  = Ok (solver', strategies') ->
  let lin := nth kk linearization (mkLinearization empty_matrix []) in
  let quad := nth kk quadraticization [] in
  (exists row,
      populate_S_Y d lin quad (Zs_ solver) (zetas_ solver)
                   (S_ solver) (Y_ solver)
      = Ok (row, S_ solver', Y_ solver')) /\
  X_ solver' = solve (S_ solver') (Y_ solver') /\
  (F_ solver', beta_ solver') = compute_F_beta d lin (X_ solver') /\
  (Zs_ solver', zetas_ solver')
  = update_values d (X_ solver') (F_ solver') (beta_ solver') quad
                  (Zs_ solver) (zetas_ solver) /\
  strategies' = set_strategies d (X_ solver') kk strategies /\
  dynamics_ solver' = dynamics_ solver /\
  num_time_steps_ solver' = num_time_steps_ solver.
Proof.
  unfold backward_step.
  destruct (populate_S_Y _ _ _ _ _ _ _) as [[[row Smat] Ymat] |]; cbn;
    [| discriminate].
  destruct (compute_F_beta _ _ _) as [F beta] eqn:EF.
  destruct (update_values _ _ _ _ _ _ _) as [Zs zetas] eqn:EU.
  intros [= <- <-]. cbn. rewrite EF, EU. repeat split; eauto.
Qed.

Lemma backward_step_values solve linearization quadraticization kk
        solver strategies solver' strategies' :
  let lin := nth kk linearization (mkLinearization empty_matrix []) in
  let quad := nth kk quadraticization [] in
  LQSpec.valid_linearization d lin = true ->
  LQSpec.valid_quadraticization d quad = true ->
  LQSpec.valid_values d (Zs_ solver) (zetas_ solver) = true ->
  backward_step solve d linearization quadraticization kk (solver, strategies)
  = Ok (solver', strategies') ->
  let P := Ps_ d (X_ solver') in
  let alpha := alphas_ d (X_ solver') in
  F_ solver' = LQSpec.F d lin P /\
  beta_ solver' = LQSpec.beta d lin alpha /\
  forall i, (i < NumPlayers d)%nat ->
    nth i (zetas_ solver') empty_matrix
    = LQSpec.zeta_update d lin quad (Zs_ solver) (zetas_ solver) P alpha i /\
    nth i (Zs_ solver') empty_matrix
    = LQSpec.Z_update d lin quad (Zs_ solver) P i.
Proof.
  intros lin quad Hlin Hquad Hval E P alpha.
  destruct (backward_step_inv _ _ _ _ _ _ E) as [_ [_ [EF [EU _]]]].
  fold lin quad in EF, EU.
  rewrite (compute_F_beta_spec lin (X_ solver') Hlin) in EF.
  injection EF as EF Eb. rewrite EF, Eb in EU. symmetry in EU.
  destruct (update_values_spec lin quad _ _ _ Hlin Hquad Hval EU)
    as [_ [_ H]].
  split; [exact EF |]. split; [exact Eb |].
  intros i Hi. destruct (H i Hi) as [HZ Hz]. split; assumption.
Qed.

(** C3.  At a backward-pass step, with [P_j] and [alpha_j] the gains
    extracted from the solution [X] of that step: the closed-loop matrix is
    [F = A - sum_j B_j P_j], the drift is [beta = - sum_j B_j alpha_j], and
    every player's value function is updated to
    [zeta_i = F^T (zeta_i + Z_i beta) + l_i + sum_j P_j^T (R_ij alpha_j - r_ij)]
    and [Z_i = F^T Z_i F + Q_i + sum_j P_j^T R_ij P_j], the sums ranging over
    the players [j] for which player [i]'s cost has an entry. *)
Theorem backward_step_backpropagates solve linearization quadraticization kk
        solver strategies solver' strategies' :
  let lin := nth kk linearization (mkLinearization empty_matrix []) in
  let quad := nth kk quadraticization [] in
  LQSpec.valid_linearization d lin = true ->
  LQSpec.valid_quadraticization d quad = true ->
  LQSpec.valid_values d (Zs_ solver) (zetas_ solver) = true ->
  backward_step solve d linearization quadraticization kk (solver, strategies)
  = Ok (solver', strategies') ->
  let P := Ps_ d (X_ solver') in
  let alpha := alphas_ d (X_ solver') in
  F_ solver' = LQSpec.F d lin P /\
  beta_ solver' = LQSpec.beta d lin alpha /\
  forall i, (i < NumPlayers d)%nat ->
    nth i (zetas_ solver') empty_matrix
    = LQSpec.zeta_update d lin quad (Zs_ solver) (zetas_ solver) P alpha i /\
    nth i (Zs_ solver') empty_matrix
    = LQSpec.Z_update d lin quad (Zs_ solver) P i.
Proof.
  intros lin quad Hlin Hquad Hval E.
  exact (backward_step_values solve linearization quadraticization kk
           solver strategies Hlin Hquad Hval E).
Qed.

(** *** Populating [S] and [Y] *)

Lemma cumulative_udim_S ii :
  cumulative_udim d (S ii) = (cumulative_udim d ii + UDim d ii)%nat.
Proof.
  unfold cumulative_udim. now rewrite seq_S, fold_left_app.
Qed.

Lemma cumulative_udim_mono i j :
  (i <= j)%nat -> (cumulative_udim d i <= cumulative_udim d j)%nat.
Proof.
  induction 1 as [| j Hle IH]; [lia |]. rewrite cumulative_udim_S. lia.
Qed.

Section Row.

Variable lin : LinearDynamicsApproximation.
Variable quad : list QuadraticCostApproximation.
Variable Zs : list Matrix.
Variable ii : nat.
Variable row : nat.
Hypothesis Hown : own_cost_present quad ii = true.

Let BiZi : Matrix :=
  mmul (transpose (nth ii (Bs lin) empty_matrix)) (nth ii Zs empty_matrix).
Let written (jj : nat) : Matrix := LQSpec.S_block lin quad Zs ii jj.

Lemma populate_S_block_eq jj col Smat :
  populate_S_block d lin quad ii BiZi row jj (col, Smat)
  = Ok ((col + UDim d jj)%nat,
        set_block Smat row col (UDim d ii) (UDim d jj) (written jj)).
Proof.
  unfold populate_S_block, written, LQSpec.S_block, LQSpec.R, LQSpec.B,
    LQSpec.Z, BiZi.
  unfold own_cost_present in Hown.
  destruct (find ii (control (nth ii quad empty_quad))); [| discriminate].
  destruct (Nat.eqb ii jj); reflexivity.
Qed.

Lemma populate_S_blocks_spec len :
  forall a Smat,
    (row + UDim d ii <= rows Smat)%nat ->
    (cumulative_udim d (a + len) <= cols Smat)%nat ->
    exists Smat',
      for_each (seq a len) (populate_S_block d lin quad ii BiZi row)
               (cumulative_udim d a, Smat)
      = Ok (cumulative_udim d (a + len), Smat') /\
      rows Smat' = rows Smat /\ cols Smat' = cols Smat /\
      (forall jj i j,
          (a <= jj < a + len)%nat -> (i < UDim d ii)%nat ->
          (j < UDim d jj)%nat ->
          coeff Smat' (row + i) (cumulative_udim d jj + j)
          = coeff (written jj) i j) /\
      (forall r c,
          (r < rows Smat)%nat -> (c < cols Smat)%nat ->
          (r < row \/ row + UDim d ii <= r \/ c < cumulative_udim d a \/
           cumulative_udim d (a + len) <= c)%nat ->
          coeff Smat' r c = coeff Smat r c).
Proof.
  induction len as [| len IH]; intros a Smat Hr Hc.
  - exists Smat. rewrite Nat.add_0_r. cbn. repeat split; auto. intros; lia.
  - cbn [seq for_each]. rewrite populate_S_block_eq. cbn [bind].
    rewrite <- cumulative_udim_S.
    set (S1 := set_block Smat row (cumulative_udim d a) (UDim d ii)
                         (UDim d a) (written a)).
    assert (Hca : (cumulative_udim d (S a) <= cols Smat)%nat).
    { etransitivity; [| exact Hc]. apply cumulative_udim_mono. lia. }
    destruct (IH (S a) S1) as [Smat' [E [R' [C' [Hin Hout]]]]].
    { exact Hr. }
    { unfold S1. rewrite cols_set_block.
      replace (S a + len)%nat with (a + S len)%nat by lia. exact Hc. }
    exists Smat'. replace (a + S len)%nat with (S a + len)%nat by lia.
    split; [exact E |]. split; [exact R' |]. split; [exact C' |].
    unfold S1 in *. rewrite rows_set_block in *. rewrite cols_set_block in *.
    pose proof (cumulative_udim_S a) as E1.
    assert (M2 : (cumulative_udim d (S a) <= cumulative_udim d (S a + len))%nat)
      by (apply cumulative_udim_mono; lia).
    split.
    + intros jj i j Hjj Hi Hj.
      destruct (Nat.eq_dec jj a) as [-> | Hne].
      * rewrite Hout by lia.
        apply coeff_set_block_inside; lia.
      * apply Hin; try assumption. lia.
    + intros r c Hrr Hcc Hpos.
      rewrite Hout by lia.
      rewrite coeff_set_block_outside by lia.
      now rewrite coeff_tabulate.
Qed.

End Row.

Lemma own_cost_present_find quad ii :
  own_cost_present quad ii = true ->
  exists own, find ii (control (nth ii quad empty_quad)) = Some own.
Proof.
  unfold own_cost_present.
  destruct (find ii (control (nth ii quad empty_quad))); [eauto | discriminate].
Qed.

Section Rows.

Variable lin : LinearDynamicsApproximation.
Variable quad : list QuadraticCostApproximation.
Variables Zs zetas : list Matrix.

Lemma populate_row_spec ii Smat Ymat :
  (ii < NumPlayers d)%nat ->
  own_cost_present quad ii = true ->
  rows Smat = TotalUDim d -> cols Smat = TotalUDim d ->
  exists Smat',
    populate_row d lin quad Zs zetas ii (cumulative_udim d ii, Smat, Ymat)
    = Ok (cumulative_udim d (S ii), Smat',
          set_block
            (set_block Ymat (cumulative_udim d ii) 0 (UDim d ii) (XDim d)
                       (LQSpec.Y_block_state lin Zs ii))
            (cumulative_udim d ii) (XDim d) (UDim d ii) 1
            (LQSpec.Y_block_last lin quad zetas ii)) /\
    rows Smat' = rows Smat /\ cols Smat' = cols Smat /\
    (forall jj i j,
        (jj < NumPlayers d)%nat -> (i < UDim d ii)%nat -> (j < UDim d jj)%nat ->
        coeff Smat' (cumulative_udim d ii + i) (cumulative_udim d jj + j)
        = coeff (LQSpec.S_block lin quad Zs ii jj) i j) /\
    (forall r c,
        (r < rows Smat)%nat -> (c < cols Smat)%nat ->
        (r < cumulative_udim d ii \/ cumulative_udim d (S ii) <= r)%nat ->
        coeff Smat' r c = coeff Smat r c).
Proof.
  intros Hii Hown RS CS.
  assert (Hrow : (cumulative_udim d ii + UDim d ii <= rows Smat)%nat).
  { rewrite RS, <- cumulative_udim_S. apply cumulative_udim_mono. lia. }
  destruct (@populate_S_blocks_spec lin quad Zs ii (cumulative_udim d ii) Hown
              (NumPlayers d) 0%nat Smat Hrow)
    as [Smat' [E [R' [C' [Hin Hout]]]]].
  { rewrite CS. apply Nat.le_refl. }
  exists Smat'. split.
  - unfold populate_row.
    change (cumulative_udim d 0) with 0%nat in E. rewrite E. cbn [bind].
    destruct (own_cost_present_find _ _ Hown) as [own Hfind].
    unfold LQSpec.Y_block_last, LQSpec.Y_block_state, LQSpec.r, LQSpec.B,
      LQSpec.Z, LQSpec.zeta.
    rewrite Hfind. cbn [bind]. rewrite cumulative_udim_S. reflexivity.
  - split; [exact R' |]. split; [exact C' |]. split.
    + intros jj i j Hjj Hi Hj. apply Hin; auto. lia.
    + intros r c Hr Hc Hpos. apply Hout; auto.
      rewrite cumulative_udim_S in Hpos. lia.
Qed.

Lemma populate_S_Y_loop_spec len :
  forall a Smat Ymat,
    (a + len <= NumPlayers d)%nat ->
    (forall ii, (a <= ii < a + len)%nat -> own_cost_present quad ii = true) ->
    rows Smat = TotalUDim d -> cols Smat = TotalUDim d ->
    rows Ymat = TotalUDim d -> cols Ymat = (XDim d + 1)%nat ->
    exists Smat' Ymat',
      for_each (seq a len) (populate_row d lin quad Zs zetas)
               (cumulative_udim d a, Smat, Ymat)
      = Ok (cumulative_udim d (a + len), Smat', Ymat') /\
      (rows Smat' = TotalUDim d /\ cols Smat' = TotalUDim d /\
       rows Ymat' = TotalUDim d /\ cols Ymat' = (XDim d + 1)%nat) /\
      (forall ii jj i j,
          (a <= ii < a + len)%nat -> (jj < NumPlayers d)%nat ->
          (i < UDim d ii)%nat -> (j < UDim d jj)%nat ->
          coeff Smat' (cumulative_udim d ii + i) (cumulative_udim d jj + j)
          = coeff (LQSpec.S_block lin quad Zs ii jj) i j) /\
      (forall ii i j,
          (a <= ii < a + len)%nat -> (i < UDim d ii)%nat -> (j < XDim d)%nat ->
          coeff Ymat' (cumulative_udim d ii + i) j
          = coeff (LQSpec.Y_block_state lin Zs ii) i j) /\
      (forall ii i,
          (a <= ii < a + len)%nat -> (i < UDim d ii)%nat ->
          coeff Ymat' (cumulative_udim d ii + i) (XDim d)
          = coeff (LQSpec.Y_block_last lin quad zetas ii) i 0) /\
      (forall r c,
          (r < TotalUDim d)%nat -> (c < TotalUDim d)%nat ->
          (r < cumulative_udim d a \/ cumulative_udim d (a + len) <= r)%nat ->
          coeff Smat' r c = coeff Smat r c) /\
      (forall r c,
          (r < TotalUDim d)%nat -> (c < XDim d + 1)%nat ->
          (r < cumulative_udim d a \/ cumulative_udim d (a + len) <= r)%nat ->
          coeff Ymat' r c = coeff Ymat r c).
Proof.
  induction len as [| len IH]; intros a Smat Ymat Hle Hown RS CS RY CY.
  - exists Smat, Ymat. rewrite Nat.add_0_r. cbn.
    repeat split; auto; intros; lia.
  - cbn [seq for_each].
    assert (Howna : own_cost_present quad a = true) by (apply Hown; lia).
    assert (Hlt : (a < NumPlayers d)%nat) by lia.
    destruct (@populate_row_spec a Smat Ymat Hlt Howna RS CS)
      as [S1 [E1 [R1 [C1 [Hin1 Hout1]]]]].
    rewrite E1. cbn [bind].
    set (Y0 := set_block Ymat (cumulative_udim d a) 0 (UDim d a) (XDim d)
                         (LQSpec.Y_block_state lin Zs a)) in *.
    set (Y1 := set_block Y0 (cumulative_udim d a) (XDim d) (UDim d a) 1
                         (LQSpec.Y_block_last lin quad zetas a)) in *.
    assert (Hle' : (S a + len <= NumPlayers d)%nat) by lia.
    assert (Hown' : forall ii, (S a <= ii < S a + len)%nat ->
                               own_cost_present quad ii = true)
      by (intros ii Hii; apply Hown; lia).
    assert (RS1 : rows S1 = TotalUDim d) by congruence.
    assert (CS1 : cols S1 = TotalUDim d) by congruence.
    destruct (IH (S a) S1 Y1 Hle' Hown' RS1 CS1 RY CY)
      as [Smat' [Ymat' [E [[RS' [CS' [RY' CY']]] [HS [HYs [HYl [FS FY]]]]]]]].
    exists Smat', Ymat'.
    replace (a + S len)%nat with (S a + len)%nat by lia.
    split; [exact E |]. split; [auto |].
    pose proof (cumulative_udim_S a) as Ea.
    assert (M1 : (cumulative_udim d (S a) <= cumulative_udim d (S a + len))%nat)
      by (apply cumulative_udim_mono; lia).
    assert (M2 : (cumulative_udim d (S a + len) <= TotalUDim d)%nat)
      by (apply cumulative_udim_mono; lia).
    assert (Hcol : forall jj j, (jj < NumPlayers d)%nat -> (j < UDim d jj)%nat ->
                                (cumulative_udim d jj + j < TotalUDim d)%nat).
    { intros jj j Hjj Hj.
      assert (cumulative_udim d (S jj) <= TotalUDim d)%nat
        by (apply cumulative_udim_mono; lia).
      rewrite cumulative_udim_S in *. lia. }
    assert (RY0 : rows Y0 = TotalUDim d) by exact RY.
    assert (CY0 : cols Y0 = (XDim d + 1)%nat) by exact CY.
    repeat split.
    + intros ii jj i j Hii Hjj Hi Hj.
      destruct (Nat.eq_dec ii a) as [-> | Hne].
      * rewrite FS by (auto; lia). apply Hin1; assumption.
      * apply HS; auto. lia.
    + intros ii i j Hii Hi Hj.
      destruct (Nat.eq_dec ii a) as [-> | Hne].
      * rewrite FY by lia. unfold Y1.
        rewrite coeff_set_block_outside by lia.
        rewrite coeff_tabulate by lia. unfold Y0.
        pose proof (@coeff_set_block_inside Ymat (cumulative_udim d a) 0
                      (UDim d a) (XDim d) (LQSpec.Y_block_state lin Zs a) i j)
          as H0.
        rewrite Nat.add_0_l in H0. apply H0; lia.
      * apply HYs; auto. lia.
    + intros ii i Hii Hi.
      destruct (Nat.eq_dec ii a) as [-> | Hne].
      * rewrite FY by lia. unfold Y1.
        pose proof (@coeff_set_block_inside Y0 (cumulative_udim d a) (XDim d)
                      (UDim d a) 1 (LQSpec.Y_block_last lin quad zetas a) i 0)
          as H0.
        rewrite Nat.add_0_r in H0. apply H0; lia.
      * apply HYl; auto. lia.
    + intros r c Hr Hc Hpos.
      rewrite FS by lia. apply Hout1; lia.
    + intros r c Hr Hc Hpos.
      rewrite FY by lia. unfold Y1.
      rewrite coeff_set_block_outside by lia.
      rewrite coeff_tabulate by lia. unfold Y0.
      rewrite coeff_set_block_outside by lia.
      now rewrite coeff_tabulate by lia.
Qed.


End Rows.

(** *** The gains stored in [strategies] *)

Lemma set_strategies_loop X kk l :
  NoDup l ->
  forall strategies,
    (forall i, In i l -> (i < length strategies)%nat) ->
    let res :=
      fold_left
        (fun strategies ii =>
           let s := nth ii strategies empty_strategy in
           set_nth ii (mkStrategy (set_nth kk (Ps_ d X ii) (Ps s))
                                  (set_nth kk (alphas_ d X ii) (alphas s)))
                   strategies)
        l strategies in
    length res = length strategies /\
    forall i,
      (In i l ->
       nth i res empty_strategy
       = mkStrategy
           (set_nth kk (Ps_ d X i) (Ps (nth i strategies empty_strategy)))
           (set_nth kk (alphas_ d X i)
                    (alphas (nth i strategies empty_strategy)))) /\
      (~ In i l -> nth i res empty_strategy = nth i strategies empty_strategy).
Proof.
  induction 1 as [| ii l Hnotin Hnodup IH]; intros strategies Hlen; cbn zeta.
  - cbn. split; [reflexivity |]. intros i; split; tauto.
  - cbn [fold_left].
    set (s1 := set_nth ii _ strategies).
    specialize (IH s1). cbn zeta in IH.
    assert (L1 : length s1 = length strategies) by apply length_set_nth.
    destruct IH as [L IH].
    { intros i Hi. rewrite L1. apply Hlen. now right. }
    split; [congruence |].
    intros i. destruct (IH i) as [Hin Hout]. split.
    + intros [<- | Hi].
      * rewrite (Hout Hnotin). unfold s1.
        apply nth_set_nth_same. apply Hlen. now left.
      * rewrite (Hin Hi).
        assert (ii <> i) by (intros ->; contradiction).
        unfold s1. now rewrite !nth_set_nth_other by assumption.
    + intros Hni. rewrite Hout by (intros Hi; apply Hni; now right).
      assert (ii <> i) by (intros ->; apply Hni; now left).
      unfold s1. now rewrite nth_set_nth_other by assumption.
Qed.

Lemma set_strategies_nth X kk strategies i :
  (NumPlayers d <= length strategies)%nat -> (i < NumPlayers d)%nat ->
  nth i (set_strategies d X kk strategies) empty_strategy
  = mkStrategy (set_nth kk (Ps_ d X i) (Ps (nth i strategies empty_strategy)))
               (set_nth kk (alphas_ d X i)
                        (alphas (nth i strategies empty_strategy))).
Proof.
  intros Hlen Hi.
  destruct (@set_strategies_loop X kk (seq 0 (NumPlayers d)) (seq_NoDup _ _)
              strategies) as [_ H].
  - intros j Hj. apply in_seq in Hj. lia.
  - apply H. apply in_seq. lia.
Qed.

Lemma valid_workspace_spec solver :
  LQSpec.valid_workspace d solver = true ->
  rows (S_ solver) = TotalUDim d /\ cols (S_ solver) = TotalUDim d /\
  rows (Y_ solver) = TotalUDim d /\ cols (Y_ solver) = (XDim d + 1)%nat /\
  length (Zs_ solver) = NumPlayers d /\ length (zetas_ solver) = NumPlayers d.
Proof.
  unfold LQSpec.valid_workspace. rewrite !andb_true_iff, !Nat.eqb_eq. tauto.
Qed.

Lemma populate_S_Y_owns lin quad Zs zetas Smat Ymat st :
  populate_S_Y d lin quad Zs zetas Smat Ymat = Ok st ->
  forall ii, (ii < NumPlayers d)%nat -> own_cost_present quad ii = true.
Proof.
  intros E ii Hii.
  pose proof (populate_S_Y_result d lin quad Zs zetas Smat Ymat) as H.
  destruct (forallb _ _) eqn:F; [| congruence].
  eapply forallb_seq_nth in F; eauto.
Qed.

(** C4.  At a backward-pass step the linear system [S X = Y] that is
    solved has the diagonal blocks [S_ii = B_i^T Z_i B_i + R_ii], the
    off-diagonal blocks [S_ij = B_i^T Z_i B_j], and the right-hand side rows
    [Y_i[:, 0:n] = B_i^T Z_i A] and [Y_i[:, n] = B_i^T zeta_i + r_ii]; [X] is
    what the QR solve returns for it, and the [P_i] and [alpha_i] stored for
    that step are player [i]'s rows of [X]. *)
Theorem backward_step_linear_system solve linearization quadraticization kk
        solver strategies solver' strategies' :
  let lin := nth kk linearization (mkLinearization empty_matrix []) in
  let quad := nth kk quadraticization [] in
  LQSpec.valid_workspace d solver = true ->
  LQSpec.valid_linearization d lin = true ->
  LQSpec.valid_values d (Zs_ solver) (zetas_ solver) = true ->
  strategies_sized (NumPlayers d) (num_time_steps_ solver) strategies ->
  (kk < num_time_steps_ solver)%nat ->
  backward_step solve d linearization quadraticization kk (solver, strategies)
  = Ok (solver', strategies') ->
  (forall i j, (i < NumPlayers d)%nat -> (j < NumPlayers d)%nat ->
     block (S_ solver') (cumulative_udim d i) (cumulative_udim d j)
           (UDim d i) (UDim d j)
     = LQSpec.S_block lin quad (Zs_ solver) i j) /\
  (forall i, (i < NumPlayers d)%nat ->
     block (Y_ solver') (cumulative_udim d i) 0 (UDim d i) (XDim d)
     = LQSpec.Y_block_state lin (Zs_ solver) i /\
     block (Y_ solver') (cumulative_udim d i) (XDim d) (UDim d i) 1
     = LQSpec.Y_block_last lin quad (zetas_ solver) i) /\
  X_ solver' = solve (S_ solver') (Y_ solver') /\
  (forall i, (i < NumPlayers d)%nat ->
     nth kk (Ps (nth i strategies' empty_strategy)) empty_matrix
     = block (X_ solver') (cumulative_udim d i) 0 (UDim d i) (XDim d) /\
     nth kk (alphas (nth i strategies' empty_strategy)) empty_matrix
     = block (X_ solver') (cumulative_udim d i) (XDim d) (UDim d i) 1).
Proof.
  intros lin quad Hws Hlin Hval [Hlen Hsized] Hkk E.
  destruct (backward_step_inv _ _ _ _ _ _ E)
    as [[row EP] [EX [_ [_ [ES _]]]]].
  fold lin quad in EP.
  destruct (valid_workspace_spec solver Hws) as [RS [CS [RY [CY _]]]].
  pose proof (populate_S_Y_owns _ _ _ _ _ _ EP) as Hown.
  destruct (@populate_S_Y_loop_spec lin quad (Zs_ solver) (zetas_ solver)
              (NumPlayers d) 0%nat (S_ solver) (Y_ solver))
    as [Smat' [Ymat' [E' [_ [HS [HYs [HYl _]]]]]]]; auto.
  { intros ii Hii. apply Hown. lia. }
  unfold populate_S_Y in EP. change (cumulative_udim d 0) with 0%nat in E'.
  rewrite EP in E'. injection E' as _ <- <-.
  split; [| split; [| split; [exact EX |]]].
  - intros i j Hi Hj.
    destruct (valid_linearization_B lin Hlin Hi) as [_ [_ CBi]].
    destruct (valid_linearization_B lin Hlin Hj) as [_ [_ CBj]].
    unfold LQSpec.B in *.
    assert (Hdims : rows (LQSpec.S_block lin quad (Zs_ solver) i j) = UDim d i /\
                    cols (LQSpec.S_block lin quad (Zs_ solver) i j) = UDim d j
                    /\ wf (LQSpec.S_block lin quad (Zs_ solver) i j)).
    { unfold LQSpec.S_block, LQSpec.B.
      destruct (Nat.eqb_spec i j) as [-> | _]; autorewrite with mdims;
        auto with mwf. }
    destruct Hdims as [HR [HC HW]].
    apply matrix_ext;
      [ apply wf_block | exact HW | autorewrite with mdims; congruence
      | autorewrite with mdims; congruence | ].
    intros a b Ha Hb. autorewrite with mdims in Ha, Hb.
    rewrite coeff_block by assumption. now apply HS; try lia.
  - intros i Hi.
    destruct (valid_linearization_B lin Hlin Hi) as [_ [_ CBi]].
    destruct (valid_linearization_A lin Hlin) as [_ [_ CA]].
    destruct (valid_values_spec _ _ Hval Hi) as [_ [_ [_ Cz]]].
    unfold LQSpec.B, LQSpec.zeta in *.
    split.
    + apply matrix_ext;
        [ apply wf_block
        | apply wf_mmul
        | unfold LQSpec.Y_block_state, LQSpec.B; autorewrite with mdims;
          congruence
        | unfold LQSpec.Y_block_state, LQSpec.B; autorewrite with mdims;
          congruence
        | ].
      intros a b Ha Hb. autorewrite with mdims in Ha, Hb.
      rewrite coeff_block by assumption. rewrite Nat.add_0_l.
      apply HYs; try lia; assumption.
    + apply matrix_ext;
        [ apply wf_block
        | apply wf_madd
        | unfold LQSpec.Y_block_last, LQSpec.B; autorewrite with mdims;
          congruence
        | unfold LQSpec.Y_block_last, LQSpec.B, LQSpec.zeta;
          autorewrite with mdims; congruence
        | ].
      intros a b Ha Hb. autorewrite with mdims in Ha, Hb.
      rewrite coeff_block by assumption.
      assert (b = 0%nat) as -> by lia. rewrite Nat.add_0_r.
      apply HYl; try lia; assumption.
  - intros i Hi. rewrite ES.
    rewrite set_strategies_nth by (try lia; assumption). cbn [Ps alphas].
    rewrite Forall_forall in Hsized.
    destruct (Hsized (nth i strategies empty_strategy)) as [LP La].
    { apply nth_In. lia. }
    rewrite !nth_set_nth_same by lia. split; reflexivity.
Qed.

End Step.

End LQStepFacts.

(* ===================================================================== *)
(** * The value functions along the backward pass                         *)
(* ===================================================================== *)

Module LQPassFacts.

Import Mat LQ MatFacts LQFacts LQStepFacts.
Local Open Scope Qc_scope.

Lemma wf_wfb M : wf M -> wfb M = true.
Proof.
  unfold wf, wfb. intros [H1 H2]. rewrite andb_true_iff, forallb_forall.
  split.
  - now apply Nat.eqb_eq.
  - rewrite Forall_forall in H2. intros row Hin. apply Nat.eqb_eq. auto.
Qed.

Lemma has_dimsb_intro r c M :
  wf M -> rows M = r -> cols M = c -> has_dimsb r c M = true.
Proof.
  intros W <- <-. unfold has_dimsb.
  now rewrite (wf_wfb W), !Nat.eqb_refl.
Qed.

Lemma forallb_nth_intro {T} (f : T -> bool) l dflt :
  (forall i, (i < length l)%nat -> f (nth i l dflt) = true) ->
  forallb f l = true.
Proof.
  intros H. apply forallb_forall. intros x Hin.
  destruct (In_nth l x dflt Hin) as [i [Hi <-]]. auto.
Qed.

Section Pass.

Variable solve : Matrix -> Matrix -> Matrix.
Variable d : Dynamics.

Lemma valid_values_intro Zs zetas :
  length Zs = NumPlayers d -> length zetas = NumPlayers d ->
  (forall i, (i < NumPlayers d)%nat ->
     wf (nth i Zs empty_matrix) /\ rows (nth i Zs empty_matrix) = XDim d /\
     cols (nth i Zs empty_matrix) = XDim d) ->
  (forall i, (i < NumPlayers d)%nat ->
     wf (nth i zetas empty_matrix) /\ rows (nth i zetas empty_matrix) = XDim d /\
     cols (nth i zetas empty_matrix) = 1%nat) ->
  LQSpec.valid_values d Zs zetas = true.
Proof.
  intros LZ Lz HZ Hz. unfold LQSpec.valid_values.
  rewrite LZ, Lz, !Nat.eqb_refl. cbn [andb].
  rewrite andb_true_iff. split.
  - apply (forallb_nth_intro _ _ empty_matrix). intros i Hi.
    destruct (HZ i) as [W [R C]]; [lia |]. now apply has_dimsb_intro.
  - apply (forallb_nth_intro _ _ empty_matrix). intros i Hi.
    destruct (Hz i) as [W [R C]]; [lia |]. now apply has_dimsb_intro.
Qed.

Lemma symmetric_Zero n : symmetric (Zero n n).
Proof.
  unfold symmetric, transpose, Zero. autorewrite with mdims.
  apply tabulate_ext. intros i j Hi Hj. now rewrite coeff_tabulate.
Qed.

Lemma symmetric_msum n l :
  Forall (fun M => symmetric M /\ rows M = n) l -> symmetric (msum n n l).
Proof.
  induction 1 as [| M l [HM HR] Hl IH].
  - apply symmetric_Zero.
  - change (msum n n (M :: l)) with (madd M (msum n n l)).
    apply symmetric_madd; auto.
    rewrite HR. apply rows_msum.
    eapply Forall_impl; [| exact Hl]. cbn. tauto.
Qed.

Lemma symmetric_costs_spec quad i :
  LQSpec.symmetric_costs quad = true -> (i < length quad)%nat ->
  symmetric (hess (state (nth i quad empty_quad))) /\
  forall e, In e (control (nth i quad empty_quad)) -> symmetric (hess (snd e)).
Proof.
  unfold LQSpec.symmetric_costs. intros H Hi.
  eapply forallb_nth in H; [| exact Hi].
  rewrite andb_true_iff in H. destruct H as [H1 H2]. split.
  - apply symmetricb_spec. exact H1.
  - intros e He. rewrite forallb_forall in H2. apply symmetricb_spec. auto.
Qed.

Lemma Z_update_symmetric lin quad Zs P i :
  LQSpec.valid_linearization d lin = true ->
  LQSpec.valid_quadraticization d quad = true ->
  LQSpec.symmetric_costs quad = true ->
  (i < NumPlayers d)%nat ->
  (forall j, wf (P j) /\ rows (P j) = UDim d j /\ cols (P j) = XDim d) ->
  symmetric (LQSpec.Z Zs i) -> rows (LQSpec.Z Zs i) = XDim d ->
  symmetric (LQSpec.Z_update d lin quad Zs P i).
Proof.
  intros Hlin Hquad Hsym Hi HP HZ RZ.
  destruct (F_dims d lin P Hlin) as [WF [RF CF]].
  pose proof (valid_quadraticization_cost d quad Hquad Hi) as Hcost.
  destruct (valid_cost_state d _ Hcost) as [[WQ [RQ CQ]] _].
  assert (Hlen : (i < length quad)%nat).
  { unfold LQSpec.valid_quadraticization in Hquad.
    rewrite andb_true_iff, Nat.eqb_eq in Hquad. lia. }
  destruct (symmetric_costs_spec quad Hsym Hlen) as [SQ SR].
  pose proof (symmetric_square HZ) as SqZ.
  pose proof (valid_cost_distinct d _ Hcost) as Hdist.
  unfold LQSpec.Z_update, LQSpec.Q.
  apply symmetric_madd; [apply symmetric_madd | |].
  - rewrite <- mmul_assoc by (autorewrite with mdims; congruence).
    apply symmetric_congruence; auto. congruence.
  - exact SQ.
  - autorewrite with mdims. congruence.
  - apply symmetric_msum. apply Forall_map. apply Forall_forall.
    intros j Hj. unfold LQSpec.players_of, keys in Hj.
    apply in_map_iff in Hj. destruct Hj as [e [<- He]].
    destruct (valid_cost_entry d _ _ Hcost He) as [Hlt [[WR [RR CR]] _]].
    destruct (HP (fst e)) as [WP [RP CP]].
    unfold LQSpec.R. rewrite (find_distinct _ _ Hdist He).
    rewrite <- mmul_assoc by (autorewrite with mdims; congruence).
    split.
    + apply symmetric_congruence; auto. congruence.
    + now autorewrite with mdims.
  - autorewrite with mdims. rewrite CF. apply rows_msum.
    apply Forall_map. apply Forall_forall. intros j _.
    destruct (HP j) as [_ [_ CP]]. now autorewrite with mdims.
Qed.

Lemma Z_update_dims lin quad Zs P i :
  LQSpec.valid_linearization d lin = true ->
  wf (LQSpec.Z_update d lin quad Zs P i) /\
  rows (LQSpec.Z_update d lin quad Zs P i) = XDim d /\
  cols (LQSpec.Z_update d lin quad Zs P i) = XDim d.
Proof.
  intros Hlin. destruct (F_dims d lin P Hlin) as [WF [RF CF]].
  unfold LQSpec.Z_update. autorewrite with mdims. auto with mwf.
Qed.

Lemma zeta_update_dims lin quad Zs zetas P alpha i :
  LQSpec.valid_linearization d lin = true ->
  cols (LQSpec.zeta zetas i) = 1%nat ->
  wf (LQSpec.zeta_update d lin quad Zs zetas P alpha i) /\
  rows (LQSpec.zeta_update d lin quad Zs zetas P alpha i) = XDim d /\
  cols (LQSpec.zeta_update d lin quad Zs zetas P alpha i) = 1%nat.
Proof.
  intros Hlin Hc. destruct (F_dims d lin P Hlin) as [WF [RF CF]].
  unfold LQSpec.zeta_update. autorewrite with mdims. auto with mwf.
Qed.

(** A backward step keeps the value functions well sized, and keeps the
    [Z_i] symmetric when the Hessians of the step are symmetric. *)
Lemma backward_step_valid_values linearization quadraticization kk
      solver strategies solver' strategies' :
  LQSpec.valid_linearization
    d (nth kk linearization (mkLinearization empty_matrix [])) = true ->
  LQSpec.valid_quadraticization d (nth kk quadraticization []) = true ->
  LQSpec.valid_values d (Zs_ solver) (zetas_ solver) = true ->
  backward_step solve d linearization quadraticization kk (solver, strategies)
  = Ok (solver', strategies') ->
  LQSpec.valid_values d (Zs_ solver') (zetas_ solver') = true.
Proof.
  intros Hlin Hquad Hval E.
  destruct (backward_step_values d solve linearization quadraticization kk
              solver strategies Hlin Hquad Hval E) as [_ [_ H]].
  destruct (backward_step_inv d _ _ _ _ _ _ E) as [_ [_ [EF [EU _]]]].
  rewrite (compute_F_beta_spec d _ (X_ solver') Hlin) in EF.
  injection EF as EF Eb. rewrite EF, Eb in EU. symmetry in EU.
  destruct (update_values_spec d _ _ _ _ _ Hlin Hquad Hval EU) as [L1 [L2 _]].
  apply valid_values_intro; auto.
  - intros i Hi. destruct (H i Hi) as [_ ->]. now apply Z_update_dims.
  - intros i Hi. destruct (H i Hi) as [-> _]. apply zeta_update_dims; auto.
    now destruct (valid_values_spec d _ _ Hval Hi) as [_ [_ [_ ?]]].
Qed.

Lemma backward_step_symmetric linearization quadraticization kk
      solver strategies solver' strategies' :
  LQSpec.valid_linearization
    d (nth kk linearization (mkLinearization empty_matrix [])) = true ->
  LQSpec.valid_quadraticization d (nth kk quadraticization []) = true ->
  LQSpec.symmetric_costs (nth kk quadraticization []) = true ->
  LQSpec.valid_values d (Zs_ solver) (zetas_ solver) = true ->
  (forall i, (i < NumPlayers d)%nat ->
             symmetric (nth i (Zs_ solver) empty_matrix)) ->
  backward_step solve d linearization quadraticization kk (solver, strategies)
  = Ok (solver', strategies') ->
  forall i, (i < NumPlayers d)%nat ->
            symmetric (nth i (Zs_ solver') empty_matrix).
Proof.
  intros Hlin Hquad Hsym Hval HS E i Hi.
  destruct (backward_step_values d solve linearization quadraticization kk
              solver strategies Hlin Hquad Hval E) as [_ [_ H]].
  destruct (H i Hi) as [_ ->].
  destruct (valid_values_spec d _ _ Hval Hi) as [[_ [RZ _]] _].
  apply Z_update_symmetric; auto.
  - intros j. unfold Ps_. autorewrite with mdims. auto with mwf.
  - apply HS. exact Hi.
Qed.

(** *** The terminal values *)

Lemma fold_set_nth {T} (h : nat -> T) dflt n :
  forall l0, (n <= length l0)%nat ->
    let res := fold_left (fun l ii => set_nth ii (h ii) l) (seq 0 n) l0 in
    length res = length l0 /\
    forall i, (i < n)%nat -> nth i res dflt = h i.
Proof.
  induction n as [| n IH]; intros l0 Hlen; cbn zeta.
  - cbn. split; [reflexivity | intros; lia].
  - rewrite seq_S, fold_left_app. cbn [fold_left Nat.add].
    destruct (IH l0) as [L H]; [lia |]. cbn zeta in L, H.
    rewrite length_set_nth. split; [exact L |].
    intros i Hi. destruct (Nat.eq_dec i n) as [-> | Hne].
    + apply nth_set_nth_same. lia.
    + rewrite nth_set_nth_other by auto. apply H. lia.
Qed.

Lemma terminal_values_spec quadraticization Zs0 zetas0 :
  length Zs0 = NumPlayers d -> length zetas0 = NumPlayers d ->
  let res := terminal_values d quadraticization Zs0 zetas0 in
  length (fst res) = NumPlayers d /\ length (snd res) = NumPlayers d /\
  forall i, (i < NumPlayers d)%nat ->
    nth i (fst res) empty_matrix
    = hess (state (nth i (last quadraticization []) empty_quad)) /\
    nth i (snd res) empty_matrix
    = grad (state (nth i (last quadraticization []) empty_quad)).
Proof.
  intros LZ Lz. cbn zeta. unfold terminal_values.
  rewrite (fold_left_pair
             (fun Zs ii => set_nth ii (hess (state (nth ii (last quadraticization [])
                                                        empty_quad))) Zs)
             (fun zetas ii => set_nth ii (grad (state (nth ii (last quadraticization [])
                                                           empty_quad))) zetas)).
  cbn [fst snd].
  destruct (@fold_set_nth _
              (fun ii => hess (state (nth ii (last quadraticization []) empty_quad)))
              empty_matrix (NumPlayers d) Zs0) as [L1 H1]; [lia |].
  destruct (@fold_set_nth _
              (fun ii => grad (state (nth ii (last quadraticization []) empty_quad)))
              empty_matrix (NumPlayers d) zetas0) as [L2 H2]; [lia |].
  cbn zeta in *. repeat split; try congruence; auto.
Qed.

Lemma forallb_last {T} (f : T -> bool) l dflt :
  l <> [] -> forallb f l = true -> f (last l dflt) = true.
Proof.
  intros Hne H. rewrite forallb_forall in H. apply H.
  destruct (exists_last Hne) as [l' [x ->]].
  rewrite last_last. apply in_or_app. right. now left.
Qed.

Lemma valid_problem_spec K linearization quadraticization :
  LQSpec.valid_problem d K linearization quadraticization = true ->
  length linearization = K /\ length quadraticization = K /\
  forallb (LQSpec.valid_linearization d) linearization = true /\
  forallb (LQSpec.valid_quadraticization d) quadraticization = true.
Proof.
  unfold LQSpec.valid_problem. rewrite !andb_true_iff, !Nat.eqb_eq. tauto.
Qed.

Lemma initial_state_valid solver K linearization quadraticization :
  LQSpec.valid_workspace d solver = true ->
  LQSpec.valid_problem d K linearization quadraticization = true ->
  (0 < K)%nat ->
  LQSpec.valid_values
    d (Zs_ (fst (initial_state d solver quadraticization)))
    (zetas_ (fst (initial_state d solver quadraticization))) = true /\
  (forallb LQSpec.symmetric_costs quadraticization = true ->
   forall i, (i < NumPlayers d)%nat ->
     symmetric (nth i (Zs_ (fst (initial_state d solver quadraticization)))
                    empty_matrix)).
Proof.
  intros Hws Hp HK.
  destruct (valid_workspace_spec d solver Hws) as [_ [_ [_ [_ [LZ Lz]]]]].
  destruct (valid_problem_spec _ _ _ Hp) as [_ [Lq [_ Hq]]].
  assert (Hne : quadraticization <> []) by (destruct quadraticization; cbn in *; [lia | discriminate]).
  pose proof (forallb_last _ [] Hne Hq) as Hlast.
  destruct (terminal_values_spec quadraticization _ _ LZ Lz) as [L1 [L2 H]].
  unfold initial_state.
  destruct (terminal_values d quadraticization (Zs_ solver) (zetas_ solver))
    as [Zs zetas]. cbn [fst snd Zs_ zetas_] in *.
  split.
  - apply valid_values_intro; auto.
    + intros i Hi. destruct (H i Hi) as [-> _].
      pose proof (valid_quadraticization_cost d _ Hlast Hi) as Hc.
      now destruct (valid_cost_state d _ Hc) as [? _].
    + intros i Hi. destruct (H i Hi) as [_ ->].
      pose proof (valid_quadraticization_cost d _ Hlast Hi) as Hc.
      now destruct (valid_cost_state d _ Hc) as [_ ?].
  - intros Hsym i Hi. destruct (H i Hi) as [-> _].
    pose proof (forallb_last _ [] Hne Hsym) as Hs.
    apply symmetric_costs_spec; auto.
    unfold LQSpec.valid_quadraticization in Hlast.
    rewrite andb_true_iff, Nat.eqb_eq in Hlast. lia.
Qed.

(** *** Along the pass *)

Lemma valid_problem_step K linearization quadraticization kk :
  LQSpec.valid_problem d K linearization quadraticization = true ->
  (kk < K)%nat ->
  LQSpec.valid_linearization
    d (nth kk linearization (mkLinearization empty_matrix [])) = true /\
  LQSpec.valid_quadraticization d (nth kk quadraticization []) = true.
Proof.
  intros Hp Hkk.
  destruct (valid_problem_spec _ _ _ Hp) as [L1 [L2 [H1 H2]]].
  split; apply forallb_nth; auto; lia.
Qed.

Lemma backward_pass_valid_values K linearization quadraticization ks st st' :
  LQSpec.valid_problem d K linearization quadraticization = true ->
  (forall kk, In kk ks -> (kk < K)%nat) ->
  LQSpec.valid_values d (Zs_ (fst st)) (zetas_ (fst st)) = true ->
  backward_pass solve d linearization quadraticization ks st = Ok st' ->
  LQSpec.valid_values d (Zs_ (fst st')) (zetas_ (fst st')) = true.
Proof.
  intros Hp Hks. unfold backward_pass.
  apply (for_each_invariant
           (fun st => LQSpec.valid_values d (Zs_ (fst st)) (zetas_ (fst st))
                      = true)).
  intros kk [solver strategies] [solver' strategies'] Hin Hval E.
  destruct (valid_problem_step _ _ Hp (Hks kk Hin)) as [Hlin Hquad].
  cbn [fst] in *. eapply backward_step_valid_values; eauto.
Qed.

Lemma backward_pass_symmetric K linearization quadraticization ks st st' :
  LQSpec.valid_problem d K linearization quadraticization = true ->
  forallb LQSpec.symmetric_costs quadraticization = true ->
  (forall kk, In kk ks -> (kk < K)%nat) ->
  LQSpec.valid_values d (Zs_ (fst st)) (zetas_ (fst st)) = true ->
  (forall i, (i < NumPlayers d)%nat ->
             symmetric (nth i (Zs_ (fst st)) empty_matrix)) ->
  backward_pass solve d linearization quadraticization ks st = Ok st' ->
  forall i, (i < NumPlayers d)%nat ->
            symmetric (nth i (Zs_ (fst st')) empty_matrix).
Proof.
  intros Hp Hsym Hks Hval HS E.
  assert (H : LQSpec.valid_values d (Zs_ (fst st')) (zetas_ (fst st')) = true /\
              forall i, (i < NumPlayers d)%nat ->
                        symmetric (nth i (Zs_ (fst st')) empty_matrix));
    [| tauto].
  revert E. unfold backward_pass.
  apply (for_each_invariant
           (fun st => LQSpec.valid_values d (Zs_ (fst st)) (zetas_ (fst st))
                      = true /\
                      forall i, (i < NumPlayers d)%nat ->
                                symmetric (nth i (Zs_ (fst st)) empty_matrix)));
    [| auto].
  intros kk [solver strategies] [solver' strategies'] Hin [Hv Hs] E.
  destruct (valid_problem_step _ _ Hp (Hks kk Hin)) as [Hlin Hquad].
  destruct (valid_problem_spec _ _ _ Hp) as [_ [L2 _]].
  assert (Hsk : LQSpec.symmetric_costs (nth kk quadraticization []) = true).
  { apply forallb_nth; auto. specialize (Hks kk Hin). lia. }
  cbn [fst] in *. split.
  - eapply backward_step_valid_values; eauto.
  - eapply backward_step_symmetric; eauto.
Qed.

End Pass.

Lemma steps_before_bound K kk k :
  In k (steps_before K kk) -> (kk < k < K - 1)%nat.
Proof.
  unfold steps_before. rewrite <- in_rev, in_seq. lia.
Qed.

(** [values_at_step] is the state in which [Solve] reaches step [kk]: the
    backward loop first visits [steps_before], then [kk]. *)
Lemma backward_range_split K kk :
  (kk < K - 1)%nat ->
  backward_range K = steps_before K kk ++ kk :: rev (seq 0 kk).
Proof.
  intros H. unfold backward_range, steps_before.
  replace (K - 1)%nat with (kk + S (K - 1 - S kk))%nat at 1 by lia.
  rewrite seq_app, rev_app_distr. cbn [seq rev Nat.add].
  rewrite <- app_assoc. reflexivity.
Qed.

(** C2 (as amended).  The backward pass has no symmetrization step.  In
    exact arithmetic the [Z_i] from which [S] is formed is nevertheless
    symmetric at every step [kk] of the recursion, provided that all state
    Hessians [Q_i] (the terminal one and those of the steps) and all control
    Hessians [R_ij] of the problem are symmetric. *)
Theorem Zs_symmetric_at_every_step solve solver linearization quadraticization
        kk Zs zetas :
  LQSpec.valid_workspace (dynamics_ solver) solver = true ->
  LQSpec.valid_problem (dynamics_ solver) (num_time_steps_ solver)
                       linearization quadraticization = true ->
  forallb LQSpec.symmetric_costs quadraticization = true ->
  (kk < num_time_steps_ solver - 1)%nat ->
  values_at_step solve solver linearization quadraticization kk
  = Ok (Zs, zetas) ->
  forall i, (i < NumPlayers (dynamics_ solver))%nat ->
            symmetric (nth i Zs empty_matrix).
Proof.
  intros Hws Hp Hsym Hkk E. unfold values_at_step in E.
  destruct (backward_pass _ _ _ _ _ _) as [st' |] eqn:Epass; cbn in E;
    [| discriminate].
  injection E as <- _.
  destruct (@initial_state_valid (dynamics_ solver) solver _ _ _ Hws Hp)
    as [Hv Hs]; [lia |].
  eapply backward_pass_symmetric; eauto.
  intros k Hk. apply steps_before_bound in Hk. lia.
Qed.

(** C2 (as stated) fails: nothing symmetrizes [Z_i].  With a symmetric
    terminal Hessian and a non-symmetric cross term [R_01], the [Z_0] from
    which [S] is formed at step 0 is not symmetric. *)
Lemma Zs_not_symmetrized :
  exists Zs zetas,
    values_at_step exact_solve (Examples.cross_solver 3)
                   (repeat Examples.cross_linearization 3)
                   (repeat Examples.cross_quadraticization 3) 0
    = Ok (Zs, zetas) /\
    (forall q, In q (last (repeat Examples.cross_quadraticization 3) []) ->
               symmetric (hess (state q))) /\
    ~ symmetric (nth 0 Zs empty_matrix).
Proof.
  eexists. eexists. split; [vm_compute; reflexivity |]. split.
  - intros q [<- | [<- | []]]; apply symmetricb_spec; vm_compute; reflexivity.
  - unfold symmetric. intros H.
    apply (f_equal (fun M => Qc_eqb (coeff M 0 1) 0)) in H.
    vm_compute in H. discriminate.
Qed.

End LQPassFacts.

(* ===================================================================== *)
(** * The properties at the test fixture                                  *)
(* ===================================================================== *)

Module LQWitnesses.

Import Mat LQ MatFacts LQFacts LQStepFacts LQPassFacts.
Local Open Scope Qc_scope.

Lemma fixture_step_returns :
  exists solver' strategies',
    backward_step exact_solve LyapunovTest.dynamics
                  Examples.fixture_linearization
                  Examples.fixture_quadraticization 1
                  (fst Examples.fixture_state, snd Examples.fixture_state)
    = Ok (solver', strategies').
Proof. vm_compute. do 2 eexists. reflexivity. Defined.

Lemma Zs_symmetric_at_every_step_witness :
  LQSpec.valid_workspace LyapunovTest.dynamics (LyapunovTest.solver_for 3)
  = true /\
  LQSpec.valid_problem LyapunovTest.dynamics 3 Examples.fixture_linearization
                       Examples.fixture_quadraticization = true /\
  forallb LQSpec.symmetric_costs Examples.fixture_quadraticization = true /\
  (0 < 3 - 1)%nat /\
  exists Zs zetas,
    values_at_step exact_solve (LyapunovTest.solver_for 3)
                   Examples.fixture_linearization
                   Examples.fixture_quadraticization 0 = Ok (Zs, zetas) /\
    forall i, (i < 2)%nat -> symmetric (nth i Zs empty_matrix).
Proof.
  assert (E : exists Zs zetas,
             values_at_step exact_solve (LyapunovTest.solver_for 3)
                            Examples.fixture_linearization
                            Examples.fixture_quadraticization 0
             = Ok (Zs, zetas)).
  { vm_compute. do 2 eexists. reflexivity. }
  destruct E as [Zs [zetas E]].
  split; [reflexivity |]. split; [reflexivity |]. split; [reflexivity |].
  split; [cbn; lia |].
  exists Zs, zetas. split; [exact E |].
  apply (@Zs_symmetric_at_every_step exact_solve (LyapunovTest.solver_for 3)
           Examples.fixture_linearization Examples.fixture_quadraticization
           0 Zs zetas);
    try reflexivity; try exact E. cbn; lia.
Defined.

Lemma backward_step_backpropagates_witness :
  exists solver' strategies',
    backward_step exact_solve LyapunovTest.dynamics
                  Examples.fixture_linearization
                  Examples.fixture_quadraticization 1
                  (fst Examples.fixture_state, snd Examples.fixture_state)
    = Ok (solver', strategies') /\
    LQSpec.valid_linearization LyapunovTest.dynamics LyapunovTest.Linearize
    = true /\
    LQSpec.valid_quadraticization LyapunovTest.dynamics
                                  LyapunovTest.quadraticizations = true /\
    LQSpec.valid_values LyapunovTest.dynamics
                        (Zs_ (fst Examples.fixture_state))
                        (zetas_ (fst Examples.fixture_state)) = true /\
    let lin := LyapunovTest.Linearize in
    let quad := LyapunovTest.quadraticizations in
    let P := Ps_ LyapunovTest.dynamics (X_ solver') in
    let alpha := alphas_ LyapunovTest.dynamics (X_ solver') in
    F_ solver' = LQSpec.F LyapunovTest.dynamics lin P /\
    beta_ solver' = LQSpec.beta LyapunovTest.dynamics lin alpha /\
    forall i, (i < 2)%nat ->
      nth i (zetas_ solver') empty_matrix
      = LQSpec.zeta_update LyapunovTest.dynamics lin quad
                           (Zs_ (fst Examples.fixture_state))
                           (zetas_ (fst Examples.fixture_state)) P alpha i /\
      nth i (Zs_ solver') empty_matrix
      = LQSpec.Z_update LyapunovTest.dynamics lin quad
                        (Zs_ (fst Examples.fixture_state)) P i.
Proof.
  destruct fixture_step_returns as [solver' [strategies' E]].
  exists solver', strategies'. split; [exact E |].
  split; [reflexivity |]. split; [reflexivity |]. split; [reflexivity |].
  apply (@backward_step_backpropagates LyapunovTest.dynamics exact_solve
           Examples.fixture_linearization Examples.fixture_quadraticization
           1 (fst Examples.fixture_state) (snd Examples.fixture_state)
           solver' strategies');
    try reflexivity. exact E.
Defined.

Lemma backward_step_linear_system_witness :
  exists solver' strategies',
    backward_step exact_solve LyapunovTest.dynamics
                  Examples.fixture_linearization
                  Examples.fixture_quadraticization 1
                  (fst Examples.fixture_state, snd Examples.fixture_state)
    = Ok (solver', strategies') /\
    LQSpec.valid_workspace LyapunovTest.dynamics (fst Examples.fixture_state)
    = true /\
    LQSpec.valid_linearization LyapunovTest.dynamics LyapunovTest.Linearize
    = true /\
    LQSpec.valid_values LyapunovTest.dynamics
                        (Zs_ (fst Examples.fixture_state))
                        (zetas_ (fst Examples.fixture_state)) = true /\
    strategies_sized 2 3 (snd Examples.fixture_state) /\
    (1 < 3)%nat /\
    let d := LyapunovTest.dynamics in
    let lin := LyapunovTest.Linearize in
    let quad := LyapunovTest.quadraticizations in
    (forall i j, (i < 2)%nat -> (j < 2)%nat ->
       block (S_ solver') (cumulative_udim d i) (cumulative_udim d j)
             (UDim d i) (UDim d j)
       = LQSpec.S_block lin quad (Zs_ (fst Examples.fixture_state)) i j) /\
    (forall i, (i < 2)%nat ->
       block (Y_ solver') (cumulative_udim d i) 0 (UDim d i) (XDim d)
       = LQSpec.Y_block_state lin (Zs_ (fst Examples.fixture_state)) i /\
       block (Y_ solver') (cumulative_udim d i) (XDim d) (UDim d i) 1
       = LQSpec.Y_block_last lin quad (zetas_ (fst Examples.fixture_state)) i) /\
    X_ solver' = exact_solve (S_ solver') (Y_ solver') /\
    (forall i, (i < 2)%nat ->
       nth 1 (Ps (nth i strategies' empty_strategy)) empty_matrix
       = block (X_ solver') (cumulative_udim d i) 0 (UDim d i) (XDim d) /\
       nth 1 (alphas (nth i strategies' empty_strategy)) empty_matrix
       = block (X_ solver') (cumulative_udim d i) (XDim d) (UDim d i) 1).
Proof.
  destruct fixture_step_returns as [solver' [strategies' E]].
  exists solver', strategies'. split; [exact E |].
  split; [reflexivity |]. split; [reflexivity |]. split; [reflexivity |].
  split; [apply (initial_strategies_sized LyapunovTest.dynamics 3) |].
  split; [lia |].
  apply (@backward_step_linear_system LyapunovTest.dynamics exact_solve
           Examples.fixture_linearization Examples.fixture_quadraticization
           1 (fst Examples.fixture_state) (snd Examples.fixture_state)
           solver' strategies');
    try reflexivity; try exact E.
  - apply (initial_strategies_sized LyapunovTest.dynamics 3).
  - cbn; lia.
Defined.

End LQWitnesses.

(* ===================================================================== *)
(** * Soundness of the interval operations                                *)
(* ===================================================================== *)

Module IntervalFacts.

Import Interval QcFacts.
Local Open Scope Q_scope.

(** ** Bounds as rationals *)

Lemma val_plus a b : val (a + b) == val a + val b.
Proof. unfold val. now rewrite Qinv_plus_distr. Qed.

Lemma val_opp a : val (- a) == - val a.
Proof. reflexivity. Qed.

Lemma val_minus a b : val (a - b) == val a - val b.
Proof.
  unfold Z.sub, Qminus. now rewrite val_plus, val_opp.
Qed.

Lemma val_mult a b : val a * val b == (a * b # scale * scale).
Proof. reflexivity. Qed.

Lemma val_pos z : (0 < z)%Z -> 0 < val z.
Proof. intros H. unfold val, Qlt. cbn. lia. Qed.

Lemma val_lt a b : (a < b)%Z -> val a < val b.
Proof.
  intros H. unfold val, Qlt. cbn [Qnum Qden].
  apply Z.mul_lt_mono_pos_r; lia.
Qed.

Lemma val_floor z : val (z / Zpos scale) <= (z # scale * scale).
Proof.
  unfold val, Qle. cbn [Qnum Qden]. rewrite Pos2Z.inj_mul.
  pose proof (Z.mul_div_le z (Zpos scale) eq_refl). nia.
Qed.

Lemma val_ceil z : (z # scale * scale) <= val (- (- z / Zpos scale)).
Proof.
  unfold val, Qle. cbn [Qnum Qden]. rewrite Pos2Z.inj_mul.
  pose proof (Z.mul_div_le (- z) (Zpos scale) eq_refl). nia.
Qed.

Lemma double_scale_le a b :
  (a <= b)%Z -> (a # scale * scale) <= (b # scale * scale).
Proof.
  intros H. unfold Qle. cbn [Qnum Qden].
  apply Z.mul_le_mono_nonneg_r; lia.
Qed.

Lemma val_inv_lower z : (0 < z)%Z -> val (Zpos (scale * scale) / z) <= / val z.
Proof.
  intros H. unfold val.
  assert (Hq : (Zpos (scale * scale) / z * z <= Zpos (scale * scale))%Z).
  { rewrite Z.mul_comm. apply Z.mul_div_le. exact H. }
  destruct z as [| p | p]; try lia.
  unfold Qinv. cbn [Qnum Qden]. unfold Qle. cbn [Qnum Qden].
  rewrite Pos2Z.inj_mul in *. nia.
Qed.

Lemma val_inv_upper z :
  (0 < z)%Z -> / val z <= val (- (- Zpos (scale * scale) / z)).
Proof.
  intros H. unfold val.
  assert (Hq : (Zpos (scale * scale) <= - (- Zpos (scale * scale) / z) * z)%Z).
  { pose proof (Z.mul_div_le (- Zpos (scale * scale)) z H) as H0. lia. }
  destruct z as [| p | p]; try lia.
  unfold Qinv. cbn [Qnum Qden]. unfold Qle. cbn [Qnum Qden].
  rewrite Pos2Z.inj_mul in *. nia.
Qed.

(** ** The operations on [BigZ] bounds *)

Lemma to_Z_scaleB : BigZ.to_Z scaleB = Zpos scale.
Proof. apply BigZ.spec_of_Z. Qed.

Lemma to_Z_scale2B : BigZ.to_Z scale2B = Zpos (scale * scale).
Proof. apply BigZ.spec_of_Z. Qed.

Lemma to_Z_floor_scale z :
  BigZ.to_Z (floor_scale z) = (BigZ.to_Z z / Zpos scale)%Z.
Proof. unfold floor_scale. now rewrite BigZ.spec_div, to_Z_scaleB. Qed.

Lemma to_Z_ceil_scale z :
  BigZ.to_Z (ceil_scale z) = (- (- BigZ.to_Z z / Zpos scale))%Z.
Proof.
  unfold ceil_scale.
  now rewrite BigZ.spec_opp, BigZ.spec_div, BigZ.spec_opp, to_Z_scaleB.
Qed.

(** ** A product lies between the extreme products of the bounds *)

Lemma linear_between (k lo hi t m : Q) :
  lo <= t -> t <= hi -> m <= k * lo -> m <= k * hi -> m <= k * t.
Proof.
  intros H1 H2 H3 H4.
  destruct (Qlt_le_dec k 0) as [Hk | Hk]; nra.
Qed.

Lemma product_lower (a1 a2 b1 b2 x y m : Q) :
  a1 <= x -> x <= a2 -> b1 <= y -> y <= b2 ->
  m <= a1 * b1 -> m <= a1 * b2 -> m <= a2 * b1 -> m <= a2 * b2 ->
  m <= x * y.
Proof.
  intros Hx1 Hx2 Hy1 Hy2 H11 H12 H21 H22.
  assert (H1 : m <= a1 * y)
    by (apply (@linear_between a1 b1 b2 y m); assumption).
  assert (H2 : m <= a2 * y)
    by (apply (@linear_between a2 b1 b2 y m); assumption).
  rewrite (Qmult_comm x y).
  apply (@linear_between y a1 a2 x m); try assumption.
  - now rewrite Qmult_comm.
  - now rewrite Qmult_comm.
Qed.

Lemma product_upper (a1 a2 b1 b2 x y m : Q) :
  a1 <= x -> x <= a2 -> b1 <= y -> y <= b2 ->
  a1 * b1 <= m -> a1 * b2 <= m -> a2 * b1 <= m -> a2 * b2 <= m ->
  x * y <= m.
Proof.
  intros Hx1 Hx2 Hy1 Hy2 H11 H12 H21 H22.
  assert (H : - m <= x * - y).
  { apply (@product_lower a1 a2 (- b2) (- b1) x (- y) (- m));
      try assumption; lra. }
  lra.
Qed.

(** ** The operations enclose *)

Lemma contains_add I J x y :
  contains I x -> contains J y -> contains (iadd I J) (x + y)%Qc.
Proof.
  unfold contains. intros [H1 H2] [H3 H4]. cbn [iadd lo hi].
  rewrite this_plus, !BigZ.spec_add, !val_plus. lra.
Qed.

Lemma contains_sub I J x y :
  contains I x -> contains J y -> contains (isub I J) (x - y)%Qc.
Proof.
  unfold contains. intros [H1 H2] [H3 H4]. cbn [isub lo hi].
  rewrite this_minus, !BigZ.spec_sub, !val_minus. lra.
Qed.

Lemma contains_mul I J x y :
  contains I x -> contains J y -> contains (imul I J) (x * y)%Qc.
Proof.
  unfold contains. intros [H1 H2] [H3 H4]. cbn [imul lo hi].
  rewrite this_mult, to_Z_floor_scale, to_Z_ceil_scale.
  rewrite !BigZ.spec_min, !BigZ.spec_max, !BigZ.spec_mul.
  split.
  - eapply Qle_trans; [apply val_floor |].
    apply (@product_lower (val (BigZ.to_Z (lo I))) (val (BigZ.to_Z (hi I)))
                          (val (BigZ.to_Z (lo J))) (val (BigZ.to_Z (hi J)))
                          (this x) (this y));
      try assumption; rewrite val_mult; apply double_scale_le; lia.
  - eapply Qle_trans; [| apply val_ceil].
    apply (@product_upper (val (BigZ.to_Z (lo I))) (val (BigZ.to_Z (hi I)))
                          (val (BigZ.to_Z (lo J))) (val (BigZ.to_Z (hi J)))
                          (this x) (this y));
      try assumption; rewrite val_mult; apply double_scale_le; lia.
Qed.

Lemma positive_itv_spec J :
  positive_itv J = true -> (0 < BigZ.to_Z (lo J))%Z.
Proof.
  unfold positive_itv. rewrite BigZ.spec_ltb, BigZ.spec_0.
  apply Z.ltb_lt.
Qed.

Lemma contains_inv J y :
  positive_itv J = true -> contains J y -> contains (iinv J) (/ y)%Qc.
Proof.
  unfold contains. intros Hpos [H1 H2].
  apply positive_itv_spec in Hpos.
  pose proof (val_pos Hpos) as Hlo.
  assert (Hy : 0 < this y) by lra.
  assert (Hhi : (0 < BigZ.to_Z (hi J))%Z).
  { destruct (Z.lt_ge_cases 0 (BigZ.to_Z (hi J))) as [? | Hn];
      [assumption |].
    assert (Hv : val (BigZ.to_Z (hi J)) <= 0)
      by (unfold val, Qle; cbn [Qnum Qden]; lia).
    lra. }
  pose proof (val_pos Hhi) as Hhi'.
  cbn [iinv lo hi].
  rewrite this_inv, BigZ.spec_opp, !BigZ.spec_div, BigZ.spec_opp, to_Z_scale2B.
  split.
  - eapply Qle_trans; [apply val_inv_lower; assumption |].
    apply Qle_shift_inv_l; [assumption |].
    rewrite Qmult_comm. apply Qle_shift_div_r; [assumption |]. lra.
  - eapply Qle_trans; [| apply val_inv_upper; assumption].
    apply Qle_shift_inv_l; [assumption |].
    rewrite Qmult_comm. apply Qle_shift_div_r; [assumption |]. lra.
Qed.

Lemma contains_div I J x y :
  positive_itv J = true -> contains I x -> contains J y ->
  contains (idiv I J) (x / y)%Qc.
Proof.
  intros Hpos Hx Hy. unfold idiv, Qcdiv.
  apply contains_mul; [assumption |]. now apply contains_inv.
Qed.

Lemma contains_positive J y :
  positive_itv J = true -> contains J y -> (0 < y)%Qc.
Proof.
  unfold contains. intros Hpos [H1 _].
  apply positive_itv_spec in Hpos.
  pose proof (val_pos Hpos). unfold Qclt. cbn. lra.
Qed.

Lemma contains_enclose (x : Qc) : contains (enclose (this x)) x.
Proof.
  unfold contains, enclose. cbn [lo hi]. rewrite !BigZ.spec_of_Z.
  unfold val.
  pose proof (Qfloor_le (this x * inject_Z (Zpos scale))) as H1.
  pose proof (Qle_ceiling (this x * inject_Z (Zpos scale))) as H2.
  rewrite !Qmake_Qdiv. split.
  - apply Qle_shift_div_r; [reflexivity | exact H1].
  - apply Qle_shift_div_l; [reflexivity | exact H2].
Qed.

(** Points of two intervals that are [within tol] are less than [tol]
    apart. *)
Lemma within_spec tol I J x y :
  within tol I J = true -> contains I x -> contains J y ->
  (this x - this y < tol)%Q /\ (this y - this x < tol)%Q.
Proof.
  unfold within, contains. cbv zeta.
  rewrite andb_true_iff, !BigZ.spec_ltb, !BigZ.spec_sub, !BigZ.spec_of_Z.
  rewrite !Z.ltb_lt.
  intros [H1 H2] [Hx1 Hx2] [Hy1 Hy2].
  pose proof (Qfloor_le (tol * inject_Z (Zpos scale))) as Hf.
  assert (Hb : val (Qfloor (tol * inject_Z (Zpos scale))) <= tol).
  { unfold val. rewrite Qmake_Qdiv.
    apply Qle_shift_div_r; [reflexivity | exact Hf]. }
  apply val_lt in H1, H2.
  rewrite val_minus in H1, H2. split; lra.
Qed.

End IntervalFacts.

(* ===================================================================== *)
(** * The recursions on intervals enclose the recursions on rationals     *)
(* ===================================================================== *)

Module CoordinatesFacts.

Import Mat LQ Coordinates Fixture Enclosure IntervalFacts.
Local Open Scope Qc_scope.
Local Unset Implicit Arguments.

Lemma contains_add' I J x y :
  Interval.contains I x -> Interval.contains J y ->
  Interval.contains (add Interval.ops I J) (add ops x y).
Proof. apply contains_add. Qed.

Lemma contains_sub' I J x y :
  Interval.contains I x -> Interval.contains J y ->
  Interval.contains (sub Interval.ops I J) (sub ops x y).
Proof. apply contains_sub. Qed.

Lemma contains_mul' I J x y :
  Interval.contains I x -> Interval.contains J y ->
  Interval.contains (mul Interval.ops I J) (mul ops x y).
Proof. apply contains_mul. Qed.

Lemma contains_div' I J x y :
  Interval.positive_itv J = true ->
  Interval.contains I x -> Interval.contains J y ->
  Interval.contains (div Interval.ops I J) (div ops x y).
Proof. apply contains_div. Qed.

Ltac enclose :=
  repeat match goal with
         | |- Interval.contains (add Interval.ops _ _) (add ops _ _) =>
             apply contains_add'
         | |- Interval.contains (sub Interval.ops _ _) (sub ops _ _) =>
             apply contains_sub'
         | |- Interval.contains (mul Interval.ops _ _) (mul ops _ _) =>
             apply contains_mul'
         | |- _ => assumption
         end.

Ltac open_records :=
  unfold contains_game, contains_system, contains_values, contains_gains,
         contains_state, contains_m2, contains_v2 in *;
  cbn [fst snd e00 e01 e10 e11 v0 v1 gA gB1 gB2 gQ1 gQ2 gR11 gR12 gR21 gR22
       s00 s01 s10 s11 y0 y1] in *.

Ltac split_all :=
  repeat match goal with
         | H : _ /\ _ |- _ => destruct H
         end;
  repeat match goal with
         | |- _ /\ _ => split
         end.

Lemma contains_system_intro ig g IZ1 IZ2 Z1 Z2 :
  contains_game ig g ->
  contains_m2 IZ1 Z1 -> contains_m2 IZ2 Z2 ->
  contains_system (system Interval.ops ig IZ1 IZ2) (system ops g Z1 Z2).
Proof.
  intros Hg H1 H2. unfold system, dot, BtZ, rowA. open_records.
  split_all; enclose.
Qed.

Lemma contains_determinant Is s :
  contains_system Is s ->
  Interval.contains (determinant Interval.ops Is) (determinant ops s).
Proof.
  intros H. unfold determinant. open_records. split_all; enclose.
Qed.

Lemma contains_gains_intro Is s :
  Interval.positive_itv (determinant Interval.ops Is) = true ->
  contains_system Is s ->
  contains_gains (gains Interval.ops Is) (gains ops s).
Proof.
  intros Hpos H. pose proof (contains_determinant _ _ H) as Hd.
  unfold gains. open_records.
  split_all; (apply contains_div'; [exact Hpos | enclose | exact Hd]).
Qed.

Lemma contains_values_intro ig g IZ1 IZ2 IP1 IP2 Z1 Z2 P1 P2 :
  contains_game ig g ->
  contains_m2 IZ1 Z1 -> contains_m2 IZ2 Z2 ->
  contains_v2 IP1 P1 -> contains_v2 IP2 P2 ->
  contains_values (values Interval.ops ig IZ1 IZ2 IP1 IP2)
                  (values ops g Z1 Z2 P1 P2).
Proof.
  intros Hg H1 H2 H3 H4. unfold values, value, congruence, closed_loop.
  open_records. split_all; enclose.
Qed.

Lemma contains_own_pivot IB IZ Ir B Z r :
  contains_v2 IB B -> contains_m2 IZ Z -> Interval.contains Ir r ->
  Interval.contains (own_pivot Interval.ops IB IZ Ir) (own_pivot ops B Z r).
Proof.
  intros H1 H2 H3. unfold own_pivot, dot, BtZ. open_records.
  split_all; enclose.
Qed.

Lemma contains_against ig g IB IP B P :
  contains_game ig g ->
  contains_v2 IB B -> contains_v2 IP P ->
  contains_m2 (against Interval.ops ig IB IP) (against ops g B P).
Proof.
  intros Hg H1 H2. unfold against. open_records. split_all; enclose.
Qed.

Lemma contains_own_gain IB IZ Ir IM B Z r M :
  Interval.positive_itv (own_pivot Interval.ops IB IZ Ir) = true ->
  contains_v2 IB B -> contains_m2 IZ Z -> Interval.contains Ir r ->
  contains_m2 IM M ->
  contains_v2 (own_gain Interval.ops IB IZ Ir IM) (own_gain ops B Z r M).
Proof.
  intros Hpos H1 H2 H3 H4.
  pose proof (contains_own_pivot _ _ _ _ _ _ H1 H2 H3) as Hp.
  unfold own_gain, rowA, BtZ. open_records.
  split_all; (apply contains_div'; [exact Hpos | enclose | exact Hp]).
Qed.


Lemma contains_backward ig g IZ IZ' Z :
  contains_game ig g -> contains_values IZ Z ->
  backward_itv ig IZ = Some IZ' ->
  0 < determinant ops (system ops g (fst Z) (snd Z)) /\
  contains_values IZ' (backward ops g Z).
Proof.
  intros Hg [H1 H2]. unfold backward_itv. cbv zeta.
  destruct (Interval.positive_itv _) eqn:Hpos; [| discriminate].
  intros [= <-].
  pose proof (contains_system_intro _ _ _ _ _ _ Hg H1 H2) as Hs.
  pose proof (contains_gains_intro _ _ Hpos Hs) as [HP1 HP2].
  split.
  - exact (contains_positive Hpos (contains_determinant _ _ Hs)).
  - unfold backward.
    destruct (gains Interval.ops _) as [IP1 IP2].
    destruct (gains ops _) as [P1 P2].
    exact (contains_values_intro _ _ _ _ _ _ _ _ _ _ Hg H1 H2 HP1 HP2).
Qed.

Lemma contains_gains_itv ig g IZ IP Z :
  contains_game ig g -> contains_values IZ Z ->
  gains_itv ig IZ = Some IP ->
  0 < determinant ops (system ops g (fst Z) (snd Z)) /\
  contains_gains IP (gains ops (system ops g (fst Z) (snd Z))).
Proof.
  intros Hg [H1 H2]. unfold gains_itv. cbv zeta.
  destruct (Interval.positive_itv _) eqn:Hpos; [| discriminate].
  intros [= <-].
  pose proof (contains_system_intro _ _ _ _ _ _ Hg H1 H2) as Hs.
  split.
  - exact (contains_positive Hpos (contains_determinant _ _ Hs)).
  - exact (contains_gains_intro _ _ Hpos Hs).
Qed.

Lemma contains_lyapunov ig g Ist Ist' st :
  contains_game ig g -> contains_state Ist st ->
  lyapunov_itv ig Ist = Some Ist' ->
  0 < own_pivot ops (gB1 g) (snd (fst st)) (gR11 g) /\
  0 < own_pivot ops (gB2 g) (snd st) (gR22 g) /\
  contains_state Ist' (lyapunov ops g st).
Proof.
  intros Hg Hst. unfold lyapunov_itv. cbv zeta.
  destruct (Interval.positive_itv _ && Interval.positive_itv _) eqn:Hpos;
    [| discriminate].
  apply andb_true_iff in Hpos. destruct Hpos as [Hp1 Hp2].
  intros [= <-].
  destruct Ist as [[[IP1 IP2] IZ1] IZ2]. destruct st as [[[P1 P2] Z1] Z2].
  destruct Hst as (HP1 & HP2 & HZ1 & HZ2). cbn [fst snd] in *.
  pose proof Hg as (HA & HB1 & HB2 & HQ1 & HQ2 & HR11 & HR12 & HR21 & HR22).
  split; [| split].
  - exact (contains_positive Hp1 (contains_own_pivot _ _ _ _ _ _ HB1 HZ1 HR11)).
  - exact (contains_positive Hp2 (contains_own_pivot _ _ _ _ _ _ HB2 HZ2 HR22)).
  - unfold lyapunov.
    pose proof (contains_own_gain _ _ _ _ _ _ _ _ Hp1 HB1 HZ1 HR11
                  (contains_against _ _ _ _ _ _ Hg HB2 HP2)) as G1.
    pose proof (contains_own_gain _ _ _ _ _ _ _ _ Hp2 HB2 HZ2 HR22
                  (contains_against _ _ _ _ _ _ Hg HB1 HP1)) as G2.
    pose proof (contains_values_intro _ _ _ _ _ _ _ _ _ _ Hg HZ1 HZ2 G1 G2)
      as [V1 V2].
    destruct (values Interval.ops _ _ _ _ _) as [IZ1' IZ2'].
    destruct (values ops _ _ _ _ _) as [Z1' Z2'].
    exact (conj G1 (conj G2 (conj V1 V2))).
Qed.

Lemma contains_lyapunov_start ig g Ist :
  contains_game ig g ->
  lyapunov_start_itv ig = Some Ist ->
  0 < own_pivot ops (gB1 g) (gQ1 g) (gR11 g) /\
  0 < own_pivot ops (gB2 g) (gQ2 g) (gR22 g) /\
  contains_state Ist (lyapunov_start ops g).
Proof.
  intros Hg. unfold lyapunov_start_itv.
  destruct (Interval.positive_itv _ && Interval.positive_itv _) eqn:Hpos;
    [| discriminate].
  apply andb_true_iff in Hpos. destruct Hpos as [Hp1 Hp2].
  intros [= <-].
  pose proof Hg as (HA & HB1 & HB2 & HQ1 & HQ2 & HR11 & HR12 & HR21 & HR22).
  split; [| split].
  - exact (contains_positive Hp1 (contains_own_pivot _ _ _ _ _ _ HB1 HQ1 HR11)).
  - exact (contains_positive Hp2 (contains_own_pivot _ _ _ _ _ _ HB2 HQ2 HR22)).
  - exact (conj (contains_own_gain _ _ _ _ _ _ _ _ Hp1 HB1 HQ1 HR11 HA)
           (conj (contains_own_gain _ _ _ _ _ _ _ _ Hp2 HB2 HQ2 HR22 HA)
                 (conj HQ1 HQ2))).
Qed.

Lemma contains_itv_of x : Interval.contains (itv_of x) x.
Proof. apply contains_enclose. Qed.

Lemma contains_itv_game g : contains_game (itv_game g) g.
Proof.
  unfold itv_game, itv_m2, itv_v2. open_records.
  repeat match goal with |- _ /\ _ => split end; apply contains_itv_of.
Qed.

End CoordinatesFacts.

(* ===================================================================== *)
(** * The solver and the Lyapunov iterations on the fixture, in
      coordinates                                                         *)
(* ===================================================================== *)

Module FixtureFacts.

Import Mat LQ Coordinates Fixture Enclosure MatFacts QcFacts LQFacts
       LQStepFacts LQPassFacts IntervalFacts CoordinatesFacts.
Local Open Scope Qc_scope.
Local Unset Implicit Arguments.

Ltac evaluate :=
  cbv -[Qcplus Qcmult Qcminus Qcopp Qcdiv Qcinv Q2Qc].

Tactic Notation "evaluate" "in" hyp(H) :=
  cbv -[Qcplus Qcmult Qcminus Qcopp Qcdiv Qcinv Q2Qc] in H.

(** ** Small matrices by their coefficients *)

Lemma shape M r c :
  has_dims r c M -> M = tabulate r c (coeff M).
Proof.
  intros (Hwf & Hr & Hc). rewrite <- Hr, <- Hc.
  now apply wf_tabulate_coeff.
Qed.

Lemma shape_1x1 M :
  has_dims 1 1 M -> exists a, M = mkMatrix 1 1 [[a]].
Proof. intros H. eexists. rewrite (shape _ _ _ H) at 1. reflexivity. Qed.

Lemma shape_2x2 M :
  has_dims 2 2 M -> exists a b c d, M = mkMatrix 2 2 [[a; b]; [c; d]].
Proof.
  intros H. do 4 eexists. rewrite (shape _ _ _ H) at 1. reflexivity.
Qed.

Lemma shape_1x2 M :
  has_dims 1 2 M -> M = row2 (row_of M).
Proof. intros H. rewrite (shape _ _ _ H) at 1. reflexivity. Qed.

Lemma det_1x1 a : det (mkMatrix 1 1 [[a]]) = a.
Proof. evaluate. ring. Qed.

Lemma det_2x2 a b c d : det (mkMatrix 2 2 [[a; b]; [c; d]]) = a * d - b * c.
Proof. evaluate. ring. Qed.

Lemma det_tabulate_1 f : det (tabulate 1 1 f) = f 0%nat 0%nat.
Proof. evaluate. ring. Qed.

Lemma det_tabulate_2 f :
  det (tabulate 2 2 f)
  = f 0%nat 0%nat * f 1%nat 1%nat - f 0%nat 1%nat * f 1%nat 0%nat.
Proof. evaluate. ring. Qed.

(** ** [exact_solve] solves systems of order 1 and 2 *)

Lemma has_dims_exact_solve n c Smat Ymat :
  has_dims n n Smat -> has_dims n c Ymat -> has_dims n c (exact_solve Smat Ymat).
Proof.
  intros (_ & _ & HcS) (_ & _ & HcY). unfold exact_solve.
  split; [apply wf_tabulate |].
  rewrite rows_tabulate, cols_tabulate. split; assumption.
Qed.

Lemma exact_solve_order_1 : solves_exactly 1 exact_solve.
Proof.
  intros Smat Ymat c HS HY Hdet.
  split; [now apply has_dims_exact_solve |].
  pose proof HY as (HwY & HrY & HcY).
  destruct (shape_1x1 _ HS) as (a & ->). rewrite det_1x1 in Hdet.
  apply matrix_ext.
  - apply wf_mmul.
  - exact HwY.
  - rewrite rows_mmul, HrY. reflexivity.
  - rewrite cols_mmul. unfold exact_solve. now rewrite cols_tabulate.
  - intros i j Hi Hj. rewrite rows_mmul in Hi. rewrite cols_mmul in Hj.
    cbn [rows] in Hi. unfold exact_solve in Hj |- *.
    rewrite cols_tabulate in Hj.
    rewrite coeff_mmul by (cbn [rows]; rewrite ?cols_tabulate; lia).
    cbn [cols rows]. rewrite sum_n_S, sum_n_0.
    rewrite coeff_tabulate by lia.
    unfold replace_col. cbn [rows cols]. rewrite det_tabulate_1, det_1x1.
    assert (i = 0%nat) as -> by lia.
    cbn [Nat.eqb]. change (coeff (mkMatrix 1 1 [[a]]) 0 0) with a.
    field. exact Hdet.
Qed.

Lemma exact_solve_order_2 : solves_exactly 2 exact_solve.
Proof.
  intros Smat Ymat c HS HY Hdet.
  split; [now apply has_dims_exact_solve |].
  pose proof HY as (HwY & HrY & HcY).
  destruct (shape_2x2 _ HS) as (a & b & c' & d & ->).
  rewrite det_2x2 in Hdet.
  apply matrix_ext.
  - apply wf_mmul.
  - exact HwY.
  - rewrite rows_mmul, HrY. reflexivity.
  - rewrite cols_mmul. unfold exact_solve. now rewrite cols_tabulate.
  - intros i j Hi Hj. rewrite rows_mmul in Hi. rewrite cols_mmul in Hj.
    cbn [rows] in Hi. unfold exact_solve in Hj |- *.
    rewrite cols_tabulate in Hj.
    rewrite coeff_mmul by (cbn [rows]; rewrite ?cols_tabulate; lia).
    cbn [cols rows]. rewrite !sum_n_S, sum_n_0.
    rewrite !coeff_tabulate by lia.
    unfold replace_col. cbn [rows cols]. rewrite !det_tabulate_2, det_2x2.
    cbn [Nat.eqb].
    change (coeff (mkMatrix 2 2 [[a; b]; [c'; d]]) 0 0) with a.
    change (coeff (mkMatrix 2 2 [[a; b]; [c'; d]]) 0 1) with b.
    change (coeff (mkMatrix 2 2 [[a; b]; [c'; d]]) 1 0) with c'.
    change (coeff (mkMatrix 2 2 [[a; b]; [c'; d]]) 1 1) with d.
    destruct i as [| [| i]]; [| | lia].
    + change (coeff (mkMatrix 2 2 [[a; b]; [c'; d]]) 0 0) with a.
      change (coeff (mkMatrix 2 2 [[a; b]; [c'; d]]) 0 1) with b.
      field. exact Hdet.
    + change (coeff (mkMatrix 2 2 [[a; b]; [c'; d]]) 1 0) with c'.
      change (coeff (mkMatrix 2 2 [[a; b]; [c'; d]]) 1 1) with d.
      field. exact Hdet.
Qed.


(** ** One backward step of the solver *)

Lemma populate_S_Y_game g l1 l2 Z1 Z2 z1 z2 dS dY :
  exists Smat Ymat,
    populate_S_Y LyapunovTest.dynamics (game_linearization g)
                 (game_quadraticization g l1 l2)
                 [M22 Z1; M22 Z2] [z1; z2]
                 (mkMatrix 2 2 dS) (mkMatrix 2 3 dY)
    = Ok (2%nat, Smat, Ymat) /\
    has_dims 2 2 Smat /\ has_dims 2 3 Ymat /\
    coeff Smat 0 0 = s00 (system ops g Z1 Z2) /\
    coeff Smat 0 1 = s01 (system ops g Z1 Z2) /\
    coeff Smat 1 0 = s10 (system ops g Z1 Z2) /\
    coeff Smat 1 1 = s11 (system ops g Z1 Z2) /\
    coeff Ymat 0 0 = v0 (y0 (system ops g Z1 Z2)) /\
    coeff Ymat 0 1 = v1 (y0 (system ops g Z1 Z2)) /\
    coeff Ymat 1 0 = v0 (y1 (system ops g Z1 Z2)) /\
    coeff Ymat 1 1 = v1 (y1 (system ops g Z1 Z2)).
Proof.
  eexists. eexists. split; [evaluate; reflexivity |].
  split; [evaluate; auto |]. split; [evaluate; auto |].
  evaluate. repeat split; ring.
Qed.

(** The solution of a nonsingular system of order 2, by Cramer's rule. *)
Lemma cramer (a b c d x y u v : Qc) :
  a * x + b * y = u -> c * x + d * y = v -> a * d - b * c <> 0 ->
  x = (d * u - b * v) / (a * d - b * c) /\
  y = (a * v - c * u) / (a * d - b * c).
Proof.
  intros <- <- Hdet. split; field; exact Hdet.
Qed.

Lemma solution_coefficients Smat Xmat Ymat c j :
  has_dims 2 2 Smat -> has_dims 2 c Xmat -> mmul Smat Xmat = Ymat ->
  (j < c)%nat ->
  coeff Smat 0 0 * coeff Xmat 0 j + coeff Smat 0 1 * coeff Xmat 1 j
  = coeff Ymat 0 j /\
  coeff Smat 1 0 * coeff Xmat 0 j + coeff Smat 1 1 * coeff Xmat 1 j
  = coeff Ymat 1 j.
Proof.
  intros (_ & HrS & HcS) (_ & HrX & HcX) <- Hj.
  rewrite !coeff_mmul by lia. rewrite HcS, !sum_n_S, !sum_n_0.
  cbv beta. split; ring.
Qed.

Lemma gains_of_solution solve g Z1 Z2 Smat Ymat :
  solves_exactly 2 solve ->
  has_dims 2 2 Smat -> has_dims 2 3 Ymat ->
  coeff Smat 0 0 = s00 (system ops g Z1 Z2) ->
  coeff Smat 0 1 = s01 (system ops g Z1 Z2) ->
  coeff Smat 1 0 = s10 (system ops g Z1 Z2) ->
  coeff Smat 1 1 = s11 (system ops g Z1 Z2) ->
  coeff Ymat 0 0 = v0 (y0 (system ops g Z1 Z2)) ->
  coeff Ymat 0 1 = v1 (y0 (system ops g Z1 Z2)) ->
  coeff Ymat 1 0 = v0 (y1 (system ops g Z1 Z2)) ->
  coeff Ymat 1 1 = v1 (y1 (system ops g Z1 Z2)) ->
  determinant ops (system ops g Z1 Z2) <> 0 ->
  exists a0 a1,
    solve Smat Ymat
    = mkMatrix 2 3
        [[v0 (fst (gains ops (system ops g Z1 Z2)));
          v1 (fst (gains ops (system ops g Z1 Z2))); a0];
         [v0 (snd (gains ops (system ops g Z1 Z2)));
          v1 (snd (gains ops (system ops g Z1 Z2))); a1]].
Proof.
  intros Hex HS HY E00 E01 E10 E11 F00 F01 F10 F11 Hdet.
  assert (HdetS : det Smat <> 0).
  { destruct (shape_2x2 _ HS) as (a & b & c & d & ->).
    rewrite det_2x2.
    change (coeff (mkMatrix 2 2 [[a; b]; [c; d]]) 0 0) with a in E00.
    change (coeff (mkMatrix 2 2 [[a; b]; [c; d]]) 0 1) with b in E01.
    change (coeff (mkMatrix 2 2 [[a; b]; [c; d]]) 1 0) with c in E10.
    change (coeff (mkMatrix 2 2 [[a; b]; [c; d]]) 1 1) with d in E11.
    rewrite E00, E01, E10, E11. exact Hdet. }
  destruct (Hex Smat Ymat 3%nat HS HY HdetS) as [HX HSX].
  destruct (solution_coefficients _ _ _ 3 0 HS HX HSX ltac:(lia)) as [A0 A1].
  destruct (solution_coefficients _ _ _ 3 1 HS HX HSX ltac:(lia)) as [B0 B1].
  rewrite E00, E01, F00 in A0. rewrite E10, E11, F10 in A1.
  rewrite E00, E01, F01 in B0. rewrite E10, E11, F11 in B1.
  unfold determinant in Hdet. cbn [sub mul ops] in Hdet.
  destruct (cramer _ _ _ _ _ _ _ _ A0 A1 Hdet) as [G0 G1].
  destruct (cramer _ _ _ _ _ _ _ _ B0 B1 Hdet) as [G2 G3].
  exists (coeff (solve Smat Ymat) 0 2), (coeff (solve Smat Ymat) 1 2).
  rewrite (shape _ _ _ HX) at 1.
  unfold tabulate. cbn [map seq]. unfold gains, determinant.
  cbn [fst snd v0 v1 sub mul div ops].
  rewrite <- G0, <- G1, <- G2, <- G3. reflexivity.
Qed.


Lemma M22_eq (a b c d a' b' c' d' : Qc) :
  a = a' -> b = b' -> c = c' -> d = d' ->
  mkMatrix 2 2 [[a; b]; [c; d]] = mkMatrix 2 2 [[a'; b']; [c'; d']].
Proof. now intros -> -> -> ->. Qed.

Lemma row2_eq (a b a' b' : Qc) :
  a = a' -> b = b' -> mkMatrix 1 2 [[a; b]] = mkMatrix 1 2 [[a'; b']].
Proof. now intros -> ->. Qed.

Lemma update_values_game g l1 l2 Z1 Z2 z1 z2 P1 P2 a0 a1 F beta :
  compute_F_beta LyapunovTest.dynamics (game_linearization g)
                 (mkMatrix 2 3 [[v0 P1; v1 P1; a0]; [v0 P2; v1 P2; a1]])
  = (F, beta) ->
  exists z1' z2',
    update_values LyapunovTest.dynamics
                  (mkMatrix 2 3 [[v0 P1; v1 P1; a0]; [v0 P2; v1 P2; a1]])
                  F beta (game_quadraticization g l1 l2)
                  [M22 Z1; M22 Z2] [z1; z2]
    = ([M22 (fst (values ops g Z1 Z2 P1 P2));
        M22 (snd (values ops g Z1 Z2 P1 P2))], [z1'; z2']).
Proof.
  intros EF. evaluate in EF. injection EF as <- <-.
  eexists. eexists. evaluate.
  apply (f_equal2 pair); [| reflexivity].
  apply (f_equal2 cons); [apply M22_eq; ring |].
  apply (f_equal2 cons); [apply M22_eq; ring | reflexivity].
Qed.

Lemma backward_step_game solve g l1 l2 lins quads kk solver strategies Z :
  solves_exactly 2 solve ->
  nth kk lins (mkLinearization empty_matrix []) = game_linearization g ->
  nth kk quads [] = game_quadraticization g l1 l2 ->
  solver_at Z solver ->
  determinant ops (system ops g (fst Z) (snd Z)) <> 0 ->
  exists solver',
    backward_step solve LyapunovTest.dynamics lins quads kk
                  (solver, strategies)
    = Ok (solver',
          set_strategies LyapunovTest.dynamics (X_ solver') kk strategies) /\
    solver_at (backward ops g Z) solver' /\
    Ps_ LyapunovTest.dynamics (X_ solver') 0
    = row2 (fst (gains ops (system ops g (fst Z) (snd Z)))) /\
    Ps_ LyapunovTest.dynamics (X_ solver') 1
    = row2 (snd (gains ops (system ops g (fst Z) (snd Z)))).
Proof.
  intros Hex Hlin Hquad Hat Hdet.
  destruct solver as [d0 K S0 X0 Y0 F0 b0 Zs zetas]. destruct Z as [Z1 Z2].
  unfold solver_at in Hat. cbn [S_ Y_ Zs_ zetas_ fst snd] in *.
  destruct Hat as (HrS & HcS & HrY & HcY & -> & Hlen).
  destruct S0 as [rS cS dS], Y0 as [rY cY dY]. cbn [rows cols] in *. subst.
  destruct zetas as [| z1 [| z2 [| ? ?]]]; try discriminate Hlen.
  destruct (populate_S_Y_game g l1 l2 Z1 Z2 z1 z2 dS dY)
    as (Smat & Ymat & E & HS & HY & E00 & E01 & E10 & E11 &
        F00 & F01 & F10 & F11).
  destruct (gains_of_solution solve g Z1 Z2 Smat Ymat Hex HS HY
              E00 E01 E10 E11 F00 F01 F10 F11 Hdet) as (a0 & a1 & EX).
  unfold backward_step. rewrite Hlin, Hquad.
  cbn [Zs_ zetas_ S_ Y_ dynamics_ num_time_steps_].
  rewrite E. cbn [bind]. rewrite EX.
  unfold backward. cbn [fst snd].
  destruct (gains ops (system ops g Z1 Z2)) as [P1 P2]. cbn [fst snd].
  destruct (compute_F_beta _ _ _) as [F beta] eqn:EF.
  destruct (update_values_game g l1 l2 Z1 Z2 z1 z2 P1 P2 a0 a1 F beta EF)
    as (z1' & z2' & ->).
  lazymatch goal with
  | |- exists _, Ok (?s, _) = _ /\ _ => exists s
  end.
  split; [reflexivity |].
  cbn [X_]. split; [| split; reflexivity].
  unfold solver_at. cbn [S_ Y_ Zs_ zetas_].
  destruct HS as (_ & -> & ->). destruct HY as (_ & -> & ->).
  destruct (values ops g Z1 Z2 P1 P2) as [Z1' Z2'].
  repeat split.
Qed.


(** ** The backward pass *)

Lemma iterate_opt_0 {T} (f : T -> option T) x : iterate_opt 0 f x = Some x.
Proof. reflexivity. Qed.

Lemma iterate_opt_S {T} n (f : T -> option T) x :
  iterate_opt (S n) f x
  = match f x with Some y => iterate_opt n f y | None => None end.
Proof. reflexivity. Qed.

Lemma backward_pass_game solve ig g l1 l2 lins quads :
  solves_exactly 2 solve -> contains_game ig g ->
  forall ks solver strategies Z IZ IZ',
    Forall (fun k =>
              nth k lins (mkLinearization empty_matrix [])
              = game_linearization g /\
              nth k quads [] = game_quadraticization g l1 l2) ks ->
    solver_at Z solver -> contains_values IZ Z ->
    iterate_opt (length ks) (backward_itv ig) IZ = Some IZ' ->
    exists solver' strategies' Z',
      backward_pass solve LyapunovTest.dynamics lins quads ks
                    (solver, strategies)
      = Ok (solver', strategies') /\
      solver_at Z' solver' /\ contains_values IZ' Z'.
Proof.
  intros Hex Hg ks.
  induction ks as [| k ks IH]; intros solver strategies Z IZ IZ' Hks Hat HZ E.
  - cbn [length] in E. rewrite iterate_opt_0 in E. injection E as <-.
    exists solver, strategies, Z.
    split; [reflexivity | split; assumption].
  - cbn [length] in E. rewrite iterate_opt_S in E.
    destruct (backward_itv ig IZ) as [IZ1 |] eqn:EB; [| discriminate].
    destruct (contains_backward _ _ _ _ _ Hg HZ EB) as [Hdet HZ1].
    inversion Hks as [| ? ? [Hlin Hquad] Hks']; subst.
    destruct (backward_step_game solve g l1 l2 lins quads k solver strategies
                Z Hex Hlin Hquad Hat (positive_nonzero Hdet))
      as (solver1 & E1 & Hat1 & _).
    destruct (IH solver1
                (set_strategies LyapunovTest.dynamics (X_ solver1) k strategies)
                _ _ _ Hks' Hat1 HZ1 E)
      as (solver' & strategies' & Z' & E' & Hat' & HZ').
    exists solver', strategies', Z'. split; [| split; assumption].
    unfold backward_pass in *. cbn [for_each]. rewrite E1. cbn [bind].
    exact E'.
Qed.

Lemma last_repeat {T} (x dflt : T) n :
  (0 < n)%nat -> last (repeat x n) dflt = x.
Proof.
  induction n as [| [| n] IH]; intros H; [lia | reflexivity |].
  change (last (repeat x (S (S n))) dflt) with (last (repeat x (S n)) dflt).
  apply IH. lia.
Qed.

Lemma nth_repeat_lt {T} (x dflt : T) n k :
  (k < n)%nat -> nth k (repeat x n) dflt = x.
Proof.
  intros H. rewrite (nth_indep _ dflt x) by now rewrite repeat_length.
  apply nth_repeat.
Qed.

Lemma initial_state_game g l1 l2 K :
  (0 < K)%nat ->
  initial_state LyapunovTest.dynamics (LyapunovTest.solver_for K)
                (repeat (game_quadraticization g l1 l2) K)
  = (mkSolver LyapunovTest.dynamics K (Zero 2 2) (Zero 2 3) (Zero 2 3)
              (Zero 2 2) (Zero 2 1) [M22 (gQ1 g); M22 (gQ2 g)] [l1; l2],
     initial_strategies LyapunovTest.dynamics K).
Proof.
  intros HK. unfold initial_state, terminal_values.
  rewrite (last_repeat _ _ _ HK). reflexivity.
Qed.

(** The solver on a time-invariant game over [K] time steps: it returns,
    and its first-step gains lie in the enclosures. *)
Lemma Solve_game solve ig g l1 l2 K IP :
  solves_exactly 2 solve -> contains_game ig g -> (2 <= K)%nat ->
  lq_gains_itv ig K = Some IP ->
  exists strategies P,
    Solve solve (LyapunovTest.solver_for K)
          (repeat (game_linearization g) K)
          (repeat (game_quadraticization g l1 l2) K)
    = Ok strategies /\
    contains_gains IP P /\
    nth 0 (Ps (nth 0 strategies empty_strategy)) empty_matrix = row2 (fst P) /\
    nth 0 (Ps (nth 1 strategies empty_strategy)) empty_matrix = row2 (snd P).
Proof.
  intros Hex Hg HK E. unfold lq_gains_itv in E.
  destruct (iterate_opt _ _ _) as [IZ |] eqn:EI; [| discriminate].
  pose proof Hg as (_ & _ & _ & HQ1 & HQ2 & _).
  assert (Hlen : length (steps_before K 0) = (K - 2)%nat).
  { unfold steps_before. rewrite length_rev, length_seq. lia. }
  rewrite <- Hlen in EI.
  assert (Hks : Forall (fun k =>
              nth k (repeat (game_linearization g) K)
                  (mkLinearization empty_matrix [])
              = game_linearization g /\
              nth k (repeat (game_quadraticization g l1 l2) K) []
              = game_quadraticization g l1 l2) (steps_before K 0)).
  { apply Forall_forall. intros k Hk. apply steps_before_bound in Hk.
    split; apply nth_repeat_lt; lia. }
  destruct (backward_pass_game solve ig g l1 l2 _ _ Hex Hg (steps_before K 0)
              (mkSolver LyapunovTest.dynamics K (Zero 2 2) (Zero 2 3)
                        (Zero 2 3) (Zero 2 2) (Zero 2 1)
                        [M22 (gQ1 g); M22 (gQ2 g)] [l1; l2])
              (initial_strategies LyapunovTest.dynamics K)
              (gQ1 g, gQ2 g) (gQ1 ig, gQ2 ig) IZ Hks)
    as (solver1 & strategies1 & Z & E1 & Hat1 & HZ1).
  { repeat split. }
  { split; assumption. }
  { exact EI. }
  destruct (contains_gains_itv _ _ _ _ _ Hg HZ1 E) as [Hdet HP].
  destruct (backward_step_game solve g l1 l2
              (repeat (game_linearization g) K)
              (repeat (game_quadraticization g l1 l2) K)
              0 solver1 strategies1 Z Hex) as (solver2 & E2 & _ & HP1 & HP2).
  { apply nth_repeat_lt. lia. }
  { apply nth_repeat_lt. lia. }
  { exact Hat1. }
  { exact (positive_nonzero Hdet). }
  assert (Hsized : strategies_sized 2 K strategies1).
  { exact (@backward_pass_sized solve LyapunovTest.dynamics
             (repeat (game_linearization g) K)
             (repeat (game_quadraticization g l1 l2) K)
             (steps_before K 0) 2 K
             (mkSolver LyapunovTest.dynamics K (Zero 2 2) (Zero 2 3)
                       (Zero 2 3) (Zero 2 2) (Zero 2 1)
                       [M22 (gQ1 g); M22 (gQ2 g)] [l1; l2],
              initial_strategies LyapunovTest.dynamics K)
             (solver1, strategies1)
             (initial_strategies_sized LyapunovTest.dynamics K) E1). }
  destruct Hsized as [Hn Hall].
  exists (set_strategies LyapunovTest.dynamics (X_ solver2) 0 strategies1),
         (gains ops (system ops g (fst Z) (snd Z))).
  split; [| split; [exact HP |]].
  - unfold Solve. cbn [num_time_steps_ dynamics_ LyapunovTest.solver_for].
    rewrite !repeat_length, Nat.eqb_refl. cbn [negb].
    rewrite (initial_state_game g l1 l2 K) by lia.
    rewrite (@backward_range_split K 0) by lia. cbn [seq rev].
    unfold backward_pass in *. rewrite for_each_app, E1. cbn [bind for_each].
    rewrite E2. reflexivity.
  - assert (Hps : forall i, (i < 2)%nat ->
              nth 0 (Ps (nth i (set_strategies LyapunovTest.dynamics
                                               (X_ solver2) 0 strategies1)
                             empty_strategy)) empty_matrix
              = Ps_ LyapunovTest.dynamics (X_ solver2) i).
    { intros i Hi.
      rewrite (@set_strategies_nth LyapunovTest.dynamics (X_ solver2) 0
                 strategies1 i) by (cbn [NumPlayers LyapunovTest.dynamics]; lia).
      cbn [Ps]. apply nth_set_nth_same.
      assert (Hin : In (nth i strategies1 empty_strategy) strategies1)
        by (apply nth_In; lia).
      rewrite Forall_forall in Hall. destruct (Hall _ Hin) as [-> _]. lia. }
    rewrite !Hps by lia. split; assumption.
Qed.


(** ** The Lyapunov iterations *)

Lemma has_dims_M11 s : has_dims 1 1 (M11 s).
Proof.
  split; [split; [reflexivity | repeat constructor] | split; reflexivity].
Qed.

Lemma has_dims_row2 y : has_dims 1 2 (row2 y).
Proof.
  split; [split; [reflexivity | repeat constructor] | split; reflexivity].
Qed.

(** The solve of each player's scalar equation. *)
Lemma solve_pivot solve s y :
  solves_exactly 1 solve -> s <> 0 ->
  solve (M11 s) (row2 y) = row2 (mkV2 (v0 y / s) (v1 y / s)).
Proof.
  intros Hex Hs.
  assert (Hdet : det (M11 s) <> 0) by (unfold M11; now rewrite det_1x1).
  destruct (Hex (M11 s) (row2 y) 2%nat (has_dims_M11 s) (has_dims_row2 y) Hdet)
    as [HX HSX].
  rewrite (shape_1x2 _ HX). apply f_equal. unfold row_of.
  pose proof (f_equal (fun M => coeff M 0 0) HSX) as E0.
  pose proof (f_equal (fun M => coeff M 0 1) HSX) as E1.
  cbv beta in E0, E1. destruct HX as (_ & HrX & HcX).
  rewrite coeff_mmul in E0, E1 by (rewrite ?HcX; cbn [rows M11]; lia).
  cbn [cols M11] in E0, E1. rewrite sum_n_S, sum_n_0 in E0, E1.
  change (coeff (M11 s) 0 0) with s in E0, E1.
  change (coeff (row2 y) 0 0) with (v0 y) in E0.
  change (coeff (row2 y) 0 1) with (v1 y) in E1.
  apply (f_equal2 (@mkV2 Qc)).
  - rewrite <- E0. field. exact Hs.
  - rewrite <- E1. field. exact Hs.
Qed.

Lemma own_gain_solve solve B Z r M :
  solves_exactly 1 solve -> own_pivot ops B Z r <> 0 ->
  solve (madd (M11 r) (mmul (mmul (transpose (col2 B)) (M22 Z)) (col2 B)))
        (mmul (mmul (transpose (col2 B)) (M22 Z)) (M22 M))
  = row2 (own_gain ops B Z r M).
Proof.
  intros Hex Hs.
  assert (E1 : madd (M11 r) (mmul (mmul (transpose (col2 B)) (M22 Z)) (col2 B))
               = M11 (own_pivot ops B Z r)).
  { evaluate. do 3 f_equal. ring. }
  assert (E2 : mmul (mmul (transpose (col2 B)) (M22 Z)) (M22 M)
               = row2 (rowA ops (BtZ ops B Z) M)).
  { evaluate. apply row2_eq; ring. }
  rewrite E1, E2. rewrite (solve_pivot solve _ _ Hex Hs). reflexivity.
Qed.

Lemma against_game g B P :
  msub (M22 (gA g)) (mmul (col2 B) (row2 P)) = M22 (against ops g B P).
Proof. evaluate. apply M22_eq; ring. Qed.

Lemma value_update_game g Z r1 r2 Qm P1 P2 :
  madd (madd (madd (mmul (mmul (transpose
                 (msub (msub (M22 (gA g)) (mmul (col2 (gB1 g)) (row2 P1)))
                       (mmul (col2 (gB2 g)) (row2 P2))))
                 (M22 Z))
                 (msub (msub (M22 (gA g)) (mmul (col2 (gB1 g)) (row2 P1)))
                       (mmul (col2 (gB2 g)) (row2 P2))))
                   (mmul (mmul (transpose (row2 P1)) (M11 r1)) (row2 P1)))
             (mmul (mmul (transpose (row2 P2)) (M11 r2)) (row2 P2)))
       (M22 Qm)
  = M22 (value ops (closed_loop ops g P1 P2) Z Qm r1 r2 P1 P2).
Proof. evaluate. apply M22_eq; ring. Qed.

Lemma lyapunov_iteration_game solve g st :
  solves_exactly 1 solve ->
  own_pivot ops (gB1 g) (snd (fst st)) (gR11 g) <> 0 ->
  own_pivot ops (gB2 g) (snd st) (gR22 g) <> 0 ->
  LyapunovTest.lyapunov_iteration solve
    (M22 (gA g)) (col2 (gB1 g)) (col2 (gB2 g)) (M22 (gQ1 g)) (M22 (gQ2 g))
    (M11 (gR11 g)) (M11 (gR12 g)) (M11 (gR21 g)) (M11 (gR22 g))
    (lyapunov_state st)
  = lyapunov_state (lyapunov ops g st).
Proof.
  intros Hex H1 H2. destruct st as [[[p1 p2] Z1] Z2]. cbn [fst snd] in H1, H2.
  unfold lyapunov_state, LyapunovTest.lyapunov_iteration, lyapunov.
  cbn [fst snd]. cbv zeta.
  rewrite !against_game.
  rewrite (own_gain_solve solve _ _ _ _ Hex H1).
  rewrite (own_gain_solve solve _ _ _ _ Hex H2).
  rewrite !value_update_game. reflexivity.
Qed.

Lemma lyapunov_init_game solve g :
  solves_exactly 1 solve ->
  own_pivot ops (gB1 g) (gQ1 g) (gR11 g) <> 0 ->
  own_pivot ops (gB2 g) (gQ2 g) (gR22 g) <> 0 ->
  LyapunovTest.lyapunov_init solve
    (M22 (gA g)) (col2 (gB1 g)) (col2 (gB2 g)) (M22 (gQ1 g)) (M22 (gQ2 g))
    (M11 (gR11 g)) (M11 (gR22 g))
  = lyapunov_state (lyapunov_start ops g).
Proof.
  intros Hex H1 H2.
  unfold lyapunov_state, LyapunovTest.lyapunov_init, lyapunov_start.
  cbn [fst snd]. cbv zeta.
  rewrite (own_gain_solve solve _ _ _ _ Hex H1).
  rewrite (own_gain_solve solve _ _ _ _ Hex H2).
  reflexivity.
Qed.

Lemma iterate_S {T} n (f : T -> T) x :
  LyapunovTest.iterate (S n) f x = LyapunovTest.iterate n f (f x).
Proof. reflexivity. Qed.

Lemma iterate_lyapunov solve ig g :
  solves_exactly 1 solve -> contains_game ig g ->
  forall n Ist st Ist',
    contains_state Ist st ->
    iterate_opt n (lyapunov_itv ig) Ist = Some Ist' ->
    exists st',
      LyapunovTest.iterate n
        (LyapunovTest.lyapunov_iteration solve
           (M22 (gA g)) (col2 (gB1 g)) (col2 (gB2 g))
           (M22 (gQ1 g)) (M22 (gQ2 g))
           (M11 (gR11 g)) (M11 (gR12 g)) (M11 (gR21 g)) (M11 (gR22 g)))
        (lyapunov_state st)
      = lyapunov_state st' /\
      contains_state Ist' st'.
Proof.
  intros Hex Hg n.
  induction n as [| n IH]; intros Ist st Ist' Hst E.
  - rewrite iterate_opt_0 in E. injection E as <-.
    exists st. split; [reflexivity | exact Hst].
  - rewrite iterate_opt_S in E.
    destruct (lyapunov_itv ig Ist) as [Ist1 |] eqn:EL; [| discriminate].
    destruct (contains_lyapunov _ _ _ _ _ Hg Hst EL) as (H1 & H2 & Hst1).
    destruct (IH _ _ _ Hst1 E) as (st' & E' & Hst').
    exists st'. split; [| exact Hst'].
    rewrite iterate_S.
    rewrite (lyapunov_iteration_game solve g st Hex
               (positive_nonzero H1) (positive_nonzero H2)).
    exact E'.
Qed.

Lemma SolveLyapunovIterations_game solve ig g IL :
  solves_exactly 1 solve -> contains_game ig g ->
  lyapunov_gains_itv ig LyapunovTest.kNumIterations = Some IL ->
  exists L,
    LyapunovTest.SolveLyapunovIterations solve
      (M22 (gA g)) (col2 (gB1 g)) (col2 (gB2 g)) (M22 (gQ1 g)) (M22 (gQ2 g))
      (M11 (gR11 g)) (M11 (gR12 g)) (M11 (gR21 g)) (M11 (gR22 g))
    = (row2 (fst L), row2 (snd L)) /\
    contains_gains IL L.
Proof.
  intros Hex Hg E. unfold lyapunov_gains_itv in E.
  destruct (lyapunov_start_itv ig) as [Ist |] eqn:ES; [| discriminate].
  destruct (iterate_opt _ _ _) as [Ist' |] eqn:EI; [| discriminate].
  injection E as <-.
  destruct (contains_lyapunov_start _ _ _ Hg ES) as (H1 & H2 & Hst).
  destruct (iterate_lyapunov solve ig g Hex Hg _ _ _ _ Hst EI)
    as (st' & E' & Hst').
  exists (fst (fst (fst st')), snd (fst (fst st'))).
  split.
  - unfold LyapunovTest.SolveLyapunovIterations.
    rewrite (lyapunov_init_game solve g Hex
               (positive_nonzero H1) (positive_nonzero H2)).
    rewrite E'. reflexivity.
  - destruct Hst' as (G1 & G2 & _). split; assumption.
Qed.


(** ** The fixture is a game in coordinates *)

Lemma Linearize_game : LyapunovTest.Linearize = game_linearization game.
Proof. reflexivity. Qed.

Lemma quadraticizations_game :
  LyapunovTest.quadraticizations
  = game_quadraticization game LyapunovTest.l1 LyapunovTest.l2.
Proof. reflexivity. Qed.

Lemma costs_game :
  LyapunovTest.Q1 = M22 (gQ1 game) /\ LyapunovTest.Q2 = M22 (gQ2 game) /\
  LyapunovTest.R11 = M11 (gR11 game) /\ LyapunovTest.R12 = M11 (gR12 game) /\
  LyapunovTest.R21 = M11 (gR21 game) /\ LyapunovTest.R22 = M11 (gR22 game).
Proof. repeat split. Qed.

(** ** Comparing the gains *)

Lemma Qc_abs_lt (x y t : Qc) :
  (this x - this y < this t)%Q -> (this y - this x < this t)%Q ->
  Qc_abs (x - y) < t.
Proof.
  intros H1 H2. unfold Qc_abs.
  destruct (Qc_ltb (x - y) 0); unfold Qclt.
  - rewrite this_opp, this_minus. lra.
  - rewrite this_minus. lra.
Qed.

Lemma Qc_max_lt (a b t : Qc) : a < t -> b < t -> Qc_max a b < t.
Proof.
  intros H1 H2. unfold Qc_max.
  destruct (Qc_ltb a b); assumption.
Qed.

Lemma close_rows IL IP L P :
  within_v2 (this kSmallNumber) IL IP = true ->
  contains_v2 IL L -> contains_v2 IP P ->
  SolveLQGameTest.close (row2 L) (row2 P) = true.
Proof.
  unfold within_v2. rewrite andb_true_iff.
  intros [W0 W1] [L0 L1] [P0 P1].
  destruct (@within_spec _ _ _ _ _ W0 L0 P0) as [A0 B0].
  destruct (@within_spec _ _ _ _ _ W1 L1 P1) as [A1 B1].
  unfold SolveLQGameTest.close.
  apply Qc_ltb_lt.
  change (maxCoeff (cwiseAbs (msub (row2 L) (row2 P))))
    with (Qc_max (Qc_abs (v0 L - v0 P)) (Qc_abs (v1 L - v1 P))).
  apply Qc_max_lt; apply Qc_abs_lt; assumption.
Qed.

Lemma gains_agree_inv tol lq ly :
  gains_agree tol lq ly = true ->
  exists P L,
    lq = Some P /\ ly = Some L /\
    within_v2 tol (fst L) (fst P) = true /\
    within_v2 tol (snd L) (snd P) = true.
Proof.
  unfold gains_agree. destruct lq as [P |], ly as [L |]; try discriminate.
  rewrite andb_true_iff. intros [H1 H2]. exists P, L. repeat split; assumption.
Qed.

(** The enclosures of the two computations on the fixture, evaluated. *)
Lemma fixture_enclosures_agree :
  gains_agree (this kSmallNumber)
              (lq_gains_itv (itv_game game) LyapunovTest.kNumTimeSteps)
              (lyapunov_gains_itv (itv_game game) LyapunovTest.kNumIterations)
  = true.
Proof. vm_compute. reflexivity. Qed.

(** C8 (as amended).  On the fixture of [SolveLQGameTest] (the two-player
    1D point mass
    discretized at [dt = 0.1], [Q_1 = I], [Q_2 = 2 I], [R_11 = R_22 = 1],
    [R_12 = 0.5], [R_21 = 0.25], 100 time steps), in exact arithmetic and
    for every [solve] that returns the solution of the nonsingular systems
    of order 1 and 2, the test [MatchesLyapunovIterations] succeeds:
    [LQFeedbackSolver::Solve] returns, and every entry of its first-step
    gains [P_1,0] and [P_2,0] is less than [1e-4] away from the gains that
    [SolveLyapunovIterations] returns after its 100 iterations. *)
Theorem lq_matches_lyapunov_iterations solve :
  solves_exactly 1 solve -> solves_exactly 2 solve ->
  SolveLQGameTest.MatchesLyapunovIterations solve = Ok true.
Proof.
  intros H1 H2.
  destruct (gains_agree_inv _ _ _ fixture_enclosures_agree)
    as (IP & IL & ELQ & ELY & W1 & W2).
  pose proof (contains_itv_game game) as Hg.
  assert (HK : (2 <= LyapunovTest.kNumTimeSteps)%nat)
    by (unfold LyapunovTest.kNumTimeSteps; lia).
  destruct (Solve_game solve (itv_game game) game LyapunovTest.l1
              LyapunovTest.l2 LyapunovTest.kNumTimeSteps IP H2 Hg HK ELQ)
    as (strategies & P & ES & [HP1 HP2] & EP1 & EP2).
  destruct (SolveLyapunovIterations_game solve (itv_game game) game IL H1 Hg
              ELY) as (L & EL & [HL1 HL2]).
  destruct costs_game as (EQ1 & EQ2 & ER11 & ER12 & ER21 & ER22).
  unfold SolveLQGameTest.MatchesLyapunovIterations, LyapunovTest.lq_solution.
  rewrite Linearize_game, quadraticizations_game, ES. cbn [bind].
  rewrite EQ1, EQ2, ER11, ER12, ER21, ER22.
  cbn [A Bs game_linearization nth].
  rewrite EL. cbn [fst snd]. rewrite EP1, EP2.
  rewrite (close_rows _ _ _ _ W1 HL1 HP1), (close_rows _ _ _ _ W2 HL2 HP2).
  reflexivity.
Qed.

(** The theorem at [exact_solve], the solve by Cramer's rule. *)
Lemma lq_matches_lyapunov_iterations_witness :
  solves_exactly 1 exact_solve /\ solves_exactly 2 exact_solve /\
  SolveLQGameTest.MatchesLyapunovIterations exact_solve = Ok true.
Proof.
  split; [exact exact_solve_order_1 |].
  split; [exact exact_solve_order_2 |].
  exact (lq_matches_lyapunov_iterations exact_solve exact_solve_order_1
           exact_solve_order_2).
Defined.

End FixtureFacts.

(* ===================================================================== *)
(** * Facts about the receding-horizon driver                             *)
(* ===================================================================== *)

Module RecedingHorizonFacts.

Import RecedingHorizon QcFacts.
Local Open Scope Qc_scope.

(** ** Comparisons of times *)

Lemma Time_leb_le a b : Time_leb a b = true <-> a <= b.
Proof.
  unfold Time_leb. rewrite Qcle_alt.
  destruct (a ?= b); split; congruence.
Qed.

Lemma Time_leb_gt a b : Time_leb a b = false <-> b < a.
Proof.
  unfold Time_leb. change (b < a) with (a > b). rewrite Qcgt_alt.
  destruct (a ?= b); split; congruence.
Qed.

Lemma Time_ltb_lt a b : Time_ltb a b = true <-> a < b.
Proof.
  unfold Time_ltb. rewrite Qclt_alt.
  destruct (a ?= b); split; congruence.
Qed.

Lemma Time_ltb_ge a b : Time_ltb a b = false <-> b <= a.
Proof.
  unfold Time_ltb. change (b <= a) with (a >= b). rewrite Qcge_alt.
  destruct (a ?= b); split; congruence.
Qed.

(** Turn a goal about [Qc] times into one about [Q], for [lra]. *)
Ltac to_Q :=
  unfold Time, kExtraTime, Qcle, Qclt in *;
  repeat match goal with
         | H : context [this (?a + ?b)] |- _ => rewrite (this_plus a b) in H
         | H : context [this (?a - ?b)] |- _ => rewrite (this_minus a b) in H
         | H : context [this (?a * ?b)] |- _ => rewrite (this_mult a b) in H
         | H : context [this (Q2Qc ?q)] |- _ => rewrite (this_Q2Qc q) in H
         | |- context [this (?a + ?b)] => rewrite (this_plus a b)
         | |- context [this (?a - ?b)] => rewrite (this_minus a b)
         | |- context [this (?a * ?b)] => rewrite (this_mult a b)
         | |- context [this (Q2Qc ?q)] => rewrite (this_Q2Qc q)
         end.

Section Driver.

Variables State OperatingPoint Strategies SolverLog Problem SolutionSplicer
  : Type.
Variable env : Collaborators State OperatingPoint Strategies SolverLog Problem
                             SolutionSplicer.

Lemma loop_body_cases planner_runtime st :
  match loop_body env planner_runtime st with
  | Continue st' =>
      elapsed_time st' = measured env st /\ elapsed_time st' <= planner_runtime /\
      logs st' = logs st
                 ++ [fst (Problem_Solve env (Some planner_runtime)
                            (SetUpNextRecedingHorizon env (x st) (t st)
                               planner_runtime (problem st)))] /\
      clock_reads st' = S (S (clock_reads st)) /\
      t st' = t st + elapsed_time st' + kExtraTime
  | CheckLeFailed st' =>
      elapsed_time st' = measured env st /\ planner_runtime < elapsed_time st' /\
      logs st' = logs st
                 ++ [fst (Problem_Solve env (Some planner_runtime)
                            (SetUpNextRecedingHorizon env (x st) (t st)
                               planner_runtime (problem st)))] /\
      x st' = x st /\ t st' = t st /\ splicer st' = splicer st /\
      trace st' = trace st
                  ++ [EvSetUpNextRecedingHorizon (x st) (t st)
                                                 planner_runtime;
                      EvSolve (Some planner_runtime)]
  end.
Proof.
  unfold loop_body, measured.
  destruct (Problem_Solve env (Some planner_runtime) _) as [log problem2].
  destruct (Time_leb _ planner_runtime) eqn:E; cbn [negb].
  - apply Time_leb_le in E. cbn. auto.
  - apply Time_leb_gt in E. cbn. repeat split; auto.
Qed.


Lemma deadlines_met_before_loop planner_runtime problem0 :
  deadlines_met env planner_runtime (before_loop env problem0).
Proof.
  unfold before_loop, deadlines_met.
  destruct (Problem_Solve env None problem0) as [log problem1]. cbn.
  repeat split; auto. intros n Hn. lia.
Qed.

Lemma deadlines_met_step planner_runtime st st' :
  deadlines_met env planner_runtime st ->
  loop_body env planner_runtime st = Continue st' ->
  deadlines_met env planner_runtime st'.
Proof.
  intros [Hreads [Hlen Hmet]] E.
  pose proof (loop_body_cases planner_runtime st) as H. rewrite E in H.
  destruct H as [He [Hle [Hlogs [Hr _]]]].
  unfold deadlines_met. rewrite Hlogs, length_app. cbn [length].
  split; [lia |]. split; [lia |].
  intros n Hn. destruct (Nat.eq_dec n (length (logs st))) as [-> | Hne].
  - rewrite He in Hle. unfold measured in Hle. rewrite Hreads in Hle.
    replace (2 * length (logs st) + 1)%nat with (S (2 * length (logs st)))
      by lia.
    exact Hle.
  - apply Hmet. lia.
Qed.

Lemma while_loop_deadlines fuel final_time planner_runtime :
  forall st,
    deadlines_met env planner_runtime st ->
    match while_loop env fuel final_time planner_runtime st with
    | Returned st' => deadlines_met env planner_runtime st'
    | Died st' =>
        planner_runtime < elapsed_time st' /\
        elapsed_time st'
        = clock_now env (2 * (length (logs st') - 1) + 1)
          - clock_now env (2 * (length (logs st') - 1))
    | OutOfFuel => True
    end.
Proof.
  induction fuel as [| fuel IH]; intros st Hmet; cbn [while_loop].
  - destruct (Time_ltb (t st) final_time); auto.
  - destruct (Time_ltb (t st) final_time); auto.
    pose proof (loop_body_cases planner_runtime st) as H.
    destruct (loop_body env planner_runtime st) as [st' | st'] eqn:E.
    + apply IH. eapply deadlines_met_step; eauto.
    + destruct H as [He [Hlt [Hlogs _]]]. split; [exact Hlt |].
      destruct Hmet as [Hreads _].
      rewrite He, Hlogs, length_app. cbn [length]. unfold measured.
      rewrite Hreads.
      replace (length (logs st) + 1 - 1)%nat with (length (logs st)) by lia.
      replace (2 * length (logs st) + 1)%nat with (S (2 * length (logs st)))
        by lia.
      reflexivity.
Qed.

(** C6.  Every solver invocation inside the loop is timed, and the
    measured time [e] must satisfy [e <= planner_runtime]: a pass whose
    solve is late dies on the check, right after the solve, without
    integrating or splicing; a pass that goes on has [e <= planner_runtime].
    Hence a run that returns has met the deadline at every solve of the
    loop, and a run that dies has just measured a late solve. *)
Theorem deadline_is_enforced planner_runtime :
  (forall st,
      match loop_body env planner_runtime st with
      | Continue st' =>
          elapsed_time st' = measured env st /\
          elapsed_time st' <= planner_runtime
      | CheckLeFailed st' =>
          elapsed_time st' = measured env st /\
          planner_runtime < elapsed_time st' /\
          x st' = x st /\ t st' = t st /\ splicer st' = splicer st /\
          trace st' = trace st
                      ++ [EvSetUpNextRecedingHorizon (x st) (t st)
                                                     planner_runtime;
                          EvSolve (Some planner_runtime)]
      end) /\
  (forall fuel final_time problem0,
      match RecedingHorizonSimulator env fuel final_time planner_runtime
                                     problem0 with
      | Returned st' =>
          forall n, (1 <= n < length (logs st'))%nat ->
                    clock_now env (2 * n + 1) - clock_now env (2 * n)
                    <= planner_runtime
      | Died st' =>
          planner_runtime < elapsed_time st' /\
          elapsed_time st'
          = clock_now env (2 * (length (logs st') - 1) + 1)
            - clock_now env (2 * (length (logs st') - 1))
      | OutOfFuel => True
      end).
Proof.
  split.
  - intros st. pose proof (loop_body_cases planner_runtime st) as H.
    destruct (loop_body env planner_runtime st); tauto.
  - intros fuel final_time problem0. unfold RecedingHorizonSimulator.
    pose proof (@while_loop_deadlines fuel final_time planner_runtime _
                  (deadlines_met_before_loop planner_runtime problem0)) as H.
    destruct (while_loop env fuel final_time planner_runtime _); auto.
    apply H.
Qed.

(** C7.  While [t < final_time] the loop runs its body, and a pass whose
    solve meets the deadline does, in this order: set up the next
    warm-started problem and solve it with deadline [planner_runtime];
    integrate [x] from [t] to [t + e] under the plan the splicer holds;
    [t <- t + e]; splice the new log at the new [t]; overwrite the
    problem's solution by the spliced plan; integrate [x] a further
    [kExtraTime = 0.1] s under the spliced plan and advance [t] by it. *)
Theorem loop_body_order final_time planner_runtime fuel st :
  Time_ltb (t st) final_time = true ->
  Time_leb (measured env st) planner_runtime = true ->
  let e := measured env st in
  let solved := Problem_Solve env (Some planner_runtime)
                  (SetUpNextRecedingHorizon env (x st) (t st) planner_runtime
                                            (problem st)) in
  let op0 := CurrentOperatingPoint env (splicer st) in
  let strategies0 := CurrentStrategies env (splicer st) in
  let x1 := Integrate env (t st) (t st + e) (x st) op0 strategies0 in
  let splicer' := Splice env (fst solved) (t st + e) (splicer st) in
  let op1 := CurrentOperatingPoint env splicer' in
  let strategies1 := CurrentStrategies env splicer' in
  exists st',
    loop_body env planner_runtime st = Continue st' /\
    while_loop env (S fuel) final_time planner_runtime st
    = while_loop env fuel final_time planner_runtime st' /\
    logs st' = logs st ++ [fst solved] /\
    splicer st' = splicer' /\
    problem st' = OverwriteSolution env op1 strategies1 (snd solved) /\
    x st' = Integrate env (t st + e) (t st + e + kExtraTime) x1 op1
                      strategies1 /\
    t st' = t st + e + kExtraTime /\
    trace st'
    = trace st
      ++ [EvSetUpNextRecedingHorizon (x st) (t st) planner_runtime;
          EvSolve (Some planner_runtime);
          EvIntegrate (t st) (t st + e) (x st) op0 strategies0;
          EvSplice (fst solved) (t st + e);
          EvOverwriteSolution op1 strategies1;
          EvIntegrate (t st + e) (t st + e + kExtraTime) x1 op1 strategies1].
Proof.
  intros Hlt Hle. cbn zeta. cbn [while_loop]. rewrite Hlt.
  unfold loop_body. fold (measured env st).
  destruct (Problem_Solve env (Some planner_runtime) _) as [log problem2].
  rewrite Hle. cbn [negb fst snd].
  eexists. split; [reflexivity |]. split; [reflexivity |]. cbn.
  rewrite last_last, <- app_assoc. cbn. repeat split; reflexivity.
Qed.

End Driver.

(** ** At the toy instance *)

Lemma loop_body_order_witness :
  let st := before_loop toy 0%nat in
  let final_time := Q2Qc 1 in
  let planner_runtime := Q2Qc (1 # 10) in
  Time_ltb (t st) final_time = true /\
  Time_leb (clock_now toy (S (clock_reads st)) - clock_now toy (clock_reads st))
           planner_runtime = true /\
  exists st',
    loop_body toy planner_runtime st = Continue st' /\
    while_loop toy 1 final_time planner_runtime st
    = while_loop toy 0 final_time planner_runtime st' /\
    t st' = t st + (clock_now toy (S (clock_reads st))
                    - clock_now toy (clock_reads st)) + kExtraTime.
Proof.
  cbn zeta. split; [reflexivity |]. split; [reflexivity |].
  destruct (@loop_body_order _ _ _ _ _ _ toy (Q2Qc 1) (Q2Qc (1 # 10)) 0%nat
              (before_loop toy 0%nat) eq_refl eq_refl)
    as [st' [E [W [_ [_ [_ [_ [Ht _]]]]]]]].
  exists st'. auto.
Defined.

End RecedingHorizonFacts.

(* ===================================================================== *)
(** * Facts about the GUI sliders                                         *)
(* ===================================================================== *)

Module SlidersFacts.

Import Sliders.
Local Open Scope Z_scope.

Lemma static_cast_int_size_t_pred n :
  Z.of_nat n <= 2 ^ 31 ->
  static_cast_int (size_t_pred n) = Z.of_nat n - 1.
Proof.
  intros H. unfold static_cast_int, size_t_pred.
  destruct n as [| n].
  - reflexivity.
  - rewrite (Z.mod_small (Z.of_nat (S n) - 1) (2 ^ 64)) by lia.
    rewrite (Z.mod_small (Z.of_nat (S n) - 1) (2 ^ 32)) by lia.
    destruct (Z.ltb_spec (Z.of_nat (S n) - 1) (2 ^ 31)); lia.
Qed.

Lemma min_int_spec a b : min_int a b = Z.min a b.
Proof. unfold min_int. destruct (Z.ltb_spec b a); lia. Qed.

(** C10 (as stated) fails: the accessors do not clamp from below.  With
    the raw [log_index_] at -1, [LogIndex()] is -1, which is no index of
    [logs_], and [SolverIterate()] and [InterpolationTime()] then read
    [logs_] out of range. *)
Lemma LogIndex_not_clamped_below :
  let s := mkControlSliders (Q2Qc 0) 0 (-1) [mkSolverLog (Q2Qc 0) (Q2Qc 1) 1] in
  logs_ s <> [] /\
  LogIndex s = -1 /\
  ~ (0 <= LogIndex s < Z.of_nat (length (logs_ s))) /\
  SolverIterate s = None /\ InterpolationTime s = None.
Proof.
  cbn zeta. split; [discriminate |]. split; [reflexivity |].
  split; [vm_compute; intros [H _]; apply H; reflexivity |].
  split; reflexivity.
Qed.

End SlidersFacts.

(* ===================================================================== *)
(** * More about the sliders: values in range, empty logs, fresh sliders  *)
(* ===================================================================== *)

Module SlidersEdgeFacts.

Import Sliders SlidersFacts.
Local Open Scope Z_scope.

Lemma min_Time_l a b : (a <= b)%Qc -> min_Time a b = a.
Proof.
  intros H. unfold min_Time.
  destruct (RecedingHorizon.Time_ltb b a) eqn:E; [| reflexivity].
  apply RecedingHorizonFacts.Time_ltb_lt in E.
  exfalso. exact (Qclt_not_le _ _ E H).
Qed.

Lemma max_Time_l a b : (b <= a)%Qc -> max_Time a b = a.
Proof.
  intros H. unfold max_Time.
  destruct (RecedingHorizon.Time_ltb a b) eqn:E; [| reflexivity].
  apply RecedingHorizonFacts.Time_ltb_lt in E.
  exfalso. exact (Qclt_not_le _ _ E H).
Qed.

Lemma max_Time_r a b : (a < b)%Qc -> max_Time a b = b.
Proof.
  intros H. unfold max_Time.
  apply RecedingHorizonFacts.Time_ltb_lt in H. now rewrite H.
Qed.

Lemma logs_at_in_range s i :
  0 <= i < Z.of_nat (length (logs_ s)) ->
  exists log, logs_at s i = Some log.
Proof.
  intros H. unfold logs_at.
  destruct (Z.ltb_spec i 0) as [Hneg | _]; [lia |].
  destruct (nth_error (logs_ s) (Z.to_nat i)) as [log |] eqn:E; [eauto |].
  apply nth_error_None in E. lia.
Qed.

Lemma static_cast_int_size_t_pred_0 : static_cast_int (size_t_pred 0) = -1.
Proof. reflexivity. Qed.

(** X1.  The accessors change nothing that is in range: over a list of
    logs whose size an [int] can hold, a raw [log_index_] that is an index
    of [logs_] is returned as it is; and for the log it selects, a raw
    [solver_iterate_] below [NumIterates()] and a raw
    [interpolation_time_] between [InitialTime()] and [FinalTime()] are
    returned as they are. *)
Theorem accessors_keep_values_in_range s :
  Z.of_nat (length (logs_ s)) <= 2 ^ 31 ->
  0 <= log_index_ s < Z.of_nat (length (logs_ s)) ->
  LogIndex s = log_index_ s /\
  exists log,
    logs_at s (log_index_ s) = Some log /\
    (Z.of_nat (NumIterates log) <= 2 ^ 31 ->
     solver_iterate_ s < Z.of_nat (NumIterates log) ->
     SolverIterate s = Some (solver_iterate_ s)) /\
    ((InitialTime log <= interpolation_time_ s)%Qc ->
     (interpolation_time_ s <= FinalTime log)%Qc ->
     InterpolationTime s = Some (interpolation_time_ s)).
Proof.
  intros Hsize Hidx.
  assert (HL : LogIndex s = log_index_ s).
  { unfold LogIndex.
    rewrite min_int_spec, static_cast_int_size_t_pred by exact Hsize. lia. }
  split; [exact HL |].
  destruct (logs_at_in_range s Hidx) as [log Hlog].
  exists log. split; [exact Hlog |]. split.
  - intros Hn Hit. unfold SolverIterate. rewrite HL, Hlog.
    rewrite min_int_spec, static_cast_int_size_t_pred by exact Hn.
    f_equal. lia.
  - intros Hlo Hhi. unfold InterpolationTime. rewrite HL, Hlog.
    rewrite (min_Time_l Hhi), (max_Time_l Hlo). reflexivity.
Qed.

Lemma accessors_keep_values_in_range_witness :
  let s := mkControlSliders (Q2Qc 1) 2 1
             [mkSolverLog (Q2Qc 0) (Q2Qc 2) 4; mkSolverLog (Q2Qc 1) (Q2Qc 3) 3] in
  Z.of_nat (length (logs_ s)) <= 2 ^ 31 /\
  0 <= log_index_ s < Z.of_nat (length (logs_ s)) /\
  LogIndex s = log_index_ s.
Proof.
  cbn zeta.
  assert (Hsize : Z.of_nat (length (logs_ (mkControlSliders (Q2Qc 1) 2 1
             [mkSolverLog (Q2Qc 0) (Q2Qc 2) 4; mkSolverLog (Q2Qc 1) (Q2Qc 3) 3])))
                  <= 2 ^ 31) by (cbn; lia).
  assert (Hidx : 0 <= log_index_ (mkControlSliders (Q2Qc 1) 2 1
             [mkSolverLog (Q2Qc 0) (Q2Qc 2) 4; mkSolverLog (Q2Qc 1) (Q2Qc 3) 3])
                 < Z.of_nat (length (logs_ (mkControlSliders (Q2Qc 1) 2 1
             [mkSolverLog (Q2Qc 0) (Q2Qc 2) 4; mkSolverLog (Q2Qc 1) (Q2Qc 3) 3]))))
    by (cbn; lia).
  split; [exact Hsize |]. split; [exact Hidx |].
  exact (proj1 (accessors_keep_values_in_range _ Hsize Hidx)).
Defined.

(** X2.  Over an empty list of logs [logs_.size() - 1] wraps around, and
    its cast to [int] is -1: [LogIndex()] is then negative whatever the
    slider holds, no index of [logs_], and [SolverIterate()] and
    [InterpolationTime()] read [logs_] out of range. *)
Theorem accessors_on_empty_logs s :
  logs_ s = [] ->
  LogIndex s = Z.min (log_index_ s) (-1) /\
  logs_at s (LogIndex s) = None /\
  SolverIterate s = None /\ InterpolationTime s = None.
Proof.
  intros Hempty.
  assert (HL : LogIndex s = Z.min (log_index_ s) (-1)).
  { unfold LogIndex. rewrite Hempty. cbn [length].
    rewrite static_cast_int_size_t_pred_0. apply min_int_spec. }
  assert (Hat : logs_at s (LogIndex s) = None).
  { unfold logs_at. rewrite HL.
    destruct (Z.ltb_spec (Z.min (log_index_ s) (-1)) 0); [reflexivity | lia]. }
  split; [exact HL |]. split; [exact Hat |].
  unfold SolverIterate, InterpolationTime. rewrite Hat. split; reflexivity.
Qed.

Lemma accessors_on_empty_logs_witness :
  let s := ControlSliders_ctor [] in
  logs_ s = [] /\ LogIndex s = -1 /\ SolverIterate s = None.
Proof.
  cbn zeta.
  assert (Hempty : logs_ (ControlSliders_ctor []) = []) by reflexivity.
  destruct (accessors_on_empty_logs _ Hempty) as (H1 & _ & H3 & _).
  split; [exact Hempty |]. split; [exact H1 | exact H3].
Defined.

(** X3.  [NumIterates() - 1] wraps around as well: for a selected log
    without iterates, [SolverIterate()] is negative whatever the slider
    holds, so it is no index of an iterate. *)
Theorem SolverIterate_without_iterates s log :
  logs_at s (LogIndex s) = Some log ->
  NumIterates log = 0%nat ->
  SolverIterate s = Some (Z.min (solver_iterate_ s) (-1)).
Proof.
  intros Hlog Hnone. unfold SolverIterate. rewrite Hlog, Hnone.
  rewrite static_cast_int_size_t_pred_0, min_int_spec. reflexivity.
Qed.

Lemma SolverIterate_without_iterates_witness :
  let s := mkControlSliders (Q2Qc 0) 3 0 [mkSolverLog (Q2Qc 0) (Q2Qc 1) 0] in
  let log := mkSolverLog (Q2Qc 0) (Q2Qc 1) 0 in
  logs_at s (LogIndex s) = Some log /\
  NumIterates log = 0%nat /\
  SolverIterate s = Some (-1).
Proof.
  cbn zeta. split; [reflexivity |]. split; [reflexivity |].
  exact (@SolverIterate_without_iterates
           (mkControlSliders (Q2Qc 0) 3 0 [mkSolverLog (Q2Qc 0) (Q2Qc 1) 0])
           (mkSolverLog (Q2Qc 0) (Q2Qc 1) 0) eq_refl eq_refl).
Defined.

(** X4.  Sliders as constructed select the first log; they show its
    iterate 0 when it has iterates, time 0 when the log's interval holds
    0, and the log's [InitialTime()] when the log starts after time 0
    (even if its [FinalTime()] is earlier still). *)
Theorem fresh_sliders log rest :
  Z.of_nat (length (log :: rest)) <= 2 ^ 31 ->
  let s := ControlSliders_ctor (log :: rest) in
  LogIndex s = 0 /\
  logs_at s (LogIndex s) = Some log /\
  ((0 < NumIterates log)%nat -> Z.of_nat (NumIterates log) <= 2 ^ 31 ->
   SolverIterate s = Some 0) /\
  ((InitialTime log <= Q2Qc 0)%Qc -> (Q2Qc 0 <= FinalTime log)%Qc ->
   InterpolationTime s = Some (Q2Qc 0)) /\
  ((Q2Qc 0 < InitialTime log)%Qc ->
   InterpolationTime s = Some (InitialTime log)).
Proof.
  intros Hsize s.
  assert (HL : LogIndex s = 0).
  { unfold LogIndex, s, ControlSliders_ctor. cbn [log_index_ logs_].
    rewrite min_int_spec, static_cast_int_size_t_pred by exact Hsize.
    cbn [length] in *. lia. }
  assert (Hat : logs_at s (LogIndex s) = Some log) by (rewrite HL; reflexivity).
  split; [exact HL |]. split; [exact Hat |]. split; [| split].
  - intros Hpos Hn. unfold SolverIterate. rewrite Hat.
    rewrite min_int_spec, static_cast_int_size_t_pred by exact Hn.
    unfold s, ControlSliders_ctor. cbn [solver_iterate_]. f_equal. lia.
  - intros Hlo Hhi. unfold InterpolationTime. rewrite Hat.
    unfold s, ControlSliders_ctor. cbn [interpolation_time_].
    rewrite (min_Time_l Hhi), (max_Time_l Hlo). reflexivity.
  - intros Hlate. unfold InterpolationTime. rewrite Hat.
    unfold s, ControlSliders_ctor. cbn [interpolation_time_].
    f_equal. apply max_Time_r.
    eapply Qcle_lt_trans; [| exact Hlate].
    unfold min_Time.
    destruct (RecedingHorizon.Time_ltb (FinalTime log) (Q2Qc 0)) eqn:E.
    + apply RecedingHorizonFacts.Time_ltb_lt in E. now apply Qclt_le_weak.
    + apply Qcle_refl.
Qed.

Lemma fresh_sliders_witness :
  let log := mkSolverLog (Q2Qc 1) (Q2Qc 3) 2 in
  Z.of_nat (length [log]) <= 2 ^ 31 /\
  LogIndex (ControlSliders_ctor [log]) = 0 /\
  InterpolationTime (ControlSliders_ctor [log]) = Some (Q2Qc 1).
Proof.
  cbn zeta.
  assert (Hsize : Z.of_nat (length [mkSolverLog (Q2Qc 1) (Q2Qc 3) 2]) <= 2 ^ 31)
    by (cbn; lia).
  destruct (@fresh_sliders (mkSolverLog (Q2Qc 1) (Q2Qc 3) 2) [] Hsize)
    as (H1 & _ & _ & _ & H5).
  split; [exact Hsize |]. split; [exact H1 |].
  apply H5. reflexivity.
Defined.

End SlidersEdgeFacts.

(* ===================================================================== *)
(** * Whole runs of the receding-horizon driver                           *)
(* ===================================================================== *)

Module RecedingHorizonRunFacts.

Import RecedingHorizon RecedingHorizonRun QcFacts RecedingHorizonFacts.
Local Open Scope Qc_scope.

Section Run.

Variables State OperatingPoint Strategies SolverLog Problem SolutionSplicer
  : Type.

Variable env : Collaborators State OperatingPoint Strategies SolverLog
                             Problem SolutionSplicer.

Lemma count_app (p : _ -> bool) (l1 l2 : list (Event State OperatingPoint
                                                 Strategies SolverLog)) :
  count p (l1 ++ l2) = (count p l1 + count p l2)%nat.
Proof. unfold count. now rewrite filter_app, length_app. Qed.

Lemma solve_deadlines_app (l1 l2 : list (Event State OperatingPoint
                                               Strategies SolverLog)) :
  solve_deadlines (l1 ++ l2) = solve_deadlines l1 ++ solve_deadlines l2.
Proof. unfold solve_deadlines. apply flat_map_app. Qed.

Lemma repeat_snoc {T} (a : T) n : repeat a n ++ [a] = repeat a (S n).
Proof.
  induction n as [| n IH]; [reflexivity |]. cbn. now rewrite IH.
Qed.

(** ** One pass *)

Lemma calls_before_loop planner_runtime problem0 :
  calls_after planner_runtime 0 (before_loop env problem0).
Proof.
  unfold calls_after, before_loop.
  destruct (Problem_Solve env None problem0) as [log problem1].
  cbn. repeat split.
Qed.

Lemma calls_step planner_runtime n st :
  calls_after planner_runtime n st ->
  match loop_body env planner_runtime st with
  | Continue st' => calls_after planner_runtime (S n) st'
  | CheckLeFailed st' => calls_until_death planner_runtime n st'
  end.
Proof.
  unfold calls_after, calls_until_death.
  intros (Hl & Hc & Hd & Hs & Hi & Hp & Ho).
  unfold loop_body.
  destruct (Problem_Solve env (Some planner_runtime) _) as [log problem2].
  destruct (Time_leb _ planner_runtime); cbn [negb];
    cbn [logs clock_reads trace];
    rewrite ?length_app, ?solve_deadlines_app, ?count_app, ?Hl, ?Hc, ?Hd,
      ?Hs, ?Hi, ?Hp, ?Ho;
    cbn [length solve_deadlines flat_map app count filter is_set_up
         is_integrate is_splice is_overwrite];
    rewrite ?app_nil_r;
    repeat split; try lia;
    try (cbn [app]; f_equal; apply repeat_snoc).
Qed.

Lemma time_step planner_runtime n st :
  clock_reads st = (2 * S n)%nat ->
  match loop_body env planner_runtime st with
  | Continue st' =>
      t st' = t st
              + (clock_now env (2 * S n + 1) - clock_now env (2 * S n))
              + kExtraTime /\
      t st' <= t st + planner_runtime + kExtraTime
  | CheckLeFailed st' => t st' = t st
  end.
Proof.
  intros Hc.
  pose proof (loop_body_cases env planner_runtime st) as H.
  destruct (loop_body env planner_runtime st) as [st' | st'].
  - destruct H as (He & Hle & _ & _ & Ht).
    unfold measured in He. rewrite Hc in He.
    replace (S (2 * S n)) with (2 * S n + 1)%nat in He by lia.
    split.
    + rewrite Ht, He. reflexivity.
    + rewrite Ht. to_Q. lra.
  - destruct H as (_ & _ & _ & _ & Ht & _). exact Ht.
Qed.

(** ** The loop *)

Lemma while_loop_run fuel final_time planner_runtime problem0 :
  forall n st,
    calls_after planner_runtime n st ->
    t st = initial_time env problem0 + advance env n ->
    ((1 <= n)%nat -> t st < final_time + planner_runtime + kExtraTime) ->
    match while_loop env fuel final_time planner_runtime st with
    | Returned st' =>
        exists m,
          calls_after planner_runtime m st' /\
          t st' = initial_time env problem0 + advance env m /\
          final_time <= t st' /\
          ((1 <= m)%nat -> t st' < final_time + planner_runtime + kExtraTime)
    | Died st' =>
        exists m,
          calls_until_death planner_runtime m st' /\
          t st' = initial_time env problem0 + advance env m /\
          t st' < final_time
    | OutOfFuel => True
    end.
Proof.
  induction fuel as [| fuel IH]; intros n st Hcalls Ht Hbound;
    cbn [while_loop].
  - destruct (Time_ltb (t st) final_time) eqn:E; [exact I |].
    apply Time_ltb_ge in E. exists n. auto.
  - destruct (Time_ltb (t st) final_time) eqn:E.
    + apply Time_ltb_lt in E.
      pose proof (calls_step Hcalls) as Hc.
      pose proof (@time_step planner_runtime n st (proj1 (proj2 Hcalls)))
        as Hs.
      destruct (loop_body env planner_runtime st) as [st' | st'].
      * destruct Hs as [Hs1 Hs2]. apply (IH (S n) st' Hc).
        -- rewrite Hs1, Ht. cbn [advance]. unfold Time. ring.
        -- intros _. eapply Qcle_lt_trans; [exact Hs2 |]. to_Q. lra.
      * exists n. split; [exact Hc |]. rewrite Hs. split; assumption.
    + apply Time_ltb_ge in E. exists n. auto.
Qed.

Lemma run_measures fuel final_time planner_runtime problem0 :
  match RecedingHorizonSimulator env fuel final_time planner_runtime
                                 problem0 with
  | Returned st' =>
      exists m,
        calls_after planner_runtime m st' /\
        t st' = initial_time env problem0 + advance env m /\
        final_time <= t st' /\
        ((1 <= m)%nat -> t st' < final_time + planner_runtime + kExtraTime)
  | Died st' =>
      exists m,
        calls_until_death planner_runtime m st' /\
        t st' = initial_time env problem0 + advance env m /\
        t st' < final_time
  | OutOfFuel => True
  end.
Proof.
  unfold RecedingHorizonSimulator.
  apply (@while_loop_run fuel final_time planner_runtime problem0 0).
  - apply calls_before_loop.
  - unfold initial_time. cbn [advance]. symmetry. apply Qcplus_0_r.
  - intros H. inversion H.
Qed.

(** X5.  However a run ends, it has made one call of [Solve] per log, the
    first without a deadline and every other with [planner_runtime].  A
    run that returns [n + 1] logs has set up, spliced and overwritten [n]
    times and integrated [2 n] times; a run that dies with [n + 2] logs
    has set up once more than it has spliced, and has not integrated
    after its last solve. *)
Theorem run_call_counts fuel final_time planner_runtime problem0 :
  match RecedingHorizonSimulator env fuel final_time planner_runtime
                                 problem0 with
  | Returned st => calls_after planner_runtime (length (logs st) - 1) st
  | Died st => calls_until_death planner_runtime (length (logs st) - 2) st
  | OutOfFuel => True
  end.
Proof.
  pose proof (run_measures fuel final_time planner_runtime problem0) as H.
  destruct (RecedingHorizonSimulator env fuel final_time planner_runtime
                                     problem0) as [st | st |]; [| | exact I].
  - destruct H as (m & Hc & _). pose proof Hc as (Hl & _).
    rewrite Hl. replace (S m - 1)%nat with m by lia. exact Hc.
  - destruct H as (m & Hc & _). pose proof Hc as (Hl & _).
    rewrite Hl. replace (S (S m) - 2)%nat with m by lia. exact Hc.
Qed.


End Run.

End RecedingHorizonRunFacts.

(* ===================================================================== *)
(** * What [Solve] stores in the strategies                               *)
(* ===================================================================== *)

Module LQStoredFacts.

Import Mat LQ MatFacts LQFacts LQStepFacts LQPassFacts.
Local Open Scope Qc_scope.

Section Stored.

Variable solve : Matrix -> Matrix -> Matrix.
Variable d : Dynamics.

(** A step writes entry [kk] of each strategy, and no other entry. *)
Lemma set_strategies_other X kk strategies k i :
  (NumPlayers d <= length strategies)%nat -> k <> kk ->
  nth k (Ps (nth i (set_strategies d X kk strategies) empty_strategy))
      empty_matrix
  = nth k (Ps (nth i strategies empty_strategy)) empty_matrix /\
  nth k (alphas (nth i (set_strategies d X kk strategies) empty_strategy))
      empty_matrix
  = nth k (alphas (nth i strategies empty_strategy)) empty_matrix.
Proof.
  intros Hlen Hk.
  destruct (@set_strategies_loop d X kk (seq 0 (NumPlayers d))
              (seq_NoDup _ _) strategies) as [_ H].
  { intros j Hj. apply in_seq in Hj. lia. }
  destruct (H i) as [Hin Hout].
  destruct (in_dec Nat.eq_dec i (seq 0 (NumPlayers d))) as [Hi | Hi].
  - pose proof (Hin Hi) as E. unfold set_strategies. cbv zeta in E |- *.
    rewrite E. cbn [Ps alphas].
    split; apply nth_set_nth_other; congruence.
  - pose proof (Hout Hi) as E. unfold set_strategies. cbv zeta in E |- *.
    rewrite E. split; reflexivity.
Qed.

Lemma length_set_strategies X kk strategies :
  (NumPlayers d <= length strategies)%nat ->
  length (set_strategies d X kk strategies) = length strategies.
Proof.
  intros Hlen.
  destruct (@set_strategies_loop d X kk (seq 0 (NumPlayers d))
              (seq_NoDup _ _) strategies) as [H _].
  { intros j Hj. apply in_seq in Hj. lia. }
  exact H.
Qed.

Lemma backward_pass_keeps_entry lin quad k ks :
  ~ In k ks ->
  forall st st',
    (NumPlayers d <= length (snd st))%nat ->
    backward_pass solve d lin quad ks st = Ok st' ->
    forall i,
      nth k (Ps (nth i (snd st') empty_strategy)) empty_matrix
      = nth k (Ps (nth i (snd st) empty_strategy)) empty_matrix /\
      nth k (alphas (nth i (snd st') empty_strategy)) empty_matrix
      = nth k (alphas (nth i (snd st) empty_strategy)) empty_matrix.
Proof.
  unfold backward_pass.
  induction ks as [| kk ks IH]; intros Hk st st' Hlen E i.
  - cbn in E. injection E as <-. split; reflexivity.
  - cbn [for_each] in E.
    destruct (backward_step solve d lin quad kk st) as [st1 |] eqn:E1;
      cbn [bind] in E; [| discriminate].
    destruct st as [solver strategies], st1 as [solver1 strategies1].
    pose proof (backward_step_strategies _ _ _ _ _ _ _ E1) as ->.
    cbn [snd] in *.
    assert (Hk' : ~ In k ks) by (intros Hin; apply Hk; now right).
    assert (Hne : k <> kk) by (intros ->; apply Hk; now left).
    assert (Hlen1 : (NumPlayers d
                     <= length (snd (solver1,
                                     set_strategies d (X_ solver1) kk
                                                    strategies)))%nat).
    { cbn [snd]. now rewrite length_set_strategies. }
    destruct (IH Hk' _ _ Hlen1 E i) as [HP Ha].
    cbn [snd] in HP, Ha. rewrite HP, Ha.
    apply set_strategies_other; assumption.
Qed.

End Stored.

(** X8.  The gains [Solve] returns for time step [kk] are the ones it
    solved for at that step: running the backward loop down to [kk] and
    performing step [kk] gives the [X] whose rows of player [i] are the
    returned [Ps[kk]] and [alphas[kk]] of player [i]; no later pass of the
    loop overwrites them. *)
Theorem Solve_returns_the_gains_of_each_step solve solver linearization
        quadraticization strategies kk :
  Solve solve solver linearization quadraticization = Ok strategies ->
  (kk < num_time_steps_ solver - 1)%nat ->
  exists st st',
    backward_pass solve (dynamics_ solver) linearization quadraticization
                  (steps_before (num_time_steps_ solver) kk)
                  (initial_state (dynamics_ solver) solver quadraticization)
    = Ok st /\
    backward_step solve (dynamics_ solver) linearization quadraticization
                  kk st = Ok st' /\
    forall i, (i < NumPlayers (dynamics_ solver))%nat ->
      nth kk (Ps (nth i strategies empty_strategy)) empty_matrix
      = Ps_ (dynamics_ solver) (X_ (fst st')) i /\
      nth kk (alphas (nth i strategies empty_strategy)) empty_matrix
      = alphas_ (dynamics_ solver) (X_ (fst st')) i.
Proof.
  intros E Hkk. unfold Solve in E.
  destruct (negb (length linearization =? num_time_steps_ solver)%nat);
    [discriminate |].
  destruct (negb (length quadraticization =? num_time_steps_ solver)%nat);
    [discriminate |].
  destruct (backward_pass _ _ _ _ _ _) as [stf |] eqn:Epass;
    cbn [bind] in E; [| discriminate].
  injection E as <-.
  unfold backward_pass in Epass.
  rewrite (@backward_range_split (num_time_steps_ solver) kk Hkk) in Epass.
  rewrite for_each_app in Epass.
  destruct (for_each (steps_before _ _) _ _) as [st |] eqn:E1;
    cbn [bind for_each] in Epass; [| discriminate].
  destruct (backward_step solve (dynamics_ solver) linearization
                          quadraticization kk st) as [st' |] eqn:E2;
    cbn [bind] in Epass; [| discriminate].
  exists st, st'. split; [exact E1 |]. split; [exact E2 |].
  assert (Hsized : strategies_sized (NumPlayers (dynamics_ solver))
                                    (num_time_steps_ solver) (snd st)).
  { apply (@backward_pass_sized solve (dynamics_ solver) linearization
             quadraticization (steps_before (num_time_steps_ solver) kk)
             _ _ (initial_state (dynamics_ solver) solver quadraticization)
             st); [| exact E1].
    rewrite snd_initial_state. apply initial_strategies_sized. }
  destruct Hsized as [Hlen Hall].
  destruct st as [solver0 strategies0], st' as [solver1 strategies1].
  pose proof (backward_step_strategies _ _ _ _ _ _ _ E2) as ->.
  cbn [fst snd] in *.
  intros i Hi.
  assert (Hnot : ~ In kk (rev (seq 0 kk))).
  { rewrite <- in_rev, in_seq. lia. }
  assert (Hlen1 : (NumPlayers (dynamics_ solver)
                   <= length (snd (solver1,
                                   set_strategies (dynamics_ solver)
                                     (X_ solver1) kk strategies0)))%nat).
  { cbn [snd]. rewrite length_set_strategies by lia. lia. }
  destruct (@backward_pass_keeps_entry solve (dynamics_ solver) linearization
              quadraticization kk (rev (seq 0 kk)) Hnot _ stf Hlen1 Epass i)
    as [HP Ha].
  cbn [snd] in HP, Ha. rewrite HP, Ha.
  rewrite (@set_strategies_nth (dynamics_ solver) (X_ solver1) kk strategies0 i)
    by lia.
  cbn [Ps alphas].
  assert (Hin : In (nth i strategies0 empty_strategy) strategies0)
    by (apply nth_In; lia).
  rewrite Forall_forall in Hall. destruct (Hall _ Hin) as [HlP Hla].
  split; apply nth_set_nth_same; lia.
Qed.

Lemma Solve_returns_the_gains_of_each_step_witness :
  exists strategies st st',
    Solve exact_solve (LyapunovTest.solver_for 3)
          Examples.fixture_linearization Examples.fixture_quadraticization
    = Ok strategies /\
    (1 < 3 - 1)%nat /\
    backward_step exact_solve LyapunovTest.dynamics
                  Examples.fixture_linearization
                  Examples.fixture_quadraticization 1 st = Ok st' /\
    nth 1 (Ps (nth 0 strategies empty_strategy)) empty_matrix
    = Ps_ LyapunovTest.dynamics (X_ (fst st')) 0.
Proof.
  assert (E : exists strategies,
             Solve exact_solve (LyapunovTest.solver_for 3)
                   Examples.fixture_linearization
                   Examples.fixture_quadraticization = Ok strategies).
  { vm_compute. eexists. reflexivity. }
  destruct E as [strategies E].
  assert (Hkk : (1 < num_time_steps_ (LyapunovTest.solver_for 3) - 1)%nat)
    by (cbn; lia).
  destruct (Solve_returns_the_gains_of_each_step _ _ _ _ E Hkk)
    as (st & st' & _ & E2 & H).
  exists strategies, st, st'.
  split; [exact E |]. split; [cbn; lia |]. split; [exact E2 |].
  apply (H 0%nat). cbn. lia.
Defined.

(** X9.  [Solve] never writes the entry of the last time step: the
    [Ps[K - 1]] and [alphas[K - 1]] of every returned strategy are still
    the ones the constructor of the strategy made. *)
Theorem Solve_leaves_the_last_step solve solver linearization
        quadraticization strategies i :
  Solve solve solver linearization quadraticization = Ok strategies ->
  (0 < num_time_steps_ solver)%nat ->
  (i < NumPlayers (dynamics_ solver))%nat ->
  let constructed := Strategy_ctor (num_time_steps_ solver)
                                   (XDim (dynamics_ solver))
                                   (UDim (dynamics_ solver) i) in
  nth (num_time_steps_ solver - 1) (Ps (nth i strategies empty_strategy))
      empty_matrix
  = nth (num_time_steps_ solver - 1) (Ps constructed) empty_matrix /\
  nth (num_time_steps_ solver - 1) (alphas (nth i strategies empty_strategy))
      empty_matrix
  = nth (num_time_steps_ solver - 1) (alphas constructed) empty_matrix.
Proof.
  intros E HK Hi constructed. subst constructed. unfold Solve in E.
  destruct (negb (length linearization =? num_time_steps_ solver)%nat);
    [discriminate |].
  destruct (negb (length quadraticization =? num_time_steps_ solver)%nat);
    [discriminate |].
  destruct (backward_pass _ _ _ _ _ _) as [stf |] eqn:Epass;
    cbn [bind] in E; [| discriminate].
  injection E as <-.
  assert (Hnot : ~ In (num_time_steps_ solver - 1)%nat
                      (backward_range (num_time_steps_ solver))).
  { unfold backward_range. rewrite <- in_rev, in_seq. lia. }
  assert (Hlen1 : (NumPlayers (dynamics_ solver)
                   <= length (snd (initial_state (dynamics_ solver) solver
                                                 quadraticization)))%nat).
  { rewrite snd_initial_state.
    destruct (initial_strategies_sized (dynamics_ solver)
                                       (num_time_steps_ solver)) as [-> _].
    lia. }
  destruct (@backward_pass_keeps_entry solve (dynamics_ solver) linearization
              quadraticization _ _ Hnot _ stf Hlen1 Epass i) as [HP Ha].
  rewrite HP, Ha, snd_initial_state. unfold initial_strategies.
  rewrite (nth_indep _ empty_strategy
             (Strategy_ctor (num_time_steps_ solver) (XDim (dynamics_ solver))
                            (UDim (dynamics_ solver) 0)))
    by (rewrite length_map, length_seq; exact Hi).
  rewrite (map_nth (fun ii => Strategy_ctor (num_time_steps_ solver)
                                (XDim (dynamics_ solver))
                                (UDim (dynamics_ solver) ii))
                   (seq 0 (NumPlayers (dynamics_ solver))) 0%nat i).
  rewrite seq_nth by exact Hi. cbn [Nat.add].
  split; reflexivity.
Qed.

Lemma Solve_leaves_the_last_step_witness :
  exists strategies,
    Solve exact_solve (LyapunovTest.solver_for 3)
          Examples.fixture_linearization Examples.fixture_quadraticization
    = Ok strategies /\
    (0 < 3)%nat /\ (1 < 2)%nat /\
    nth 2 (Ps (nth 1 strategies empty_strategy)) empty_matrix
    = nth 2 (Ps (Strategy_ctor 3 2 1)) empty_matrix.
Proof.
  assert (E : exists strategies,
             Solve exact_solve (LyapunovTest.solver_for 3)
                   Examples.fixture_linearization
                   Examples.fixture_quadraticization = Ok strategies).
  { vm_compute. eexists. reflexivity. }
  destruct E as [strategies E].
  exists strategies. split; [exact E |]. split; [lia |]. split; [lia |].
  exact (proj1 (@Solve_leaves_the_last_step exact_solve
                  (LyapunovTest.solver_for 3) Examples.fixture_linearization
                  Examples.fixture_quadraticization strategies 1 E
                  ltac:(cbn; lia) ltac:(cbn; lia))).
Defined.

End LQStoredFacts.

(* ===================================================================== *)
(** * [Solve] and what an earlier call left in the solver                 *)
(* ===================================================================== *)

Module LQWorkspaceFacts.

Import Mat LQ MatFacts LQFacts LQStepFacts LQPassFacts.
Local Open Scope Qc_scope.

Section Workspace.

Variable solve : Matrix -> Matrix -> Matrix.
Variable d : Dynamics.

(** Every row of [S] and of [Y] belongs to one player. *)
Lemma row_of_player n r :
  (r < cumulative_udim d n)%nat ->
  exists ii i, (ii < n)%nat /\ (i < UDim d ii)%nat /\
               r = (cumulative_udim d ii + i)%nat.
Proof.
  induction n as [| n IH]; intros Hr.
  - cbv in Hr. lia.
  - rewrite cumulative_udim_S in Hr.
    destruct (Nat.lt_ge_cases r (cumulative_udim d n)) as [Hlt | Hge].
    + destruct (IH Hlt) as (ii & i & Hii & Hi & ->).
      exists ii, i. repeat split; try lia.
    + exists n, (r - cumulative_udim d n)%nat. repeat split; lia.
Qed.

(** A loop that has run at least once ends in a state its body makes. *)
Lemma for_each_establish {St} (P : St -> Prop) l
      (body : nat -> St -> Result St) :
  (forall i s s', body i s = Ok s' -> P s') ->
  l <> [] ->
  forall st st', for_each l body st = Ok st' -> P st'.
Proof.
  intros Hbody Hne.
  induction l as [| i l IH]; [congruence |].
  intros st st' E. cbn [for_each] in E.
  destruct (body i st) as [s1 |] eqn:E1; cbn [bind] in E; [| discriminate].
  destruct l as [| j l'].
  - cbn in E. injection E as <-. eapply Hbody; eauto.
  - eapply IH; [discriminate | exact E].
Qed.

Lemma populate_S_block_wf lin quad ii BiZi row jj st st' :
  populate_S_block d lin quad ii BiZi row jj st = Ok st' -> wf (snd st').
Proof.
  destruct st as [col Smat]. unfold populate_S_block.
  destruct (Nat.eqb ii jj).
  - destruct (find ii (control (nth ii quad empty_quad))); cbn;
      [| discriminate].
    intros [= <-]. apply wf_set_block.
  - cbn. intros [= <-]. apply wf_set_block.
Qed.

Lemma populate_row_wf lin quad Zs zetas ii st st' :
  (0 < NumPlayers d)%nat ->
  populate_row d lin quad Zs zetas ii st = Ok st' ->
  wf (snd (fst st')) /\ wf (snd st').
Proof.
  intros HN. destruct st as [[row Smat] Ymat]. unfold populate_row.
  destruct (for_each _ _ _) as [[col Smat'] |] eqn:E; cbn [bind];
    [| discriminate].
  assert (HS : wf Smat').
  { apply (@for_each_establish _ (fun st => wf (snd st)) _ _
             (fun i s s' => @populate_S_block_wf lin quad ii _ row i s s'))
      in E; [exact E |].
    destruct (NumPlayers d); [lia | discriminate]. }
  destruct (find ii (control (nth ii quad empty_quad))); cbn [bind];
    [| discriminate].
  intros [= <-]. cbn [fst snd]. split; [exact HS | apply wf_set_block].
Qed.

(** [S] and [Y] are overwritten entirely: what they held does not
    matter. *)
Lemma populate_S_Y_workspace lin quad Zs zetas S1 Y1 S2 Y2 :
  (0 < NumPlayers d)%nat ->
  rows S1 = TotalUDim d -> cols S1 = TotalUDim d ->
  rows Y1 = TotalUDim d -> cols Y1 = (XDim d + 1)%nat ->
  rows S2 = TotalUDim d -> cols S2 = TotalUDim d ->
  rows Y2 = TotalUDim d -> cols Y2 = (XDim d + 1)%nat ->
  populate_S_Y d lin quad Zs zetas S1 Y1
  = populate_S_Y d lin quad Zs zetas S2 Y2.
Proof.
  intros HN HS1r HS1c HY1r HY1c HS2r HS2c HY2r HY2c.
  pose proof (populate_S_Y_result d lin quad Zs zetas S1 Y1) as R1.
  pose proof (populate_S_Y_result d lin quad Zs zetas S2 Y2) as R2.
  destruct (forallb (own_cost_present quad) (seq 0 (NumPlayers d))) eqn:Hown;
    [| now rewrite R1, R2].
  clear R1 R2.
  assert (Hown' : forall ii, (0 <= ii < 0 + NumPlayers d)%nat ->
                             own_cost_present quad ii = true).
  { intros ii Hii. rewrite forallb_forall in Hown. apply Hown.
    apply in_seq. lia. }
  destruct (@populate_S_Y_loop_spec d lin quad Zs zetas (NumPlayers d) 0
              S1 Y1 (le_n _) Hown' HS1r HS1c HY1r HY1c)
    as (S1' & Y1' & E1 & (D1 & D2 & D3 & D4) & A1 & B1 & C1 & _).
  destruct (@populate_S_Y_loop_spec d lin quad Zs zetas (NumPlayers d) 0
              S2 Y2 (le_n _) Hown' HS2r HS2c HY2r HY2c)
    as (S2' & Y2' & E2 & (D5 & D6 & D7 & D8) & A2 & B2 & C2 & _).
  change (cumulative_udim d 0) with 0%nat in E1, E2.
  unfold populate_S_Y. rewrite E1, E2.
  assert (Hne : seq 0 (NumPlayers d) <> [])
    by (destruct (NumPlayers d); [lia | discriminate]).
  pose proof (@for_each_establish _
                (fun st => wf (snd (fst st)) /\ wf (snd st)) _ _
                (fun i s s' => @populate_row_wf lin quad Zs zetas i s s' HN)
                Hne _ _ E1) as [W1 W2].
  pose proof (@for_each_establish _
                (fun st => wf (snd (fst st)) /\ wf (snd st)) _ _
                (fun i s s' => @populate_row_wf lin quad Zs zetas i s s' HN)
                Hne _ _ E2) as [W3 W4].
  cbn [fst snd] in W1, W2, W3, W4.
  assert (ES : S1' = S2').
  { apply matrix_ext; try assumption; try congruence.
    intros r c Hr Hc. rewrite D1 in Hr. rewrite D2 in Hc.
    destruct (row_of_player _ Hr) as (ii & i & Hii & Hi & ->).
    destruct (row_of_player _ Hc) as (jj & j & Hjj & Hj & ->).
    rewrite A1, A2 by lia. reflexivity. }
  assert (EY : Y1' = Y2').
  { apply matrix_ext; try assumption; try congruence.
    intros r c Hr Hc. rewrite D3 in Hr. rewrite D4 in Hc.
    destruct (row_of_player _ Hr) as (ii & i & Hii & Hi & ->).
    destruct (Nat.lt_ge_cases c (XDim d)) as [Hlt | Hge].
    - rewrite B1, B2 by lia. reflexivity.
    - assert (c = XDim d) as -> by lia.
      rewrite C1, C2 by lia. reflexivity. }
  now rewrite ES, EY.
Qed.

Lemma backward_step_workspace lin quad kk solver1 solver2 strategies :
  (0 < NumPlayers d)%nat ->
  rows (S_ solver1) = TotalUDim d -> cols (S_ solver1) = TotalUDim d ->
  rows (Y_ solver1) = TotalUDim d -> cols (Y_ solver1) = (XDim d + 1)%nat ->
  rows (S_ solver2) = TotalUDim d -> cols (S_ solver2) = TotalUDim d ->
  rows (Y_ solver2) = TotalUDim d -> cols (Y_ solver2) = (XDim d + 1)%nat ->
  dynamics_ solver1 = dynamics_ solver2 ->
  num_time_steps_ solver1 = num_time_steps_ solver2 ->
  Zs_ solver1 = Zs_ solver2 -> zetas_ solver1 = zetas_ solver2 ->
  backward_step solve d lin quad kk (solver1, strategies)
  = backward_step solve d lin quad kk (solver2, strategies).
Proof.
  intros HN A1 A2 A3 A4 B1 B2 B3 B4 Ed EK EZ Ez.
  unfold backward_step. rewrite Ed, EK, EZ, Ez.
  rewrite (@populate_S_Y_workspace _ _ (Zs_ solver2) (zetas_ solver2)
             (S_ solver1) (Y_ solver1) (S_ solver2) (Y_ solver2))
    by assumption.
  reflexivity.
Qed.

Lemma terminal_values_workspace quad Zs1 zetas1 Zs2 zetas2 :
  length Zs1 = NumPlayers d -> length zetas1 = NumPlayers d ->
  length Zs2 = NumPlayers d -> length zetas2 = NumPlayers d ->
  terminal_values d quad Zs1 zetas1 = terminal_values d quad Zs2 zetas2.
Proof.
  intros L1 L2 L3 L4.
  destruct (@terminal_values_spec d quad Zs1 zetas1 L1 L2) as (A1 & A2 & A3).
  destruct (@terminal_values_spec d quad Zs2 zetas2 L3 L4) as (B1 & B2 & B3).
  destruct (terminal_values d quad Zs1 zetas1) as [Z1 z1].
  destruct (terminal_values d quad Zs2 zetas2) as [Z2 z2].
  cbn [fst snd] in *. f_equal.
  - apply (list_eq_nth empty_matrix); [congruence |].
    intros i Hi. rewrite A1 in Hi.
    destruct (A3 i Hi) as [-> _]. destruct (B3 i Hi) as [-> _]. reflexivity.
  - apply (list_eq_nth empty_matrix); [congruence |].
    intros i Hi. rewrite A2 in Hi.
    destruct (A3 i Hi) as [_ ->]. destruct (B3 i Hi) as [_ ->]. reflexivity.
Qed.

End Workspace.

(** X10.  [Solve] does not depend on what an earlier call has left in the
    solver object: two solvers for the same dynamics and number of time
    steps, with workspaces of the allocated sizes but any contents, return
    the same result (the same strategies or the same fatal error) on the
    same problem. *)
Theorem Solve_ignores_the_workspace solve solver1 solver2 linearization
        quadraticization :
  dynamics_ solver1 = dynamics_ solver2 ->
  num_time_steps_ solver1 = num_time_steps_ solver2 ->
  (0 < NumPlayers (dynamics_ solver1))%nat ->
  LQSpec.valid_workspace (dynamics_ solver1) solver1 = true ->
  LQSpec.valid_workspace (dynamics_ solver1) solver2 = true ->
  Solve solve solver1 linearization quadraticization
  = Solve solve solver2 linearization quadraticization.
Proof.
  intros Ed EK HN V1 V2.
  apply valid_workspace_spec in V1, V2.
  destruct V1 as (A1 & A2 & A3 & A4 & A5 & A6).
  destruct V2 as (B1 & B2 & B3 & B4 & B5 & B6).
  unfold Solve. rewrite <- Ed, <- EK.
  destruct (negb (length linearization =? num_time_steps_ solver1)%nat);
    [reflexivity |].
  destruct (negb (length quadraticization =? num_time_steps_ solver1)%nat);
    [reflexivity |].
  unfold initial_state.
  rewrite (@terminal_values_workspace (dynamics_ solver1) quadraticization
             (Zs_ solver2) (zetas_ solver2) (Zs_ solver1) (zetas_ solver1))
    by assumption.
  destruct (terminal_values _ _ _ _) as [Zs zetas].
  rewrite <- Ed, <- EK.
  unfold backward_pass.
  destruct (backward_range (num_time_steps_ solver1)) as [| kk ks];
    [reflexivity |].
  cbn [for_each].
  rewrite (@backward_step_workspace solve (dynamics_ solver1) linearization
             quadraticization kk
             (mkSolver (dynamics_ solver1) (num_time_steps_ solver1)
                       (S_ solver1) (X_ solver1) (Y_ solver1) (F_ solver1)
                       (beta_ solver1) Zs zetas)
             (mkSolver (dynamics_ solver1) (num_time_steps_ solver1)
                       (S_ solver2) (X_ solver2) (Y_ solver2) (F_ solver2)
                       (beta_ solver2) Zs zetas))
    by (cbn [S_ Y_ dynamics_ num_time_steps_ Zs_ zetas_];
        first [assumption | reflexivity]).
  reflexivity.
Qed.

Lemma Solve_ignores_the_workspace_witness :
  let used :=
    mkSolver LyapunovTest.dynamics 3 (Identity 2 2)
             (mkMatrix 2 3 [[1; 0; 1]; [1; 1; 0]])
             (mkMatrix 2 3 [[0; 1; 1]; [1; 1; 1]])
             (Identity 2 2) (Zero 2 1)
             [Identity 2 2; Zero 2 2] [Zero 2 1; Zero 2 1] in
  dynamics_ (LyapunovTest.solver_for 3) = dynamics_ used /\
  num_time_steps_ (LyapunovTest.solver_for 3) = num_time_steps_ used /\
  (0 < NumPlayers (dynamics_ (LyapunovTest.solver_for 3)))%nat /\
  LQSpec.valid_workspace LyapunovTest.dynamics (LyapunovTest.solver_for 3)
  = true /\
  LQSpec.valid_workspace LyapunovTest.dynamics used = true /\
  Solve exact_solve (LyapunovTest.solver_for 3)
        Examples.fixture_linearization Examples.fixture_quadraticization
  = Solve exact_solve used
          Examples.fixture_linearization Examples.fixture_quadraticization.
Proof.
  cbn zeta.
  split; [reflexivity |]. split; [reflexivity |]. split; [cbn; lia |].
  split; [reflexivity |]. split; [reflexivity |].
  apply Solve_ignores_the_workspace;
    first [reflexivity | cbn; lia].
Defined.

End LQWorkspaceFacts.

(* ===================================================================== *)
(** * The value functions stay positive semidefinite                      *)
(* ===================================================================== *)

Module ConvexityFacts.

Import Mat LQ Convexity MatFacts QcFacts LQFacts LQStepFacts LQPassFacts.
Local Open Scope Qc_scope.

Lemma Qc_mult_nonneg (a b : Qc) : 0 <= a -> 0 <= b -> 0 <= a * b.
Proof.
  intros Ha Hb. replace 0 with (0 * b) by ring.
  now apply Qcmult_le_compat_r.
Qed.

Lemma Qc_square_nonneg (a : Qc) : 0 <= a * a.
Proof.
  unfold Qcle. rewrite this_mult. cbn. nra.
Qed.

Lemma sum_n_nonneg n f :
  (forall k, (k < n)%nat -> 0 <= f k) -> 0 <= sum_n n f.
Proof.
  induction n as [| n IH]; intros H.
  - rewrite sum_n_0. apply Qcle_refl.
  - rewrite sum_n_S.
    replace 0 with (0 + 0) by ring.
    apply Qcplus_le_compat; auto.
Qed.

Lemma mmul_madd_distr_r M1 M2 x :
  rows M2 = rows M1 -> cols M2 = cols M1 ->
  mmul (madd M1 M2) x = madd (mmul M1 x) (mmul M2 x).
Proof.
  intros Hr Hc. mat_ext i j Hi Hj.
  rewrite coeff_madd by (autorewrite with mdims; lia).
  rewrite !coeff_mmul by (autorewrite with mdims; lia).
  autorewrite with mdims. rewrite Hc, <- sum_n_plus.
  apply sum_n_ext. intros k Hk.
  rewrite coeff_madd by lia. ring.
Qed.

Lemma mmul_madd_distr_l y M1 M2 :
  cols y = rows M1 -> cols M2 = cols M1 ->
  mmul y (madd M1 M2) = madd (mmul y M1) (mmul y M2).
Proof.
  intros Hd Hc. mat_ext i j Hi Hj.
  rewrite coeff_madd by (autorewrite with mdims; lia).
  rewrite !coeff_mmul by (autorewrite with mdims; lia).
  rewrite <- sum_n_plus.
  apply sum_n_ext. intros k Hk.
  rewrite coeff_madd by lia. ring.
Qed.

Lemma qform_madd M1 M2 x :
  rows M2 = rows M1 -> cols M2 = cols M1 ->
  rows x = rows M1 -> cols x = 1%nat ->
  qform (madd M1 M2) x = qform M1 x + qform M2 x.
Proof.
  intros Hr Hc Hx Hx1. unfold qform.
  rewrite mmul_madd_distr_r by assumption.
  rewrite mmul_madd_distr_l by (autorewrite with mdims; congruence).
  apply coeff_madd; autorewrite with mdims; lia.
Qed.

Lemma qform_congruence X M x :
  cols M = rows X -> rows M = rows X -> rows x = cols X ->
  qform (mmul (transpose X) (mmul M X)) x = qform M (mmul X x).
Proof.
  intros Hc Hr Hx. unfold qform.
  rewrite (mmul_assoc (transpose X) (mmul M X) x)
    by (autorewrite with mdims; congruence).
  rewrite (mmul_assoc M X x) by congruence.
  rewrite <- (mmul_assoc (transpose x) (transpose X))
    by (autorewrite with mdims; congruence).
  rewrite <- transpose_mmul by congruence.
  reflexivity.
Qed.

Lemma psd_madd M1 M2 :
  psd M1 -> psd M2 -> cols M2 = cols M1 -> psd (madd M1 M2).
Proof.
  intros [S1 H1] [S2 H2] Hc. split; [autorewrite with mdims; exact S1 |].
  intros x [W [Rx Cx]]. autorewrite with mdims in Rx.
  rewrite qform_madd by congruence.
  replace 0 with (0 + 0) by ring.
  apply Qcplus_le_compat.
  - apply H1. split; [exact W | split; congruence].
  - apply H2. split; [exact W | split; congruence].
Qed.

Lemma psd_congruence X M :
  psd M -> cols M = rows X -> psd (mmul (transpose X) (mmul M X)).
Proof.
  intros [Sq H] Hc. split; [now autorewrite with mdims |].
  intros x [W [Rx Cx]]. autorewrite with mdims in Rx.
  rewrite qform_congruence by congruence.
  apply H. split; [apply wf_mmul | split; autorewrite with mdims; congruence].
Qed.

Lemma psd_Zero n : psd (Zero n n).
Proof.
  split; [now autorewrite with mdims |].
  intros x [W [Rx Cx]]. autorewrite with mdims in Rx.
  unfold qform.
  rewrite coeff_mmul by (autorewrite with mdims; lia).
  apply sum_n_nonneg. intros k Hk. autorewrite with mdims in Hk.
  rewrite (coeff_mmul (Zero n n)) by (autorewrite with mdims; lia).
  rewrite (@sum_n_ext _ _ (fun _ => 0)).
  - rewrite sum_n_zero. rewrite Qcmult_0_r. apply Qcle_refl.
  - intros l _. rewrite coeff_Zero. ring.
Qed.

Lemma psd_msum n l :
  Forall (fun M => psd M /\ cols M = n) l -> psd (msum n n l).
Proof.
  induction 1 as [| M l [HM HC] Hl IH].
  - apply psd_Zero.
  - change (msum n n (M :: l)) with (madd M (msum n n l)).
    apply psd_madd; auto.
    rewrite HC. apply cols_msum.
    eapply Forall_impl; [| exact Hl]. cbn. tauto.
Qed.

Lemma psd_mscale a M : 0 <= a -> psd M -> psd (mscale a M).
Proof.
  intros Ha [Sq H]. split; [now autorewrite with mdims |].
  intros x [W [Rx Cx]]. autorewrite with mdims in Rx.
  assert (E : qform (mscale a M) x = a * qform M x).
  { unfold qform.
    rewrite !coeff_mmul by (autorewrite with mdims; lia).
    rewrite <- sum_n_mult_l. apply sum_n_ext. intros k Hk.
    autorewrite with mdims in Hk.
    rewrite !coeff_mmul by (autorewrite with mdims; lia).
    autorewrite with mdims.
    rewrite (@sum_n_ext _ _ (fun l => a * (coeff M k l * coeff x l 0%nat))).
    - rewrite sum_n_mult_l. ring.
    - intros l Hl. rewrite coeff_mscale by lia. ring. }
  rewrite E. apply Qc_mult_nonneg; auto.
  apply H. split; [exact W | split; congruence].
Qed.

Lemma sum_n_single n f k :
  (k < n)%nat -> (forall l, (l < n)%nat -> l <> k -> f l = 0) ->
  sum_n n f = f k.
Proof.
  revert k. induction n as [| n IH]; intros k Hk H; [lia |].
  rewrite sum_n_S. destruct (Nat.eq_dec k n) as [-> | Hne].
  - rewrite (@sum_n_ext _ _ (fun _ => 0)).
    + rewrite sum_n_zero. ring.
    + intros l Hl. apply H; lia.
  - rewrite (IH k) by (try lia; intros; apply H; lia).
    rewrite (H n) by lia. ring.
Qed.

Lemma psd_Identity n : psd (Identity n n).
Proof.
  split; [unfold Identity; now autorewrite with mdims |].
  unfold Identity at 1. autorewrite with mdims.
  intros x [W [Rx Cx]].
  unfold qform.
  rewrite coeff_mmul by (autorewrite with mdims; lia).
  apply sum_n_nonneg. intros k Hk. autorewrite with mdims in Hk.
  rewrite (coeff_mmul (Identity n n))
    by (unfold Identity; autorewrite with mdims; lia).
  unfold Identity at 1. autorewrite with mdims.
  rewrite (@sum_n_single _ _ k).
  - unfold Identity. rewrite coeff_tabulate by lia. rewrite Nat.eqb_refl.
    rewrite coeff_transpose by lia.
    rewrite Qcmult_1_l. apply Qc_square_nonneg.
  - lia.
  - intros l Hl Hne. unfold Identity. rewrite coeff_tabulate by lia.
    destruct (Nat.eqb_spec k l); [congruence | ring].
Qed.

Section Pass.

Variable solve : Matrix -> Matrix -> Matrix.
Variable d : Dynamics.

Lemma Z_update_psd lin quad Zs P i :
  LQSpec.valid_linearization d lin = true ->
  LQSpec.valid_quadraticization d quad = true ->
  psd_costs quad ->
  (i < NumPlayers d)%nat ->
  (forall j, wf (P j) /\ rows (P j) = UDim d j /\ cols (P j) = XDim d) ->
  psd (LQSpec.Z Zs i) -> cols (LQSpec.Z Zs i) = XDim d ->
  psd (LQSpec.Z_update d lin quad Zs P i).
Proof.
  intros Hlin Hquad Hpsd Hi HP HZ CZ.
  destruct (F_dims d lin P Hlin) as [WF [RF CF]].
  pose proof (valid_quadraticization_cost d quad Hquad Hi) as Hcost.
  destruct (valid_cost_state d _ Hcost) as [[WQ [RQ CQ]] _].
  assert (Hlen : (i < length quad)%nat).
  { unfold LQSpec.valid_quadraticization in Hquad.
    rewrite andb_true_iff, Nat.eqb_eq in Hquad. lia. }
  destruct (Hpsd (nth i quad empty_quad)) as [PQ PR]; [now apply nth_In |].
  pose proof (valid_cost_distinct d _ Hcost) as Hdist.
  unfold LQSpec.Z_update, LQSpec.Q.
  apply psd_madd; [apply psd_madd | |].
  - apply psd_congruence; auto. congruence.
  - exact PQ.
  - autorewrite with mdims. congruence.
  - apply psd_msum. apply Forall_map. apply Forall_forall.
    intros j Hj. unfold LQSpec.players_of, keys in Hj.
    apply in_map_iff in Hj. destruct Hj as [e [<- He]].
    destruct (valid_cost_entry d _ _ Hcost He) as [Hlt [[WR [RR CR]] _]].
    destruct (HP (fst e)) as [WP [RP CP]].
    unfold LQSpec.R. rewrite (find_distinct _ _ Hdist He).
    split.
    + apply psd_congruence; auto. congruence.
    + now autorewrite with mdims.
  - autorewrite with mdims. rewrite CF. apply cols_msum.
    apply Forall_map. apply Forall_forall. intros j _.
    destruct (HP j) as [_ [_ CP]]. now autorewrite with mdims.
Qed.

Lemma backward_step_psd linearization quadraticization kk
      solver strategies solver' strategies' :
  LQSpec.valid_linearization
    d (nth kk linearization (mkLinearization empty_matrix [])) = true ->
  LQSpec.valid_quadraticization d (nth kk quadraticization []) = true ->
  psd_costs (nth kk quadraticization []) ->
  LQSpec.valid_values d (Zs_ solver) (zetas_ solver) = true ->
  (forall i, (i < NumPlayers d)%nat ->
             psd (nth i (Zs_ solver) empty_matrix)) ->
  backward_step solve d linearization quadraticization kk (solver, strategies)
  = Ok (solver', strategies') ->
  forall i, (i < NumPlayers d)%nat ->
            psd (nth i (Zs_ solver') empty_matrix).
Proof.
  intros Hlin Hquad Hpsd Hval HS E i Hi.
  destruct (backward_step_values d solve linearization quadraticization kk
              solver strategies Hlin Hquad Hval E) as [_ [_ H]].
  destruct (H i Hi) as [_ ->].
  destruct (valid_values_spec d _ _ Hval Hi) as [[_ [_ CZ]] _].
  apply Z_update_psd; auto.
  - intros j. unfold Ps_. autorewrite with mdims. auto with mwf.
  - apply HS. exact Hi.
Qed.

Lemma initial_state_psd solver K linearization quadraticization :
  LQSpec.valid_workspace d solver = true ->
  LQSpec.valid_problem d K linearization quadraticization = true ->
  (0 < K)%nat ->
  (forall quad, In quad quadraticization -> psd_costs quad) ->
  forall i, (i < NumPlayers d)%nat ->
    psd (nth i (Zs_ (fst (initial_state d solver quadraticization)))
             empty_matrix).
Proof.
  intros Hws Hp HK Hpsd i Hi.
  destruct (valid_workspace_spec d solver Hws) as [_ [_ [_ [_ [LZ Lz]]]]].
  destruct (valid_problem_spec _ _ _ _ Hp) as [_ [Lq [_ Hq]]].
  assert (Hne : quadraticization <> [])
    by (destruct quadraticization; cbn in *; [lia | discriminate]).
  pose proof (forallb_last _ [] Hne Hq) as Hlast.
  destruct (terminal_values_spec d quadraticization _ _ LZ Lz) as [L1 [L2 H]].
  unfold initial_state.
  destruct (terminal_values d quadraticization (Zs_ solver) (zetas_ solver))
    as [Zs zetas]. cbn [fst snd Zs_ zetas_] in *.
  destruct (H i Hi) as [-> _].
  assert (Hin : In (last quadraticization []) quadraticization).
  { destruct (exists_last Hne) as [l' [x ->]].
    rewrite last_last. apply in_or_app. right. now left. }
  apply (Hpsd _ Hin). apply nth_In.
  unfold LQSpec.valid_quadraticization in Hlast.
  rewrite andb_true_iff, Nat.eqb_eq in Hlast. lia.
Qed.

Lemma backward_pass_psd K linearization quadraticization ks st st' :
  LQSpec.valid_problem d K linearization quadraticization = true ->
  (forall quad, In quad quadraticization -> psd_costs quad) ->
  (forall kk, In kk ks -> (kk < K)%nat) ->
  LQSpec.valid_values d (Zs_ (fst st)) (zetas_ (fst st)) = true ->
  (forall i, (i < NumPlayers d)%nat ->
             psd (nth i (Zs_ (fst st)) empty_matrix)) ->
  backward_pass solve d linearization quadraticization ks st = Ok st' ->
  forall i, (i < NumPlayers d)%nat ->
            psd (nth i (Zs_ (fst st')) empty_matrix).
Proof.
  intros Hp Hpsd Hks Hval HS E.
  assert (H : LQSpec.valid_values d (Zs_ (fst st')) (zetas_ (fst st')) = true /\
              forall i, (i < NumPlayers d)%nat ->
                        psd (nth i (Zs_ (fst st')) empty_matrix));
    [| tauto].
  revert E. unfold backward_pass.
  apply (for_each_invariant
           (fun st => LQSpec.valid_values d (Zs_ (fst st)) (zetas_ (fst st))
                      = true /\
                      forall i, (i < NumPlayers d)%nat ->
                                psd (nth i (Zs_ (fst st)) empty_matrix)));
    [| auto].
  intros kk [solver strategies] [solver' strategies'] Hin [Hv Hs] E.
  destruct (@valid_problem_step d _ _ _ _ Hp (Hks kk Hin)) as [Hlin Hquad].
  destruct (valid_problem_spec _ _ _ _ Hp) as [_ [L2 _]].
  assert (Hsk : psd_costs (nth kk quadraticization [])).
  { apply Hpsd. apply nth_In. specialize (Hks kk Hin). lia. }
  cbn [fst] in *. split.
  - eapply backward_step_valid_values; eauto.
  - eapply backward_step_psd; eauto.
Qed.

End Pass.


Lemma fixture_costs_psd quad :
  In quad Examples.fixture_quadraticization -> psd_costs quad.
Proof.
  intros Hin. apply repeat_spec in Hin. subst quad.
  assert (H1 : psd (Identity 1 1)) by apply psd_Identity.
  assert (H2 : psd (Identity 2 2)) by apply psd_Identity.
  intros q [<- | [<- | []]]; cbn [state control hess snd]; split.
  - exact H2.
  - intros e [<- | [<- | []]]; cbn [hess snd].
    + exact H1.
    + apply psd_mscale; [discriminate | exact H1].
  - apply psd_mscale; [discriminate | exact H2].
  - intros e [<- | [<- | []]]; cbn [hess snd].
    + apply psd_mscale; [discriminate | exact H1].
    + exact H1.
Qed.


End ConvexityFacts.

(* ===================================================================== *)
(** * What the expectations of the test compare                           *)
(* ===================================================================== *)

Module SolveLQGameTestFacts.

Import Mat MatFacts QcFacts Fixture SolveLQGameTest.
Local Open Scope Qc_scope.

Lemma Qc_max_lt_iff (a b t : Qc) : Qc_max a b < t <-> a < t /\ b < t.
Proof.
  unfold Qc_max. destruct (Qc_ltb a b) eqn:E.
  - apply Qc_ltb_lt in E. split; [| tauto].
    intros H. split; [| exact H]. now apply Qclt_trans with b.
  - assert (Hle : b <= a).
    { apply Qcnot_lt_le. intros H. apply Qc_ltb_lt in H. congruence. }
    split; [| tauto].
    intros H. split; [exact H |]. now apply Qcle_lt_trans with a.
Qed.

Lemma fold_max_lt l : forall x t,
  fold_left Qc_max l x < t <-> x < t /\ Forall (fun y => y < t) l.
Proof.
  induction l as [| y l IH]; intros x t; cbn [fold_left].
  - split; [intros H; split; [exact H | constructor] | tauto].
  - rewrite IH, Qc_max_lt_iff. split.
    + intros [[H1 H2] H3]. split; [exact H1 | now constructor].
    + intros [H1 H2]. inversion H2; subst. tauto.
Qed.

Lemma In_concat_tabulate r c f x :
  In x (concat (data (tabulate r c f))) <->
  exists i j, (i < r)%nat /\ (j < c)%nat /\ x = f i j.
Proof.
  unfold tabulate. cbn [data]. rewrite in_concat. split.
  - intros [row [Hrow Hx]].
    apply in_map_iff in Hrow. destruct Hrow as [i [<- Hi]].
    apply in_map_iff in Hx. destruct Hx as [j [<- Hj]].
    apply in_seq in Hi. apply in_seq in Hj.
    exists i, j. repeat split; lia.
  - intros [i [j [Hi [Hj ->]]]].
    exists (map (f i) (seq 0 c)). split.
    + apply in_map_iff. exists i. split; [reflexivity | apply in_seq; lia].
    + apply in_map_iff. exists j. split; [reflexivity | apply in_seq; lia].
Qed.

(** The largest coefficient of a matrix with at least one coefficient is
    below [t] when all coefficients are. *)
Lemma maxCoeff_lt r c f t :
  (0 < r)%nat -> (0 < c)%nat ->
  maxCoeff (tabulate r c f) < t <->
  forall i j, (i < r)%nat -> (j < c)%nat -> f i j < t.
Proof.
  intros Hr Hc. unfold maxCoeff.
  pose proof (In_concat_tabulate r c f) as Hin.
  destruct (concat (data (tabulate r c f))) as [| x l].
  - exfalso. apply (proj2 (Hin (f 0%nat 0%nat))).
    exists 0%nat, 0%nat. repeat split; assumption.
  - rewrite fold_max_lt. split.
    + intros [Hx Hl] i j Hi Hj.
      assert (H : In (f i j) (x :: l))
        by (apply Hin; exists i, j; repeat split; assumption).
      destruct H as [<- | H]; [exact Hx |].
      rewrite Forall_forall in Hl. now apply Hl.
    + intros H. split.
      * destruct (proj1 (Hin x) (or_introl eq_refl))
          as [i [j [Hi [Hj ->]]]]. now apply H.
      * apply Forall_forall. intros y Hy.
        destruct (proj1 (Hin y) (or_intror Hy)) as [i [j [Hi [Hj ->]]]].
        now apply H.
Qed.

(** X12.  An expectation of the test compares coefficient by coefficient:
    for a gain [P] with at least one coefficient,
    [(P - lq_P).cwiseAbs().maxCoeff() < kSmallNumber] holds exactly when
    every coefficient of [P] differs from that of [lq_P] by less than
    [kSmallNumber] in absolute value. *)
Theorem close_compares_every_coefficient P lq_P :
  (0 < rows P)%nat -> (0 < cols P)%nat ->
  close P lq_P = true <->
  forall i j, (i < rows P)%nat -> (j < cols P)%nat ->
              Qc_abs (coeff P i j - coeff lq_P i j) < kSmallNumber.
Proof.
  intros Hr Hc. unfold close. rewrite Qc_ltb_lt.
  unfold cwiseAbs. autorewrite with mdims.
  rewrite maxCoeff_lt by assumption.
  split; intros H i j Hi Hj.
  - rewrite <- coeff_msub by assumption. now apply H.
  - rewrite coeff_msub by assumption. now apply H.
Qed.

Lemma close_compares_every_coefficient_witness :
  (0 < 1)%nat /\ (0 < 2)%nat /\
  (close (mkMatrix 1 2 [[1; 0]]) (mkMatrix 1 2 [[1; 1]]) = true <->
   forall i j, (i < 1)%nat -> (j < 2)%nat ->
               Qc_abs (coeff (mkMatrix 1 2 [[1; 0]]) i j
                       - coeff (mkMatrix 1 2 [[1; 1]]) i j) < kSmallNumber).
Proof.
  split; [lia |]. split; [lia |].
  apply (@close_compares_every_coefficient
           (mkMatrix 1 2 [[1; 0]]) (mkMatrix 1 2 [[1; 1]])); cbn; lia.
Defined.

End SolveLQGameTestFacts.

(* ===================================================================== *)
(** * Facts about floating-point times                                    *)
(* ===================================================================== *)

Module FloatTimeFacts.

Import FloatTime.
Local Open Scope Z_scope.

(** ** The comparisons *)

Lemma SFcompare_antisym a b :
  SFcompare b a = option_map CompOpp (SFcompare a b).
Proof.
  destruct a as [sa | sa | | sa ma ea], b as [sb | sb | | sb mb eb];
    cbn; try reflexivity;
    try (destruct sa; reflexivity); try (destruct sb; reflexivity);
    try (destruct sa, sb; reflexivity).
  destruct sa, sb; cbn; try reflexivity.
  - rewrite (Z.compare_antisym ea eb).
    destruct (ea ?= eb); cbn; try reflexivity.
    do 2 f_equal. symmetry. exact (Pos.compare_cont_antisym ma mb Eq).
  - rewrite (Z.compare_antisym ea eb).
    destruct (ea ?= eb); cbn; try reflexivity.
    f_equal. symmetry. exact (Pos.compare_cont_antisym ma mb Eq).
Qed.

Lemma SFcompare_not_nan a b :
  is_nan a = false -> is_nan b = false -> exists c, SFcompare a b = Some c.
Proof.
  destruct a, b; cbn; intros Ha Hb; try discriminate; eauto.
Qed.

(** On numbers, [a < b] fails exactly when [b <= a] holds. *)
Lemma Time_ltb_false_leb a b :
  is_nan a = false -> is_nan b = false ->
  Time_ltb a b = false -> Time_leb b a = true.
Proof.
  intros Ha Hb. unfold Time_ltb, Time_leb, SFltb, SFleb.
  rewrite (SFcompare_antisym a b).
  destruct (SFcompare_not_nan a b Ha Hb) as [c ->]. cbn.
  destruct c; cbn; congruence.
Qed.

Lemma Time_ltb_leb a b : Time_ltb a b = true -> Time_leb a b = true.
Proof.
  unfold Time_ltb, Time_leb, SFltb, SFleb.
  destruct (SFcompare a b) as [[| |] |]; congruence.
Qed.

Lemma Time_leb_refl a : is_nan a = false -> Time_leb a a = true.
Proof.
  unfold Time_leb, SFleb.
  destruct a as [s | s | | s m e]; cbn; try discriminate; intros _.
  - reflexivity.
  - destruct s; reflexivity.
  - destruct s; rewrite Z.compare_refl, Pos.compare_cont_refl; reflexivity.
Qed.

(** A comparison with NaN is false. *)
Lemma Time_ltb_nan_l a : Time_ltb S754_nan a = false.
Proof. reflexivity. Qed.
Lemma Time_ltb_nan_r a : Time_ltb a S754_nan = false.
Proof. now destruct a. Qed.

(** ** The numbers of a format, in order *)

Lemma digits2_pos_bound m : Zpos m < 2 ^ Zpos (digits2_pos m).
Proof.
  induction m as [m IH | m IH |]; cbn [digits2_pos].
  - rewrite Pos2Z.inj_succ, Z.pow_succ_r by lia. lia.
  - rewrite Pos2Z.inj_succ, Z.pow_succ_r by lia. lia.
  - reflexivity.
Qed.

Section Format.

Variables prec emax : Z.
Hypothesis prec_positive : 0 < prec.
Hypothesis prec_below_emax : prec < emax.

(** A mantissa of the format has at most [prec] bits, and its exponent
    lies between [emin] and [emax - prec]. *)
Lemma bounded_spec m e :
  bounded prec emax m e = true ->
  emin prec emax <= e <= emax - prec /\ Zpos m < 2 ^ prec.
Proof.
  unfold bounded, canonical_mantissa, fexp.
  rewrite andb_true_iff, Z.eqb_eq, Z.leb_le. intros [Hc He].
  split; [lia |].
  eapply Z.lt_le_trans; [apply digits2_pos_bound |].
  apply Z.pow_le_mono_r; lia.
Qed.

Lemma magnitude_bounds m e :
  bounded prec emax m e = true ->
  0 < magnitude prec emax m e < top prec emax.
Proof.
  intros H. destruct (bounded_spec _ _ H) as [[He1 He2] Hm].
  unfold magnitude, top.
  assert (HP : 0 < 2 ^ prec) by (apply Z.pow_pos_nonneg; lia).
  nia.
Qed.

Lemma magnitude_lt m1 e1 m2 e2 :
  bounded prec emax m1 e1 = true -> bounded prec emax m2 e2 = true ->
  match e1 ?= e2 with
  | Lt => Lt
  | Gt => Gt
  | Eq => Pos.compare_cont Eq m1 m2
  end = Lt ->
  magnitude prec emax m1 e1 < magnitude prec emax m2 e2.
Proof.
  intros H1 H2.
  destruct (bounded_spec _ _ H1) as [[Ha1 Ha2] Hm1].
  destruct (bounded_spec _ _ H2) as [[Hb1 Hb2] Hm2].
  assert (HP : 0 < 2 ^ prec) by (apply Z.pow_pos_nonneg; lia).
  unfold magnitude. destruct (Z.compare_spec e1 e2) as [-> | Hlt | Hgt].
  - intros Hc. change (Pos.compare_cont Eq m1 m2) with (Pos.compare m1 m2) in Hc.
    assert (Z.pos m1 < Z.pos m2) by exact Hc. lia.
  - intros _.
    assert ((e1 - emin prec emax + 1) * 2 ^ prec
            <= (e2 - emin prec emax) * 2 ^ prec)
      by (apply Z.mul_le_mono_nonneg_r; lia).
    lia.
  - discriminate.
Qed.

(** [a < b] places [a] before [b]. *)
Lemma rank_lt a b :
  is_Time prec emax a = true -> is_Time prec emax b = true ->
  Time_ltb a b = true -> rank prec emax a < rank prec emax b.
Proof.
  unfold is_Time, Time_ltb, SFltb.
  assert (Htop : 0 < top prec emax).
  { unfold top, emin. assert (0 < 2 ^ prec) by (apply Z.pow_pos_nonneg; lia).
    nia. }
  destruct a as [sa | sa | | sa ma ea], b as [sb | sb | | sb mb eb];
    cbn [valid_binary SFcompare rank]; intros Ha Hb E;
    try discriminate;
    try (pose proof (magnitude_bounds _ _ Ha));
    try (pose proof (magnitude_bounds _ _ Hb)).
  - destruct sb; [discriminate | lia].
  - destruct sb; [discriminate | lia].
  - destruct sa; [lia | discriminate].
  - destruct sa, sb; try discriminate; lia.
  - destruct sa; [| discriminate]. destruct sb; lia.
  - destruct sa; [lia | discriminate].
  - destruct sb; [discriminate |]. destruct sa; lia.
  - destruct sa, sb; try discriminate; try lia.
    + assert (Hc : match eb ?= ea with
                   | Lt => Lt
                   | Gt => Gt
                   | Eq => Pos.compare_cont Eq mb ma
                   end = Lt).
      { rewrite (Z.compare_antisym ea eb).
        destruct (ea ?= eb); cbn [CompOpp] in *; try discriminate;
          try reflexivity.
        rewrite <- (CompOpp_involutive (Pos.compare_cont Eq mb ma)).
        change Eq with (CompOpp Eq) at 1.
        rewrite <- (Pos.compare_cont_antisym ma mb Eq). cbn [CompOpp].
        destruct (Pos.compare_cont Eq ma mb); cbn in *; congruence. }
      pose proof (magnitude_lt _ _ _ _ Hb Ha Hc). lia.
    + assert (Hc : match ea ?= eb with
                   | Lt => Lt
                   | Gt => Gt
                   | Eq => Pos.compare_cont Eq ma mb
                   end = Lt).
      { destruct (ea ?= eb), (Pos.compare_cont Eq ma mb);
          cbn in *; congruence. }
      exact (magnitude_lt _ _ _ _ Ha Hb Hc).
Qed.

End Format.

End FloatTimeFacts.

(* ===================================================================== *)
(** * The accessors of the sliders, with times in floating point          *)
(* ===================================================================== *)

Module FloatSlidersFacts.

Import FloatTime FloatSliders FloatTimeFacts.
Local Open Scope Z_scope.

Lemma min_Time_not_nan a b :
  is_nan a = false -> is_nan b = false -> is_nan (min_Time a b) = false.
Proof. intros Ha Hb. unfold min_Time. now destruct (Time_ltb b a). Qed.

Lemma min_Time_leb_r a b :
  is_nan a = false -> is_nan b = false -> Time_leb (min_Time a b) b = true.
Proof.
  intros Ha Hb. unfold min_Time. destruct (Time_ltb b a) eqn:E.
  - now apply Time_leb_refl.
  - now apply Time_ltb_false_leb.
Qed.

Lemma max_Time_geb_r a b :
  is_nan a = false -> is_nan b = false -> Time_leb b (max_Time a b) = true.
Proof.
  intros Ha Hb. unfold max_Time. destruct (Time_ltb a b) eqn:E.
  - now apply Time_leb_refl.
  - now apply Time_ltb_false_leb.
Qed.

Lemma max_Time_leb a b c :
  Time_leb a c = true -> Time_leb b c = true ->
  Time_leb (max_Time a b) c = true.
Proof. intros Ha Hb. unfold max_Time. now destruct (Time_ltb a b). Qed.

(** [std::min] and [std::max] let a NaN in their first argument through:
    every comparison with it is false. *)
Lemma clamp_nan lo hi : max_Time (min_Time S754_nan hi) lo = S754_nan.
Proof.
  unfold min_Time. rewrite Time_ltb_nan_r.
  unfold max_Time. now rewrite Time_ltb_nan_l.
Qed.

(** C10 (as amended).  Over a non-empty list of logs (of a size an [int]
    can hold), [LogIndex()] never exceeds [logs.size() - 1]; the accessors
    clamp from above only, so it is a valid index when the raw
    [log_index_] is not negative.  Then [SolverIterate()] never exceeds
    [NumIterates() - 1] of the selected log, if an [int] can hold
    [NumIterates()].  [InterpolationTime()] returns a NaN
    [interpolation_time_] as it is; when neither the slider nor the two
    times of the selected log are NaN, it is at least the log's
    [InitialTime()] and, when [InitialTime() <= FinalTime()], at most its
    [FinalTime()]. *)
Theorem accessors_clamp_numbers s :
  logs_ s <> [] ->
  Z.of_nat (length (logs_ s)) <= 2 ^ 31 ->
  LogIndex s <= Z.of_nat (length (logs_ s)) - 1 /\
  (0 <= log_index_ s ->
   0 <= LogIndex s < Z.of_nat (length (logs_ s)) /\
   exists log,
     logs_at s (LogIndex s) = Some log /\
     (Z.of_nat (NumIterates log) <= 2 ^ 31 ->
      exists iterate,
        SolverIterate s = Some iterate /\
        iterate <= Z.of_nat (NumIterates log) - 1) /\
     exists time,
       InterpolationTime s = Some time /\
       (is_nan (interpolation_time_ s) = true -> time = S754_nan) /\
       (is_nan (interpolation_time_ s) = false ->
        is_nan (InitialTime log) = false ->
        is_nan (FinalTime log) = false ->
        Time_leb (InitialTime log) time = true /\
        (Time_leb (InitialTime log) (FinalTime log) = true ->
         Time_leb time (FinalTime log) = true))).
Proof.
  intros Hne Hsize.
  assert (Hlen : 1 <= Z.of_nat (length (logs_ s))).
  { destruct (logs_ s); [congruence | cbn [length]; lia]. }
  assert (HL : LogIndex s = Z.min (log_index_ s)
                                  (Z.of_nat (length (logs_ s)) - 1)).
  { unfold LogIndex.
    now rewrite SlidersFacts.min_int_spec,
      SlidersFacts.static_cast_int_size_t_pred. }
  split; [lia |].
  intros Hpos. split; [lia |].
  assert (Hnth : exists log, logs_at s (LogIndex s) = Some log).
  { unfold logs_at. destruct (Z.ltb_spec (LogIndex s) 0); [lia |].
    destruct (nth_error (logs_ s) (Z.to_nat (LogIndex s))) as [log |] eqn:E;
      [eauto |].
    apply nth_error_None in E. lia. }
  destruct Hnth as [log Hlog]. exists log. split; [exact Hlog |]. split.
  - intros Hit. unfold SolverIterate. rewrite Hlog. eexists.
    split; [reflexivity |].
    rewrite SlidersFacts.min_int_spec,
      SlidersFacts.static_cast_int_size_t_pred by assumption.
    lia.
  - unfold InterpolationTime. rewrite Hlog. eexists.
    split; [reflexivity |]. split.
    + intros Hnan. destruct (interpolation_time_ s); try discriminate.
      apply clamp_nan.
    + intros Hx Hi Hf. split.
      * apply max_Time_geb_r; [now apply min_Time_not_nan | exact Hi].
      * intros Hord. apply max_Time_leb; [| exact Hord].
        now apply min_Time_leb_r.
Qed.

Lemma accessors_clamp_numbers_witness :
  let log0 := mkSolverLog (of_Z float_prec float_emax 0)
                          (of_Z float_prec float_emax 2) 4 in
  let log1 := mkSolverLog (of_Z float_prec float_emax 1)
                          (of_Z float_prec float_emax 3) 2 in
  let s := mkControlSliders (of_Z float_prec float_emax 7) 5 3 [log0; log1] in
  logs_ s <> [] /\
  Z.of_nat (length (logs_ s)) <= 2 ^ 31 /\
  LogIndex s <= Z.of_nat (length (logs_ s)) - 1 /\
  (0 <= log_index_ s -> 0 <= LogIndex s < Z.of_nat (length (logs_ s))) /\
  InterpolationTime s = Some (of_Z float_prec float_emax 3).
Proof.
  cbn zeta.
  split; [discriminate |]. split; [cbn; lia |].
  destruct (@accessors_clamp_numbers
              (mkControlSliders (of_Z float_prec float_emax 7) 5 3
                 [mkSolverLog (of_Z float_prec float_emax 0)
                              (of_Z float_prec float_emax 2) 4;
                  mkSolverLog (of_Z float_prec float_emax 1)
                              (of_Z float_prec float_emax 3) 2])
              ltac:(discriminate) ltac:(cbn; lia)) as [H1 H2].
  split; [exact H1 |]. split; [intros Hpos; exact (proj1 (H2 Hpos)) |].
  reflexivity.
Defined.

(** A NaN on the time slider comes out of [InterpolationTime()]: the
    accessor does not bring it into the interval of the log. *)
Lemma InterpolationTime_passes_NaN :
  let log := mkSolverLog (of_Z float_prec float_emax 0)
                         (of_Z float_prec float_emax 1) 1 in
  let s := mkControlSliders S754_nan 0 0 [log] in
  InterpolationTime s = Some S754_nan /\
  Time_leb (InitialTime log) S754_nan = false /\
  Time_leb S754_nan (FinalTime log) = false.
Proof. cbn zeta. repeat split. Qed.

End FloatSlidersFacts.

(* ===================================================================== *)
(** * Runs of the driver in floating point                                *)
(* ===================================================================== *)

Module FloatDriverFacts.

Import FloatTime FloatDriver FloatTimeFacts.
Local Open Scope Z_scope.

Section Driver.

Variables prec emax : Z.
Hypothesis prec_positive : 0 < prec.
Hypothesis prec_below_emax : prec < emax.

Variables State OperatingPoint Strategies SolverLog Problem SolutionSplicer
  : Type.
Variable env : Collaborators State OperatingPoint Strategies SolverLog Problem
                             SolutionSplicer.

Lemma float_loop_body_cases planner_runtime st :
  match loop_body prec emax env planner_runtime st with
  | Continue st' =>
      elapsed_time st' = measured env st /\
      Time_leb (elapsed_time st') planner_runtime = true /\
      length (logs st') = S (length (logs st)) /\
      clock_reads st' = S (S (clock_reads st)) /\
      t st' = Time_plus prec emax (Time_plus prec emax (t st) (elapsed_time st'))
                        (kExtraTime prec emax)
  | CheckLeFailed st' =>
      elapsed_time st' = measured env st /\
      Time_leb (elapsed_time st') planner_runtime = false /\
      length (logs st') = S (length (logs st)) /\
      t st' = t st
  end.
Proof.
  unfold loop_body.
  destruct (Problem_Solve env (Some planner_runtime) _) as [log problem2].
  destruct (Time_leb (measured env st) planner_runtime) eqn:E; cbn [negb].
  - cbn. rewrite length_app. cbn. repeat split; auto; lia.
  - cbn. rewrite length_app. cbn. repeat split; auto; lia.
Qed.

(** The loop is left at the first head at which [t < final_time] is
    false, or at a failed deadline check. *)
Lemma while_loop_outcome final_time planner_runtime fuel :
  forall st,
    match while_loop prec emax env fuel final_time planner_runtime st with
    | Returned st' => Time_ltb (t st') final_time = false
    | Died st' => Time_leb (elapsed_time st') planner_runtime = false
    | OutOfFuel => True
    end.
Proof.
  induction fuel as [| fuel IH]; intros st; cbn [while_loop].
  - destruct (Time_ltb (t st) final_time) eqn:E; [exact I | exact E].
  - destruct (Time_ltb (t st) final_time) eqn:E; [| exact E].
    pose proof (float_loop_body_cases planner_runtime st) as H.
    destruct (loop_body prec emax env planner_runtime st) as [st' | st'].
    + apply IH.
    + tauto.
Qed.

Section Advance.

Variables final_time planner_runtime : Time.
Variable problem0 : Problem.

Hypothesis final_time_is_Time : is_Time prec emax final_time = true.

(** Every pass the run completes leaves [t] a larger number. *)
Hypothesis t_advances :
  forall n st st',
    after_passes prec emax env n final_time planner_runtime problem0
    = Some st ->
    after_passes prec emax env (S n) final_time planner_runtime problem0
    = Some st' ->
    Time_ltb (t st) (t st') = true /\ is_Time prec emax (t st') = true.

(** There are only so many numbers between [t] and [final_time]. *)
Lemma while_loop_ends :
  forall fuel n st,
    after_passes prec emax env n final_time planner_runtime problem0
    = Some st ->
    is_Time prec emax (t st) = true ->
    rank prec emax final_time - rank prec emax (t st) <= Z.of_nat fuel ->
    while_loop prec emax env fuel final_time planner_runtime st <> OutOfFuel.
Proof.
  induction fuel as [| fuel IH]; intros n st Hn Ht Hfuel; cbn [while_loop].
  - destruct (Time_ltb (t st) final_time) eqn:E; [| discriminate].
    pose proof (rank_lt prec_positive prec_below_emax _ _ Ht
                        final_time_is_Time E).
    lia.
  - destruct (Time_ltb (t st) final_time) eqn:E; [| discriminate].
    destruct (loop_body prec emax env planner_runtime st) as [st' | st']
      eqn:Ebody; [| discriminate].
    assert (Hn' : after_passes prec emax env (S n) final_time planner_runtime
                               problem0 = Some st').
    { cbn [after_passes]. now rewrite Hn, E, Ebody. }
    destruct (t_advances n Hn Hn') as [Hlt Ht'].
    pose proof (rank_lt prec_positive prec_below_emax _ _ Ht Ht' Hlt).
    apply (IH (S n) st' Hn' Ht'). lia.
Qed.

End Advance.


(** ** The time of a run *)

Lemma while_loop_time final_time planner_runtime problem0 fuel :
  forall n st,
    length (logs st) = S n -> clock_reads st = (2 * S n)%nat ->
    t st = accumulate prec emax env n (t (before_loop env problem0)) ->
    match while_loop prec emax env fuel final_time planner_runtime st with
    | Returned st' =>
        t st' = accumulate prec emax env (length (logs st') - 1)
                           (t (before_loop env problem0))
    | Died st' =>
        t st' = accumulate prec emax env (length (logs st') - 2)
                           (t (before_loop env problem0))
    | OutOfFuel => True
    end.
Proof.
  induction fuel as [| fuel IH]; intros n st Hlogs Hreads Ht;
    cbn [while_loop].
  - destruct (Time_ltb (t st) final_time); [exact I |].
    rewrite Hlogs. replace (S n - 1)%nat with n by lia. exact Ht.
  - destruct (Time_ltb (t st) final_time).
    + pose proof (float_loop_body_cases planner_runtime st) as H.
      destruct (loop_body prec emax env planner_runtime st) as [st' | st'].
      * destruct H as (He & _ & Hl & Hr & Ht').
        apply (IH (S n) st'); [lia | lia |].
        rewrite Ht', He, Ht. unfold measured. rewrite Hreads.
        cbn [accumulate].
        replace (2 * S n + 1)%nat with (S (2 * S n)) by lia.
        reflexivity.
      * destruct H as (_ & _ & Hl & Ht').
        rewrite Hl, Hlogs. replace (S (S n) - 2)%nat with n by lia.
        now rewrite Ht'.
    + rewrite Hlogs. replace (S n - 1)%nat with n by lia. exact Ht.
Qed.

(** X6.  The simulated time accounts for every pass, in floating point:
    when the driver returns [n + 1] logs, [t] is what the [n] passes have
    made of the initial [t0], adding first the time measured around the
    solve of the pass and then 0.1, and rounding after each addition; when
    it dies with [n + 2] logs, [t] still is what the [n] completed passes
    made it. *)
Theorem run_time_accounting fuel final_time planner_runtime problem0 :
  match RecedingHorizonSimulator prec emax env fuel final_time
                                 planner_runtime problem0 with
  | Returned st =>
      t st = accumulate prec emax env (length (logs st) - 1)
                        (t (before_loop env problem0))
  | Died st =>
      t st = accumulate prec emax env (length (logs st) - 2)
                        (t (before_loop env problem0))
  | OutOfFuel => True
  end.
Proof.
  unfold RecedingHorizonSimulator.
  apply (@while_loop_time final_time planner_runtime problem0 fuel 0%nat).
  - unfold before_loop. now destruct (Problem_Solve env None problem0).
  - unfold before_loop. now destruct (Problem_Solve env None problem0).
  - reflexivity.
Qed.

End Driver.

(** ** At the toy instance *)

Lemma toy_measured prec emax (st : Locals unit Time Time Time) :
  measured (toy prec emax) st = of_ratio prec emax 50 1000.
Proof.
  unfold measured, toy. cbn [clock_now duration_count].
  replace (50 * Z.of_nat (S (clock_reads st)) - 50 * Z.of_nat (clock_reads st))
    with 50 by lia.
  reflexivity.
Qed.

Lemma after_passes_None prec emax State OperatingPoint Strategies SolverLog
      Problem SolutionSplicer
      (env : Collaborators State OperatingPoint Strategies SolverLog Problem
                           SolutionSplicer)
      final_time planner_runtime problem0 n k :
  after_passes prec emax env n final_time planner_runtime problem0 = None ->
  after_passes prec emax env (n + k) final_time planner_runtime problem0
  = None.
Proof.
  intros H. induction k as [| k IH]; [now rewrite Nat.add_0_r |].
  rewrite Nat.add_succ_r. cbn [after_passes]. now rewrite IH.
Qed.


(** ** Where the additions are absorbed *)

(** In [float], from [2^21] on, adding 0.05 and then 0.1 changes
    nothing; so it is in [double] from [2^50] on. *)
Lemma absorbed_float :
  Time_plus float_prec float_emax
    (Time_plus float_prec float_emax (of_Z float_prec float_emax (2 ^ 21))
               (of_ratio float_prec float_emax 50 1000))
    (kExtraTime float_prec float_emax)
  = of_Z float_prec float_emax (2 ^ 21).
Proof. vm_compute. reflexivity. Qed.

Lemma absorbed_double :
  Time_plus double_prec double_emax
    (Time_plus double_prec double_emax (of_Z double_prec double_emax (2 ^ 50))
               (of_ratio double_prec double_emax 50 1000))
    (kExtraTime double_prec double_emax)
  = of_Z double_prec double_emax (2 ^ 50).
Proof. vm_compute. reflexivity. Qed.

(** A pass of the toy run that finds [t] at an absorbing time leaves it
    there. *)
Lemma toy_pass_stalls prec emax planner_runtime start st :
  Time_leb (of_ratio prec emax 50 1000) planner_runtime = true ->
  Time_plus prec emax (Time_plus prec emax start (of_ratio prec emax 50 1000))
            (kExtraTime prec emax) = start ->
  t st = start ->
  exists st',
    loop_body prec emax (toy prec emax) planner_runtime st = Continue st' /\
    t st' = start.
Proof.
  intros Hle Habs Ht.
  pose proof (float_loop_body_cases prec emax (toy prec emax) planner_runtime st)
    as H.
  destruct (loop_body prec emax (toy prec emax) planner_runtime st)
    as [st' | st'].
  - exists st'. split; [reflexivity |].
    destruct H as (He & _ & _ & _ & Ht').
    now rewrite Ht', He, toy_measured, Ht.
  - destruct H as (He & Hgt & _). rewrite He, toy_measured in Hgt. congruence.
Qed.

Lemma toy_loop_stalls prec emax final_time planner_runtime start :
  Time_ltb start final_time = true ->
  Time_leb (of_ratio prec emax 50 1000) planner_runtime = true ->
  Time_plus prec emax (Time_plus prec emax start (of_ratio prec emax 50 1000))
            (kExtraTime prec emax) = start ->
  forall fuel st,
    t st = start ->
    while_loop prec emax (toy prec emax) fuel final_time planner_runtime st
    = OutOfFuel.
Proof.
  intros Hlt Hle Habs. induction fuel as [| fuel IH]; intros st Ht;
    cbn [while_loop]; rewrite Ht, Hlt; [reflexivity |].
  destruct (toy_pass_stalls prec emax planner_runtime st Hle Habs Ht)
    as (st' & -> & Ht').
  now apply IH.
Qed.


(** The same in [double], from [2^50]. *)
Lemma loop_stalls_at_large_times_double :
  let start := of_Z double_prec double_emax (2 ^ 50) in
  let final_time := of_Z double_prec double_emax (2 ^ 51) in
  let planner_runtime := of_ratio double_prec double_emax 1 10 in
  Time_ltb start final_time = true /\
  forall fuel,
    RecedingHorizonSimulator double_prec double_emax
                             (toy double_prec double_emax)
                             fuel final_time planner_runtime start
    = OutOfFuel.
Proof.
  cbn zeta. split; [reflexivity |].
  intros fuel. unfold RecedingHorizonSimulator.
  apply toy_loop_stalls with (start := of_Z double_prec double_emax (2 ^ 50)).
  - reflexivity.
  - reflexivity.
  - exact absorbed_double.
  - reflexivity.
Qed.

End FloatDriverFacts.

(* ===================================================================== *)
(** * The solver and the Lyapunov iterations at another time step         *)
(* ===================================================================== *)

Module OtherTimeStepFacts.

Import Mat LQ Coordinates Fixture Enclosure OtherTimeStep MatFacts QcFacts
       LQFacts IntervalFacts CoordinatesFacts FixtureFacts.
Local Open Scope Qc_scope.
Local Unset Implicit Arguments.

Lemma above_spec tol I J x y :
  above tol I J = true -> Interval.contains I x -> Interval.contains J y ->
  (tol < this x - this y)%Q.
Proof.
  unfold above, Interval.contains. cbv zeta.
  rewrite BigZ.spec_ltb, BigZ.spec_sub, BigZ.spec_of_Z, Z.ltb_lt.
  intros H [Hx1 Hx2] [Hy1 Hy2].
  pose proof (Qle_ceiling (tol * inject_Z (Zpos Interval.scale))) as Hc.
  assert (Hb : (tol <= Interval.val
                         (Qceiling (tol * inject_Z (Zpos Interval.scale))))%Q).
  { unfold Interval.val. rewrite Qmake_Qdiv.
    apply Qle_shift_div_l; [reflexivity | exact Hc]. }
  apply val_lt in H. rewrite val_minus in H. lra.
Qed.

Lemma gains_apart_inv tol lq ly :
  gains_apart tol lq ly = true ->
  exists P L,
    lq = Some P /\ ly = Some L /\ above tol (v0 (fst L)) (v0 (fst P)) = true.
Proof.
  unfold gains_apart. destruct lq as [P |], ly as [L |]; try discriminate.
  intros H. exists P, L. repeat split. exact H.
Qed.

(** When the expectation holds, all coefficients are close. *)
Lemma close_coefficients P lq_P i j :
  (0 < rows P)%nat -> (0 < cols P)%nat ->
  SolveLQGameTest.close P lq_P = true ->
  (i < rows P)%nat -> (j < cols P)%nat ->
  Qc_abs (coeff P i j - coeff lq_P i j) < kSmallNumber.
Proof.
  intros Hr Hc E Hi Hj. unfold SolveLQGameTest.close in E.
  apply Qc_ltb_lt in E. unfold cwiseAbs in E.
  autorewrite with mdims in E.
  rewrite (@SolveLQGameTestFacts.maxCoeff_lt _ _ _ _ Hr Hc) in E.
  specialize (E i j Hi Hj). now rewrite coeff_msub in E by assumption.
Qed.

(** A coefficient further apart than the tolerance fails the
    expectation. *)
Lemma not_close L P :
  (this kSmallNumber < this (v0 L) - this (v0 P))%Q ->
  SolveLQGameTest.close (row2 L) (row2 P) = false.
Proof.
  intros H.
  destruct (SolveLQGameTest.close (row2 L) (row2 P)) eqn:E; [| reflexivity].
  exfalso.
  assert (Hlt : Qc_abs (v0 L - v0 P) < kSmallNumber).
  { exact (close_coefficients (row2 L) (row2 P) 0 0
             (Nat.lt_0_succ 0) (Nat.lt_0_succ 1) E
             (Nat.lt_0_succ 0) (Nat.lt_0_succ 1)). }
  unfold Qc_abs in Hlt. destruct (Qc_ltb (v0 L - v0 P) 0) eqn:En.
  - apply Qc_ltb_lt in En. unfold Qclt in En. rewrite this_minus in En.
    assert (0 < this kSmallNumber)%Q by reflexivity.
    change (this 0) with 0%Q in En. lra.
  - unfold Qclt in Hlt. rewrite this_minus in Hlt. lra.
Qed.

(** The test at the time step 0.02 is a game in coordinates. *)
Lemma Linearize_at_game :
  Linearize_at dt = game_linearization (game_at dt).
Proof. reflexivity. Qed.

Lemma quadraticizations_game_at :
  LyapunovTest.quadraticizations
  = game_quadraticization (game_at dt) LyapunovTest.l1 LyapunovTest.l2.
Proof. reflexivity. Qed.

Lemma costs_game_at :
  LyapunovTest.Q1 = M22 (gQ1 (game_at dt)) /\
  LyapunovTest.Q2 = M22 (gQ2 (game_at dt)) /\
  LyapunovTest.R11 = M11 (gR11 (game_at dt)) /\
  LyapunovTest.R12 = M11 (gR12 (game_at dt)) /\
  LyapunovTest.R21 = M11 (gR21 (game_at dt)) /\
  LyapunovTest.R22 = M11 (gR22 (game_at dt)).
Proof. repeat split. Qed.

(** The enclosures of the two computations at the time step 0.02,
    evaluated: they lie more than 0.004 apart. *)
Lemma enclosures_apart :
  gains_apart (4 # 1000)
              (lq_gains_itv (itv_game (game_at dt)) 100)
              (lyapunov_gains_itv (itv_game (game_at dt))
                                  LyapunovTest.kNumIterations)
  = true.
Proof. vm_compute. reflexivity. Qed.

(** C8 (as stated) fails: the agreement is a fact about the fixture, not
    about every time-invariant two-player game.  For the same point mass
    and the same costs discretized at [dt = 0.02], over the same 100 time
    steps, the first coefficient of player 1's gain after the 100 Lyapunov
    iterations exceeds that of the solver's first-step gain by more than
    0.004, and the test fails. *)
Lemma lq_differs_from_lyapunov_iterations :
  exists strategies P1 P2,
    Solve exact_solve (LyapunovTest.solver_for 100)
          (repeat (Linearize_at (LyapunovTest.q 2 100)) 100)
          (repeat LyapunovTest.quadraticizations 100) = Ok strategies /\
    LyapunovTest.SolveLyapunovIterations exact_solve
      (A (Linearize_at (LyapunovTest.q 2 100)))
      (nth 0 (Bs (Linearize_at (LyapunovTest.q 2 100))) empty_matrix)
      (nth 1 (Bs (Linearize_at (LyapunovTest.q 2 100))) empty_matrix)
      LyapunovTest.Q1 LyapunovTest.Q2 LyapunovTest.R11 LyapunovTest.R12
      LyapunovTest.R21 LyapunovTest.R22 = (P1, P2) /\
    Q2Qc (4 # 1000)
    < coeff P1 0 0
      - coeff (nth 0 (Ps (nth 0 strategies empty_strategy)) empty_matrix) 0 0 /\
    MatchesLyapunovIterations_at (LyapunovTest.q 2 100) 100 exact_solve
    = Ok false.
Proof.
  fold dt.
  destruct (gains_apart_inv _ _ _ enclosures_apart)
    as (IP & IL & ELQ & ELY & Hab).
  pose proof (contains_itv_game (game_at dt)) as Hg.
  assert (HK : (2 <= 100)%nat) by lia.
  destruct (Solve_game exact_solve (itv_game (game_at dt)) (game_at dt)
              LyapunovTest.l1 LyapunovTest.l2 100 IP exact_solve_order_2
              Hg HK ELQ)
    as (strategies & P & ES & [HP1 HP2] & EP1 & EP2).
  destruct (SolveLyapunovIterations_game exact_solve (itv_game (game_at dt))
              (game_at dt) IL exact_solve_order_1 Hg ELY)
    as (L & EL & [HL1 HL2]).
  destruct HL1 as [HL10 _]. destruct HP1 as [HP10 _].
  pose proof (above_spec _ _ _ _ _ Hab HL10 HP10) as Hdiff.
  destruct costs_game_at as (EQ1 & EQ2 & ER11 & ER12 & ER21 & ER22).
  exists strategies, (row2 (fst L)), (row2 (snd L)).
  assert (ES' : Solve exact_solve (LyapunovTest.solver_for 100)
                      (repeat (Linearize_at dt) 100)
                      (repeat LyapunovTest.quadraticizations 100)
                = Ok strategies).
  { rewrite Linearize_at_game, quadraticizations_game_at. exact ES. }
  assert (EL' : LyapunovTest.SolveLyapunovIterations exact_solve
                  (A (Linearize_at dt))
                  (nth 0 (Bs (Linearize_at dt)) empty_matrix)
                  (nth 1 (Bs (Linearize_at dt)) empty_matrix)
                  LyapunovTest.Q1 LyapunovTest.Q2 LyapunovTest.R11
                  LyapunovTest.R12 LyapunovTest.R21 LyapunovTest.R22
                = (row2 (fst L), row2 (snd L))).
  { rewrite Linearize_at_game, EQ1, EQ2, ER11, ER12, ER21, ER22.
    cbn [A Bs game_linearization nth]. exact EL. }
  match goal with |- _ /\ _ => split end; [exact ES' |].
  match goal with |- _ /\ _ => split end; [exact EL' |].
  match goal with |- _ /\ _ => split end.
  - rewrite EP1.
    change (coeff (row2 (fst L)) 0 0) with (v0 (fst L)).
    change (coeff (row2 (fst P)) 0 0) with (v0 (fst P)).
    unfold Qclt. rewrite this_minus, this_Q2Qc. exact Hdiff.
  - unfold MatchesLyapunovIterations_at. rewrite ES'. cbn [bind].
    rewrite EL'. cbn [fst snd]. rewrite EP1.
    rewrite (not_close (fst L) (fst P)); [reflexivity |].
    assert (this kSmallNumber < 4 # 1000)%Q by reflexivity. lra.
Qed.

End OtherTimeStepFacts.
